(** * Assembly-tree and identity-resolution engine of the 3D BOM viewer

    A shallow embedding of the React components of the viewer
    (DynamicBOMTreeView, BOMTreeView, DynamicInteractiveGLBModel,
    InteractiveGLBModel and App) together with the properties that the
    design document states about them.

    Conventions of the embedding:
    - a JavaScript string is a [string]; [toLowerCase] folds the ASCII
      letters only;
    - a JavaScript number that is an id is a [Z]; a number that is a
      colour component, a length or an angle is a real number (rounding,
      NaN and the infinities of IEEE doubles are not represented);
    - [null] and [undefined] are told apart where the code compares with
      [===] (the [parent_id] of a record) and are both [None] where the
      code only tests truthiness (names);
    - a recursion of the source that is not structural carries a fuel
      argument, and running out of fuel stands for the overflow of the
      JavaScript stack;
    - materials live in a store indexed by references, so that two meshes
      can share one material as they do in a loaded glTF scene. *)

From Stdlib Require Import Reals Lra ZArith DecimalString Ascii String.
From stdpp Require Import base list strings option.
From stdpp Require gmap.

Local Open Scope Z_scope.
Local Open Scope string_scope.

(** ** JavaScript strings *)

(** The strings of this development are texts of 8-bit characters, read
    as ASCII.  On ASCII text [String.prototype.toLowerCase] changes the
    letters A to Z and nothing else, which is what [toLowerCase] does; text
    beyond ASCII, which JavaScript folds by the Unicode tables, is not
    covered; the characterisation of the search filter says so with
    [is_ascii]. *)

(** [c.toLowerCase()] on one code unit. *)
Definition lower_ascii (c : ascii) : ascii :=
  let n := N_of_ascii c in
  if ((65 <=? n)%N && (n <=? 90)%N)%bool then ascii_of_N (n + 32) else c.

(** [s.toLowerCase()] *)
Fixpoint toLowerCase (s : string) : string :=
  match s with
  | EmptyString => EmptyString
  | String c s' => String (lower_ascii c) (toLowerCase s')
  end.

(** [s.includes(t)]: [t] occurs in [s] as a contiguous substring. *)
Fixpoint includes (s t : string) : bool :=
  String.prefix t s ||
  match s with
  | EmptyString => false
  | String _ s' => includes s' t
  end.

(** Truthiness of a string value that may be [null] or [undefined]:
    only a non-empty string is truthy. *)
Definition truthy (o : option string) : bool :=
  match o with
  | Some s => negb (String.eqb s "")
  | None => false
  end.

(** [a === b] where [a] may be null or undefined and [b] is a string. *)
Definition strict_eq_str (a : option string) (b : string) : bool :=
  match a with
  | Some s => String.eqb s b
  | None => false
  end.

(** [n.toString()] for an integer. *)
Definition Z_toString (n : Z) : string := NilZero.string_of_int (Z.to_int n).

Definition is_digit (c : ascii) : bool :=
  let n := N_of_ascii c in ((48 <=? n)%N && (n <=? 57)%N)%bool.

Definition is_dash_or_underscore (c : ascii) : bool :=
  (Ascii.eqb c "-" || Ascii.eqb c "_")%bool.

(** Splits a reversed string into its leading run of digits and the rest. *)
Fixpoint span_digits (s : string) : string * string :=
  match s with
  | String c s' =>
      if is_digit c
      then let '(ds, rest) := span_digits s' in (String c ds, rest)
      else (EmptyString, s)
  | EmptyString => (EmptyString, EmptyString)
  end.

Fixpoint string_rev (s : string) : string :=
  match s with
  | EmptyString => EmptyString
  | String c s' => string_rev s' ++ String c EmptyString
  end.

(** [s.replace(/[-_]\d+$/, '')]: a final run of digits that follows a
    dash or an underscore is removed together with that separator. *)
Definition strip_numeric_suffix (s : string) : string :=
  match span_digits (string_rev s) with
  | (String _ _, String c rest) =>
      if is_dash_or_underscore c then string_rev rest else s
  | _ => s
  end.

(** ** Data model *)

(** The values a [parent_id] takes in a BOM document. *)
Inductive JsRef : Type :=
  | JsUndefined
  | JsNull
  | JsNumber (n : Z).

#[global] Instance JsRef_eq_dec : EqDecision JsRef.
Proof. solve_decision. Defined.

(** An id is a number for a BOM record and a string for the placeholder
    record made for a mesh without BOM entry. *)
Inductive JsId : Type :=
  | IdNum (n : Z)
  | IdStr (s : string).

#[global] Instance JsId_eq_dec : EqDecision JsId.
Proof. solve_decision. Defined.

Definition JsId_toString (i : JsId) : string :=
  match i with
  | IdNum n => Z_toString n
  | IdStr s => s
  end.

(** Truthiness of an id: [0] and the empty string are falsy. *)
Definition JsId_truthy (i : JsId) : bool :=
  match i with
  | IdNum n => negb (Z.eqb n 0)
  | IdStr s => negb (String.eqb s "")
  end.

Module Part.
Record t : Type := mk {
  id : Z;
  parent_id : JsRef;
  name : option string;
  reference_name : option string;
  shape_type : option string;
  is_assembly : bool;
  is_root : bool }.
End Part.

Abbreviation PartRecord := Part.t.

#[global] Instance PartRecord_eq_dec : EqDecision PartRecord.
Proof. solve_decision. Defined.

(** The BOM document served for one model. *)
Record BomData : Type := mkBom {
  filename : option string;
  total_parts : Z;
  total_assemblies : Z;
  timestamp : option string;
  assembly_tree : option (list PartRecord) }.

(** A record with its children, in the order of the flat list. *)
Inductive AssemblyNode : Type :=
  | Node (item : PartRecord) (children : list AssemblyNode).

Definition node_item (n : AssemblyNode) : PartRecord :=
  match n with Node item _ => item end.

Definition node_children (n : AssemblyNode) : list AssemblyNode :=
  match n with Node _ children => children end.

(** All records of a hierarchy, the node before its descendants. *)
Fixpoint flatten (n : AssemblyNode) : list PartRecord :=
  match n with
  | Node item children => item :: flat_map flatten children
  end.

(** ** Tree Builder *)

(** [buildTree] of both tree views:
    [assembly_tree.filter(item => item.parent_id === parentId)
                  .map(item => ({...item, children: buildTree(item.id)}))].
    [None] is returned when the fuel is exhausted. *)
Fixpoint buildTree (tree : list PartRecord) (fuel : nat) (parentId : JsRef)
  : option (list AssemblyNode) :=
  match fuel with
  | O => None
  | S fuel' =>
      mapM (fun item =>
              children ← buildTree tree fuel' (JsNumber (Part.id item));
              Some (Node item children))
           (filter (fun item => Part.parent_id item = parentId) tree)
  end.

(** The memoised [hierarchicalData]: [null] without a record list, else
    the first tree built from the records whose parent is [null]. *)
Definition hierarchicalData (fuel : nat) (bomData : option BomData)
  : option (option AssemblyNode) :=
  match bomData with
  | None => Some None
  | Some bom =>
      match assembly_tree bom with
      | None => Some None
      | Some records =>
          forest ← buildTree records fuel JsNull;
          Some (head forest)
      end
  end.

(** A record lacks a parent when its [parent_id] is null or absent. *)
Definition lacks_parent (r : PartRecord) : bool :=
  bool_decide (Part.parent_id r = JsNull \/ Part.parent_id r = JsUndefined).

(** [ancestry tree (r :: l)]: [l] lists the ancestors of [r], nearest
    first, up to a record whose [parent_id] is [null]; every link goes
    from a record to the record that carries its [parent_id] as id. *)
Inductive ancestry (tree : list PartRecord) : list PartRecord -> Prop :=
  | ancestry_root r :
      r ∈ tree -> Part.parent_id r = JsNull -> ancestry tree [r]
  | ancestry_child r p l :
      r ∈ tree -> Part.parent_id r = JsNumber (Part.id p) ->
      ancestry tree (p :: l) -> ancestry tree (r :: p :: l).

(** A record is reachable when parent links lead from it to a root. *)
Definition reachable (tree : list PartRecord) (r : PartRecord) : Prop :=
  exists l, ancestry tree (r :: l).

(** The argument [buildTree] receives below a chain of ancestors
    (nearest first): [null] at the top, else the id of the nearest one. *)
Definition parentRef (ctx : list PartRecord) : JsRef :=
  match ctx with
  | [] => JsNull
  | p :: _ => JsNumber (Part.id p)
  end.

(** Every node of a hierarchy hangs below the node its [parent_id] names. *)
Fixpoint well_linked (parentId : JsRef) (n : AssemblyNode) : Prop :=
  match n with
  | Node item children =>
      Part.parent_id item = parentId /\
      fold_right (fun c acc => well_linked (JsNumber (Part.id item)) c /\ acc)
                 True children
  end.

(** What a forest built below the ancestors [ctx] has to be: its top
    nodes are the records whose [parent_id] names the nearest ancestor, in
    list order; its records are exactly those whose ancestry passes
    through [ctx], none of them twice; and its links are right. *)
Definition forest_below (tree ctx : list PartRecord)
  (forest : list AssemblyNode) : Prop :=
  node_item <$> forest
    = filter (fun item => Part.parent_id item = parentRef ctx) tree /\
  (forall x, x ∈ flat_map flatten forest <->
             exists l', ancestry tree (x :: l' ++ ctx)) /\
  NoDup (flat_map flatten forest) /\
  Forall (well_linked (parentRef ctx)) forest.

(** ** Search Filter *)

(** The match test of DynamicBOMTreeView. *)
Definition matches (searchQuery : string) (node : PartRecord) : bool :=
  (truthy (Part.reference_name node) &&
     includes (toLowerCase (default "" (Part.reference_name node)))
              (toLowerCase searchQuery))
  || (truthy (Part.name node) &&
        includes (toLowerCase (default "" (Part.name node)))
                 (toLowerCase searchQuery))
  || includes (Z_toString (Part.id node)) searchQuery.

(** The match test of the older BOMTreeView. *)
Definition matches_legacy (searchQuery : string) (node : PartRecord) : bool :=
  (truthy (Part.reference_name node) &&
     includes (toLowerCase (default "" (Part.reference_name node)))
              (toLowerCase searchQuery))
  || includes (Z_toString (Part.id node)) searchQuery.

(** [filterNode], over the match test of the component it sits in. *)
Fixpoint filterNode (test : PartRecord -> bool) (node : AssemblyNode)
  : option AssemblyNode :=
  match node with
  | Node item children =>
      let filteredChildren := omap (filterNode test) children in
      if (test item || (0 <? length filteredChildren)%nat)%bool
      then Some (Node item filteredChildren)
      else None
  end.

(** The memoised [filteredData] of a tree view. *)
Definition filteredData (test : string -> PartRecord -> bool)
  (searchQuery : string) (hierarchy : option AssemblyNode)
  : option AssemblyNode :=
  if String.eqb searchQuery "" then hierarchy
  else match hierarchy with
       | None => None
       | Some root => filterNode (test searchQuery) root
       end.

(** A path of records that starts at a node and follows children. *)
Inductive path_in : AssemblyNode -> list PartRecord -> Prop :=
  | path_here item children : path_in (Node item children) [item]
  | path_down item children c p :
      c ∈ children -> path_in c p -> path_in (Node item children) (item :: p).

(** The nodes of a hierarchy, each with its own subtree. *)
Fixpoint subnodes (n : AssemblyNode) : list AssemblyNode :=
  match n with
  | Node item children => n :: flat_map subnodes children
  end.

(** The match test in the words of the design: a case-insensitive
    substring test of the query over a list of textual fields. *)
Definition ci_includes (field : option string) (query : string) : bool :=
  match field with
  | Some s => includes (toLowerCase s) (toLowerCase query)
  | None => false
  end.

Definition spec_matches (query : string) (node : PartRecord) : bool :=
  existsb (fun field => ci_includes field query)
    [Part.reference_name node; Part.name node;
     Some (Z_toString (Part.id node))].

Definition spec_matches_no_name (query : string) (node : PartRecord) : bool :=
  existsb (fun field => ci_includes field query)
    [Part.reference_name node; Some (Z_toString (Part.id node))].

(** Neither an upper-case nor a lower-case ASCII letter. *)
Definition caseless (c : ascii) : bool :=
  let n := N_of_ascii c in
  negb (((65 <=? n)%N && (n <=? 90)%N) || ((97 <=? n)%N && (n <=? 122)%N)).

Fixpoint string_forall (P : ascii -> bool) (s : string) : bool :=
  match s with
  | EmptyString => true
  | String c s' => P c && string_forall P s'
  end.

(** Case-insensitivity said without any folding: two characters are the
    same letter when they are equal, or when one is an upper-case ASCII
    letter and the other the lower-case letter 32 code points above it. *)
Definition is_upper (c : ascii) : bool :=
  let n := N_of_ascii c in ((65 <=? n)%N && (n <=? 90)%N)%bool.

Definition same_letter (a b : ascii) : bool :=
  (Ascii.eqb a b
   || (is_upper a && (N_of_ascii b =? N_of_ascii a + 32)%N)
   || (is_upper b && (N_of_ascii a =? N_of_ascii b + 32)%N))%bool.

(** Two texts that differ at most in the case of their letters. *)
Fixpoint same_text (s t : string) : bool :=
  match s, t with
  | EmptyString, EmptyString => true
  | String a s', String b t' => (same_letter a b && same_text s' t')%bool
  | _, _ => false
  end.

(** [query] occurs in [field] as a contiguous piece, up to the case of
    letters. *)
Definition occurs_ignoring_case (query field : string) : Prop :=
  exists before found after,
    field = (before ++ found ++ after)%string /\ same_text found query = true.

(** The case-insensitive substring test over a list of fields, absent
    fields skipped. *)
Definition some_field_holds (query : string) (fields : list (option string))
  : Prop :=
  exists s, Some s ∈ fields /\ occurs_ignoring_case query s.

(** Text of ASCII characters, on which [toLowerCase] changes the letters
    A to Z and nothing else. *)
Definition is_ascii (s : string) : bool :=
  string_forall (fun c => (N_of_ascii c <? 128)%N) s.

Definition ascii_field (field : option string) : bool :=
  match field with Some s => is_ascii s | None => true end.

(** ** Scene objects *)

Local Open Scope R_scope.

Record Vector3 : Type := mkVector3 { vx : R; vy : R; vz : R }.

Record Color : Type := mkColor { cr : R; cg : R; cb : R }.

(** An axis-aligned box, as [Box3().setFromObject] yields it. *)
Record Box3 : Type := mkBox3 { box_min : Vector3; box_max : Vector3 }.

(** The properties of a three.js material that the viewer reads or
    writes.  [version] is what the setter of [needsUpdate] increments. *)
Record Material : Type := mkMaterial {
  isMeshStandardMaterial : bool;
  isMeshPhysicalMaterial : bool;
  metalness : option R;
  roughness : option R;
  envMapIntensity : option R;
  color : option Color;
  emissive : option Color;
  emissiveIntensity : option R;
  version : nat }.

(** A reference to a material of the store. *)
Definition MaterialRef : Type := nat.

Record UserData : Type := mkUserData {
  originalMaterial : option MaterialRef;
  originalColor : option Color;
  originalEmissive : option Color;
  originalEmissiveIntensity : option R;
  partId : option JsId }.

Module Obj.
Record t : Type := mk {
  uuid : string;
  name : string;
  isMesh : bool;
  material : option MaterialRef;
  castShadow : bool;
  receiveShadow : bool;
  userData : UserData;
  boundingBox : Box3 }.
End Obj.

Abbreviation Object3D := Obj.t.

Local Close Scope R_scope.

(** ** Selected part *)

Module Sel.
Record t : Type := mk {
  id : JsId;
  name : option string;
  reference_name : option string;
  parent_id : JsRef;
  shape_type : option string;
  is_assembly : bool;
  is_root : bool;
  meshName : option string;
  selectionSource : option string;
  matchMethod : option string;
  isFallback : bool }.
End Sel.

Abbreviation SelectedPart := Sel.t.

(** ** Identity Resolver, from a clicked mesh to a BOM record *)

(** The strategy table of [handleSingleClick] in
    DynamicInteractiveGLBModel; [clickedName] is [clickedObject.name]. *)
Definition reference_name_exact (clickedName : string) (item : PartRecord) : bool :=
  strict_eq_str (Part.reference_name item) clickedName.

Definition name_exact (clickedName : string) (item : PartRecord) : bool :=
  strict_eq_str (Part.name item) clickedName.

Definition contains_either (field : option string) (clickedName : string) : bool :=
  truthy field && truthy (Some clickedName) &&
  (includes (default "" field) clickedName ||
   includes clickedName (default "" field)).

Definition reference_name_contains (clickedName : string) (item : PartRecord) : bool :=
  contains_either (Part.reference_name item) clickedName.

Definition name_contains (clickedName : string) (item : PartRecord) : bool :=
  contains_either (Part.name item) clickedName.

(** [s?.replace(/[-_]\d+$/, '').toLowerCase()] *)
Definition clean (s : option string) : option string :=
  (fun x => toLowerCase (strip_numeric_suffix x)) <$> s.

Definition loose_match (clickedName : string) (item : PartRecord) : bool :=
  let cleanMeshName := clean (Some clickedName) in
  let cleanRefName := clean (Part.reference_name item) in
  let cleanItemName := clean (Part.name item) in
  (truthy cleanRefName && truthy cleanMeshName &&
     includes (default "" cleanRefName) (default "" cleanMeshName))
  || (truthy cleanItemName && truthy cleanMeshName &&
        includes (default "" cleanItemName) (default "" cleanMeshName)).

Definition strategies (clickedName : string)
  : list (string * (PartRecord -> bool)) :=
  [ ("reference_name_exact", reference_name_exact clickedName);
    ("name_exact", name_exact clickedName);
    ("reference_name_contains", reference_name_contains clickedName);
    ("name_contains", name_contains clickedName);
    ("loose_match", loose_match clickedName) ].

(** The loop [for (const strategy of strategies)]: the first strategy for
    which [assembly_tree.find] returns a record ends the search. *)
Fixpoint firstStrategyMatch (table : list (string * (PartRecord -> bool)))
  (tree : list PartRecord) : option (PartRecord * string) :=
  match table with
  | [] => None
  | (strategy_name, test) :: rest =>
      match List.find test tree with
      | Some partData => Some (partData, strategy_name)
      | None => firstStrategyMatch rest tree
      end
  end.

Definition resolvePartData (bomData : option BomData) (clickedName : string)
  : option (PartRecord * string) :=
  match bomData with
  | Some bom =>
      match assembly_tree bom with
      | Some tree => firstStrategyMatch (strategies clickedName) tree
      | None => None
      end
  | None => None
  end.

(** [a || b] on strings: the first operand when it is truthy. *)
Definition or_else (a : string) (b : string) : string :=
  if String.eqb a "" then b else a.

Definition partToSelect (partData : PartRecord) (clickedName matchMethod : string)
  : SelectedPart :=
  Sel.mk (IdNum (Part.id partData)) (Part.name partData)
    (Part.reference_name partData) (Part.parent_id partData)
    (Part.shape_type partData) (Part.is_assembly partData)
    (Part.is_root partData) (Some clickedName) (Some "3d_model")
    (Some matchMethod) false.

Definition fallbackData (clickedObject : Object3D) : SelectedPart :=
  Sel.mk (IdStr ("mesh_" ++ String.substring 0 8 (Obj.uuid clickedObject)))
    (Some (or_else (Obj.name clickedObject) "Unknown Part"))
    (Some (or_else (Obj.name clickedObject) "Unknown Component"))
    JsUndefined (Some "Mesh") false false
    (Some (Obj.name clickedObject)) (Some "3d_model") None true.

(** [handleSingleClick]: the value handed to [onPartSelect]; [intersects]
    lists the objects under the pointer, nearest first. *)
Definition handleSingleClick (bomData : option BomData)
  (intersects : list Object3D) : option SelectedPart :=
  match intersects with
  | clickedObject :: _ =>
      match resolvePartData bomData (Obj.name clickedObject) with
      | Some (partData, matchMethod) =>
          Some (partToSelect partData (Obj.name clickedObject) matchMethod)
      | None => Some (fallbackData clickedObject)
      end
  | [] => None
  end.

(** [isCurrentlySelected] of [handleDoubleClick]. *)
Definition isCurrentlySelected (selectedPart : option SelectedPart)
  (clickedName : string) : bool :=
  match selectedPart with
  | Some sp =>
      (truthy (Sel.meshName sp) && strict_eq_str (Sel.meshName sp) clickedName)
      || (truthy (Sel.name sp) && strict_eq_str (Sel.name sp) clickedName)
      || (truthy (Sel.reference_name sp) &&
            strict_eq_str (Sel.reference_name sp) clickedName)
      || (JsId_truthy (Sel.id sp) &&
            bool_decide (Sel.id sp = IdStr clickedName))
  | None => false
  end.

(** [handleDoubleClick]: the value handed to [onPartSelect];
    [selectedPart] is the selection the handler was set up with. *)
Definition handleDoubleClick (selectedPart : option SelectedPart)
  (bomData : option BomData) (intersects : list Object3D)
  : option SelectedPart :=
  match intersects with
  | clickedObject :: _ =>
      if isCurrentlySelected selectedPart (Obj.name clickedObject)
      then None
      else handleSingleClick bomData intersects
  | [] => None
  end.

(** What a click on a tree node of DynamicBOMTreeView hands to
    [onPartSelect]. *)
Definition treeNodeClick (node : PartRecord) : SelectedPart :=
  Sel.mk (IdNum (Part.id node)) (Part.name node) (Part.reference_name node)
    (Part.parent_id node) (Part.shape_type node) (Part.is_assembly node)
    (Part.is_root node)
    (Some (if truthy (Part.reference_name node)
           then default "" (Part.reference_name node)
           else if truthy (Part.name node)
                then default "" (Part.name node)
                else "Part_" ++ Z_toString (Part.id node)))
    (Some "bom_tree") None false.

(** ** Identity Resolver, from the selected part to a scene mesh *)

(** [scene.getObjectByName(name)]: the first object in traversal order
    with that name, a mesh or not.  A scene is the list of its objects in
    the order [traverse] visits them, the root first. *)
Fixpoint getObjectByName (objects : list Object3D) (i : nat) (name : string)
  : option nat :=
  match objects with
  | [] => None
  | o :: rest =>
      if String.eqb (Obj.name o) name then Some i
      else getObjectByName rest (S i) name
  end.

(** [scene.traverse(child => { if (test(child)) selectedMesh = child })]:
    every object is visited, so the last one that passes stays. *)
Fixpoint traverseSelect (test : Object3D -> bool) (objects : list Object3D)
  (i : nat) (selectedMesh : option nat) : option nat :=
  match objects with
  | [] => selectedMesh
  | child :: rest =>
      traverseSelect test rest (S i) (if test child then Some i else selectedMesh)
  end.

Definition meshNamed (name : string) (child : Object3D) : bool :=
  Obj.isMesh child && String.eqb (Obj.name child) name.

Definition meshPartial (name : string) (child : Object3D) : bool :=
  Obj.isMesh child && truthy (Some (Obj.name child)) &&
  (includes (Obj.name child) name || includes name (Obj.name child)).

(** One guarded strategy of the selection effect: it runs when its guard
    holds and no mesh has been found so far. *)
Definition tryStrategy (guard : bool) (method : string)
  (search : option nat) (found : option (nat * string))
  : option (nat * string) :=
  match found with
  | Some _ => found
  | None => if guard then (fun i => (i, method)) <$> search else None
  end.

(** The six strategies of the selection effect of
    DynamicInteractiveGLBModel, with the index of the object found and the
    name of the strategy that found it. *)
Definition findSelectedMesh (sp : SelectedPart) (objects : list Object3D)
  : option (nat * string) :=
  let ref := default "" (Sel.reference_name sp) in
  let nm := default "" (Sel.name sp) in
  let s1 := tryStrategy (truthy (Sel.meshName sp)) "meshName"
              (getObjectByName objects 0 (default "" (Sel.meshName sp))) None in
  let s2 := tryStrategy (truthy (Sel.reference_name sp)) "reference_name"
              (traverseSelect (meshNamed ref) objects 0 None) s1 in
  let s3 := tryStrategy (truthy (Sel.name sp)) "name"
              (traverseSelect (meshNamed nm) objects 0 None) s2 in
  let s4 := tryStrategy true "id_string"
              (traverseSelect (meshNamed (JsId_toString (Sel.id sp))) objects 0 None)
              s3 in
  let s5 := tryStrategy (truthy (Sel.reference_name sp)) "partial_reference"
              (traverseSelect (meshPartial ref) objects 0 None) s4 in
  tryStrategy (truthy (Sel.name sp)) "partial_name"
    (traverseSelect (meshPartial nm) objects 0 None) s5.

(** The single traversal of the older InteractiveGLBModel. *)
Definition legacyMeshTest (sp : SelectedPart) (child : Object3D) : bool :=
  Obj.isMesh child &&
  (strict_eq_str (Sel.name sp) (Obj.name child)
   || bool_decide (IdStr (Obj.name child) = Sel.id sp)
   || bool_decide (partId (Obj.userData child) = Some (Sel.id sp))
   || strict_eq_str (Sel.reference_name sp) (Obj.name child)
   || (truthy (Some (Obj.name child)) && truthy (Sel.reference_name sp) &&
         (includes (Obj.name child) (default "" (Sel.reference_name sp))
          || includes (default "" (Sel.reference_name sp)) (Obj.name child)))).

Definition findSelectedMesh_legacy (sp : SelectedPart) (objects : list Object3D)
  : option nat :=
  let selectedMesh :=
    if truthy (Sel.meshName sp)
    then getObjectByName objects 0 (default "" (Sel.meshName sp))
    else None in
  match selectedMesh with
  | Some i => Some i
  | None => traverseSelect (legacyMeshTest sp) objects 0 None
  end.

(** ** Selection State Machine *)

(** The state of [App] that the selection handlers write. *)
Record AppState : Type := mkApp {
  selectedPart : option SelectedPart;
  isMobilePanelOpen : bool;
  searchQuery : string }.

(** [handlePartSelect] of [App]: selecting the part that is selected
    clears the selection, anything else replaces it. *)
Definition handlePartSelect (part : option SelectedPart) (app : AppState)
  : AppState :=
  let next :=
    match selectedPart app, part with
    | Some current, Some p =>
        if bool_decide (Sel.id current = Sel.id p) then None else part
    | _, _ => part
    end in
  mkApp next false (searchQuery app).

(** [handleResetView] of [App]. *)
Definition handleResetView (app : AppState) : AppState :=
  mkApp None (isMobilePanelOpen app) (searchQuery app).

(** The machine of the design: [Idle] is [None]. *)
Definition select (part : SelectedPart) (app : AppState) : AppState :=
  handlePartSelect (Some part) app.

Definition deselect (app : AppState) : AppState :=
  handlePartSelect None app.

(** ** Camera Framing Controller *)

Local Open Scope R_scope.

Definition vector_add (a b : Vector3) : Vector3 :=
  mkVector3 (vx a + vx b) (vy a + vy b) (vz a + vz b).

Definition multiplyScalar (a : Vector3) (k : R) : Vector3 :=
  mkVector3 (vx a * k) (vy a * k) (vz a * k).

Definition vector_length (a : Vector3) : R :=
  sqrt (vx a * vx a + vy a * vy a + vz a * vz a).

(** [v.normalize()], that is [v.divideScalar(v.length() || 1)]. *)
Definition normalize (a : Vector3) : Vector3 :=
  let l := vector_length a in
  multiplyScalar a (1 / (if Req_dec_T l 0 then 1 else l)).

Definition isEmpty (b : Box3) : bool :=
  (if Rlt_dec (vx (box_max b)) (vx (box_min b)) then true else false)
  || (if Rlt_dec (vy (box_max b)) (vy (box_min b)) then true else false)
  || (if Rlt_dec (vz (box_max b)) (vz (box_min b)) then true else false).

Definition getCenter (b : Box3) : Vector3 :=
  if isEmpty b then mkVector3 0 0 0
  else multiplyScalar (vector_add (box_min b) (box_max b)) 0.5.

Definition getSize (b : Box3) : Vector3 :=
  if isEmpty b then mkVector3 0 0 0
  else mkVector3 (vx (box_max b) - vx (box_min b))
                 (vy (box_max b) - vy (box_min b))
                 (vz (box_max b) - vz (box_min b)).

(** [Math.abs(maxDim / Math.sin(fov / 2)) * factor] with
    [maxDim = Math.max(size.x, size.y, size.z)] and
    [fov = camera.fov * (Math.PI / 180)]. *)
Definition framingDistance (size : Vector3) (cameraFov factor : R) : R :=
  let maxDim := Rmax (Rmax (vx size) (vy size)) (vz size) in
  let fov := cameraFov * (PI / 180) in
  Rabs (maxDim / sin (fov / 2)) * factor.

Record Camera : Type := mkCamera { position : Vector3; fov : R }.

Record CameraAnimation : Type := mkCameraAnimation {
  startPosition : Vector3;
  endPosition : Vector3;
  startTarget : Vector3;
  endTarget : Vector3;
  progress : R;
  duration : R }.

(** ** The state of a [Model] component *)

(** The orbit controls that [orbitControlsRef.current] holds once they are
    mounted.  [target] is their target.  [update] stands for their method
    [update()], which belongs to the three.js library and not to this
    repository: from the target and the position of the camera it gives
    the position at which the call leaves the camera (the library keeps
    the camera within [minDistance] and [maxDistance] of the target).  It
    is a field of the object, so that every statement holds for whatever
    function the library computes.  The controls are taken at rest, with
    no gesture of the user in flight, and the calls of [update()] that
    the library makes on its own are not part of the effects modelled
    here. *)
Record OrbitControls : Type := mkOrbitControls {
  target : Vector3;
  update : Vector3 -> Vector3 -> Vector3 }.

(** [controls.target.copy(v)] *)
Definition set_target (v : Vector3) (c : OrbitControls) : OrbitControls :=
  mkOrbitControls v (update c).

(** The scene is the list of its objects in traversal order, the root
    first ([useGLTF] suspends the component until the scene is there, so
    no effect sees a missing scene); [materials] is the store and
    [nextMaterial] the first reference not yet handed out; [controls] are
    the orbit controls when they are mounted. *)
Record ModelState : Type := mkModelState {
  scene : list Object3D;
  materials : MaterialRef -> Material;
  nextMaterial : MaterialRef;
  camera : Camera;
  controls : option OrbitControls;
  cameraAnimation : option CameraAnimation;
  isInitialLoad : bool;
  loadError : option string;
  modelRef : bool }.

Definition with_scene (f : list Object3D -> list Object3D) (st : ModelState)
  : ModelState :=
  mkModelState (f (scene st)) (materials st) (nextMaterial st) (camera st)
    (controls st) (cameraAnimation st) (isInitialLoad st) (loadError st)
    (modelRef st).

Definition with_materials
  (f : (MaterialRef -> Material) -> MaterialRef -> Material) (st : ModelState)
  : ModelState :=
  mkModelState (scene st) (f (materials st)) (nextMaterial st) (camera st)
    (controls st) (cameraAnimation st) (isInitialLoad st) (loadError st)
    (modelRef st).

Definition store_update (m : MaterialRef) (f : Material -> Material)
  (store : MaterialRef -> Material) : MaterialRef -> Material :=
  fun k => if Nat.eqb k m then f (store m) else store k.

(** An effectful computation over the state; [None] is a thrown
    [TypeError], and the state beside it is the state at the throw. *)
Definition Eff (A : Type) : Type := ModelState -> option A * ModelState.

#[global] Instance Eff_ret : MRet Eff := fun A a st => (Some a, st).

#[global] Instance Eff_bind : MBind Eff := fun A B f m st =>
  match m st with
  | (Some a, st') => f a st'
  | (None, st') => (None, st')
  end.

Definition throwTypeError {A : Type} : Eff A := fun st => (None, st).

Definition getState : Eff ModelState := fun st => (Some st, st).

Definition getObject (i : nat) : Eff Object3D := fun st =>
  (scene st !! i, st).

Definition updateObject (i : nat) (f : Object3D -> Object3D) : Eff unit :=
  fun st => (Some tt, with_scene (alter f i) st).

Definition getMaterial (m : MaterialRef) : Eff Material := fun st =>
  (Some (materials st m), st).

Definition updateMaterial (m : MaterialRef) (f : Material -> Material)
  : Eff unit :=
  fun st => (Some tt, with_materials (store_update m f) st).

(** [scene.traverse(callback)] *)
Fixpoint forEachIndex (callback : nat -> Eff unit) (indices : list nat)
  : Eff unit :=
  match indices with
  | [] => mret tt
  | i :: rest => _ ← callback i; forEachIndex callback rest
  end.

Definition traverse (callback : nat -> Eff unit) : Eff unit := fun st =>
  forEachIndex callback (seq 0 (length (scene st))) st.

(** Field updates. *)
Definition set_material (m : option MaterialRef) (o : Object3D) : Object3D :=
  Obj.mk (Obj.uuid o) (Obj.name o) (Obj.isMesh o) m (Obj.castShadow o)
    (Obj.receiveShadow o) (Obj.userData o) (Obj.boundingBox o).

Definition set_userData (f : UserData -> UserData) (o : Object3D) : Object3D :=
  Obj.mk (Obj.uuid o) (Obj.name o) (Obj.isMesh o) (Obj.material o)
    (Obj.castShadow o) (Obj.receiveShadow o) (f (Obj.userData o))
    (Obj.boundingBox o).

Definition set_shadows (o : Object3D) : Object3D :=
  Obj.mk (Obj.uuid o) (Obj.name o) (Obj.isMesh o) (Obj.material o)
    true true (Obj.userData o) (Obj.boundingBox o).

Definition set_color (c : option Color) (m : Material) : Material :=
  mkMaterial (isMeshStandardMaterial m) (isMeshPhysicalMaterial m)
    (metalness m) (roughness m) (envMapIntensity m) c (emissive m)
    (emissiveIntensity m) (version m).

Definition set_emissive (c : option Color) (m : Material) : Material :=
  mkMaterial (isMeshStandardMaterial m) (isMeshPhysicalMaterial m)
    (metalness m) (roughness m) (envMapIntensity m) (color m) c
    (emissiveIntensity m) (version m).

Definition set_emissiveIntensity (x : option R) (m : Material) : Material :=
  mkMaterial (isMeshStandardMaterial m) (isMeshPhysicalMaterial m)
    (metalness m) (roughness m) (envMapIntensity m) (color m) (emissive m)
    x (version m).

Definition set_roughness (x : option R) (m : Material) : Material :=
  mkMaterial (isMeshStandardMaterial m) (isMeshPhysicalMaterial m)
    (metalness m) x (envMapIntensity m) (color m) (emissive m)
    (emissiveIntensity m) (version m).

Definition set_envMapIntensity (x : option R) (m : Material) : Material :=
  mkMaterial (isMeshStandardMaterial m) (isMeshPhysicalMaterial m)
    (metalness m) (roughness m) x (color m) (emissive m)
    (emissiveIntensity m) (version m).

(** [material.needsUpdate = true] *)
Definition needsUpdate (m : Material) : Material :=
  mkMaterial (isMeshStandardMaterial m) (isMeshPhysicalMaterial m)
    (metalness m) (roughness m) (envMapIntensity m) (color m) (emissive m)
    (emissiveIntensity m) (S (version m)).

(** [material.clone()]: a new material with the same properties. *)
Definition cloneMaterial (m : MaterialRef) : Eff MaterialRef := fun st =>
  let fresh := nextMaterial st in
  let copy := mkMaterial (isMeshStandardMaterial (materials st m))
                (isMeshPhysicalMaterial (materials st m))
                (metalness (materials st m)) (roughness (materials st m))
                (envMapIntensity (materials st m)) (color (materials st m))
                (emissive (materials st m))
                (emissiveIntensity (materials st m)) 0 in
  (Some fresh,
   mkModelState (scene st) (store_update fresh (fun _ => copy) (materials st))
     (S fresh) (camera st) (controls st) (cameraAnimation st)
     (isInitialLoad st) (loadError st) (modelRef st)).

Definition gt_number (x : option R) (bound : R) : bool :=
  match x with
  | Some v => if Rgt_dec v bound then true else false
  | None => false
  end.

Definition strict_eq_number (x : option R) (v : R) : bool :=
  match x with
  | Some w => if Req_dec_T w v then true else false
  | None => false
  end.

(** ** Material Highlight Manager *)

(** The callback of the traversal at scene load. *)
Definition setupCallback (i : nat) : Eff unit :=
  child ← getObject i;
  if Obj.isMesh child then
    _ ← updateObject i (fun o =>
          set_userData (fun ud =>
            mkUserData (Obj.material child) (originalColor ud)
              (originalEmissive ud) (originalEmissiveIntensity ud) (partId ud))
          (set_shadows o));
    match Obj.material child with
    | Some m =>
        mat ← getMaterial m;
        _ ← (if isMeshStandardMaterial mat || isMeshPhysicalMaterial mat then
               _ ← (if gt_number (metalness mat) 0.5
                    then updateMaterial m (set_envMapIntensity (Some 1))
                    else mret tt);
               if strict_eq_number (roughness mat) 0
               then updateMaterial m (set_roughness (Some 0.1))
               else mret tt
             else mret tt);
        _ ← match color mat with
            | Some c => updateObject i (set_userData (fun ud =>
                mkUserData (originalMaterial ud) (Some c)
                  (originalEmissive ud) (originalEmissiveIntensity ud)
                  (partId ud)))
            | None => mret tt
            end;
        _ ← match emissive mat with
            | Some c => updateObject i (set_userData (fun ud =>
                mkUserData (originalMaterial ud) (originalColor ud)
                  (Some c) (originalEmissiveIntensity ud) (partId ud)))
            | None => mret tt
            end;
        _ ← match emissiveIntensity mat with
            | Some x => updateObject i (set_userData (fun ud =>
                mkUserData (originalMaterial ud) (originalColor ud)
                  (originalEmissive ud) (Some x) (partId ud)))
            | None => mret tt
            end;
        updateMaterial m needsUpdate
    | None => mret tt
    end
  else mret tt.

(** The camera fitted to the whole scene, whose box is that of the root:
    [camera.position.set(...)], then, with the controls mounted,
    [target.copy(center)] and [update()]. *)
Definition fitCameraToScene : Eff unit := fun st =>
  let box := default (mkBox3 (mkVector3 0 0 0) (mkVector3 0 0 0))
               (Obj.boundingBox <$> head (scene st)) in
  let center := getCenter box in
  let size := getSize box in
  let cameraDistance := framingDistance size (fov (camera st)) 1.5 in
  let fitted := mkVector3 (vx center + cameraDistance)
                          (vy center + cameraDistance * 0.5)
                          (vz center + cameraDistance) in
  (Some tt,
   mkModelState (scene st) (materials st) (nextMaterial st)
     (mkCamera (match controls st with
                | Some c => update c center fitted
                | None => fitted
                end)
               (fov (camera st)))
     (set_target center <$> controls st)
     (cameraAnimation st) false (loadError st) (modelRef st)).

(** The effect that handles a loaded model: snapshots, then the camera
    fitted to the whole scene, once.  The calls to the parent component
    ([setupInteractions], [onLoadingChange]) leave this state alone. *)
Definition setupModel : Eff unit := fun st =>
  if modelRef st && isInitialLoad st && negb (truthy (loadError st))
  then (_ ← traverse setupCallback; fitCameraToScene) st
  else (Some tt, st).

(** The callback of the traversal that resets all materials. *)
Definition resetCallback (i : nat) : Eff unit :=
  child ← getObject i;
  match Obj.isMesh child, originalMaterial (Obj.userData child) with
  | true, Some m =>
      _ ← updateObject i (set_material (Some m));
      _ ← match originalColor (Obj.userData child) with
          | Some c =>
              mat ← getMaterial m;
              match color mat with
              | Some _ => updateMaterial m (set_color (Some c))
              | None => throwTypeError
              end
          | None => mret tt
          end;
      _ ← match originalEmissive (Obj.userData child) with
          | Some c =>
              mat ← getMaterial m;
              match emissive mat with
              | Some _ => updateMaterial m (set_emissive (Some c))
              | None => throwTypeError
              end
          | None => mret tt
          end;
      _ ← match originalEmissiveIntensity (Obj.userData child) with
          | Some x => updateMaterial m (set_emissiveIntensity (Some x))
          | None => mret tt
          end;
      updateMaterial m needsUpdate
  | _, _ => mret tt
  end.

(** [focusCameraOnMesh]: the animation towards the framing of one mesh. *)
Definition startAnimationTo (mesh : Object3D) : Eff unit := fun st =>
  let box := Obj.boundingBox mesh in
  let center := getCenter box in
  let size := getSize box in
  let distance := framingDistance size (fov (camera st)) 2.5 in
  let direction := normalize (mkVector3 1 0.5 1) in
  let newCameraPosition := vector_add center (multiplyScalar direction distance) in
  let currentCameraPosition := position (camera st) in
  let currentTarget := default center (target <$> controls st) in
  (Some tt,
   mkModelState (scene st) (materials st) (nextMaterial st) (camera st)
     (controls st)
     (Some (mkCameraAnimation currentCameraPosition newCameraPosition
              currentTarget center 0 1000))
     (isInitialLoad st) (loadError st) (modelRef st)).

Definition focusCameraOnMesh (i : nat) : Eff unit :=
  mesh ← getObject i; startAnimationTo mesh.

Section Highlight.

(** [Color.setHex] of three.js, whose conversion of a hexadecimal colour
    to components depends on the version of the library. *)
Variable setHex : Z -> Color.

(** The highlight of the mesh found: a clone of its original material,
    recoloured, becomes its material, and the camera is sent to it. *)
Definition highlightMesh (i : nat) : Eff unit :=
  selectedMesh ← getObject i;
  match originalMaterial (Obj.userData selectedMesh) with
  | None => throwTypeError
  | Some m =>
      highlightMaterial ← cloneMaterial m;
      mat ← getMaterial highlightMaterial;
      _ ← match color mat with
          | Some _ =>
              updateMaterial highlightMaterial (set_color (Some (setHex 0xff4444)))
          | None => throwTypeError
          end;
      _ ← match emissive mat with
          | Some _ =>
              updateMaterial highlightMaterial (set_emissive (Some (setHex 0x441100)))
          | None => throwTypeError
          end;
      _ ← updateMaterial highlightMaterial (set_emissiveIntensity (Some 0.3));
      _ ← updateObject i (set_material (Some highlightMaterial));
      _ ← updateMaterial highlightMaterial needsUpdate;
      focusCameraOnMesh i
  end.

(** Highlight of the object a resolver found, when it is a mesh. *)
Definition highlightFound (found : option nat) : Eff unit :=
  match found with
  | Some i =>
      selectedMesh ← getObject i;
      if Obj.isMesh selectedMesh then highlightMesh i else mret tt
  | None => mret tt
  end.

(** The selection effect of DynamicInteractiveGLBModel. *)
Definition selectionEffect (selected : option SelectedPart) : Eff unit :=
  fun st =>
    if negb (modelRef st) || truthy (loadError st)
    then (Some tt, st)
    else
      (_ ← traverse resetCallback;
       match selected with
       | None => mret tt
       | Some sp =>
           st' ← getState;
           highlightFound (fst <$> findSelectedMesh sp (scene st'))
       end) st.

(** The selection effect of the older InteractiveGLBModel. *)
Definition selectionEffect_legacy (selected : option SelectedPart) : Eff unit :=
  fun st =>
    if negb (modelRef st)
    then (Some tt, st)
    else
      (_ ← traverse resetCallback;
       match selected with
       | None => mret tt
       | Some sp =>
           st' ← getState;
           highlightFound (findSelectedMesh_legacy sp (scene st'))
       end) st.

End Highlight.

Local Close Scope R_scope.

(** ** Vocabulary of the highlight properties *)

(** What the eye sees of a material, and what the load keeps of it. *)
Definition appearance (m : Material) : option Color * option Color * option R :=
  (color m, emissive m, emissiveIntensity m).

Definition snapshot (ud : UserData) : option Color * option Color * option R :=
  (originalColor ud, originalEmissive ud, originalEmissiveIntensity ud).

(** The appearance of the material that object [i] wears. *)
Definition meshAppearance (st : ModelState) (i : nat)
  : option (option Color * option Color * option R) :=
  o ← scene st !! i;
  m ← Obj.material o;
  Some (appearance (materials st m)).

(** The snapshot kept with object [i]. *)
Definition meshSnapshot (st : ModelState) (i : nat)
  : option (option Color * option Color * option R) :=
  (fun o => snapshot (Obj.userData o)) <$> scene st !! i.

(** A scene as the loader hands it over: no snapshot yet, and every
    material reference is one of the store. *)
Definition fresh_scene (st : ModelState) : Prop :=
  forall o, o ∈ scene st ->
    originalMaterial (Obj.userData o) = None /\
    snapshot (Obj.userData o) = (None, None, None) /\
    forall m, Obj.material o = Some m -> (m < nextMaterial st)%nat.

(** A scene whose snapshots are in place: a mesh that had a material
    keeps a reference to it as its original material, that material looks
    as the snapshot says, and a mesh that had none has none. *)
Definition loaded (st : ModelState) : Prop :=
  forall o, o ∈ scene st -> Obj.isMesh o = true ->
    match originalMaterial (Obj.userData o) with
    | Some m => (m < nextMaterial st)%nat /\
                appearance (materials st m) = snapshot (Obj.userData o)
    | None => Obj.material o = None
    end.

(** A mesh is highlighted when its material is not its original one. *)
Definition highlighted (st : ModelState) (i : nat) : Prop :=
  exists o, scene st !! i = Some o /\ Obj.isMesh o = true /\
            Obj.material o <> originalMaterial (Obj.userData o).

(** The reset of one object, as a function. *)
Definition resetObject (o : Object3D) : Object3D :=
  match Obj.isMesh o, originalMaterial (Obj.userData o) with
  | true, Some m => set_material (Some m) o
  | _, _ => o
  end.

(** The snapshot of one object at load, as a function of the store. *)
Definition loadObject (store : MaterialRef -> Material) (o : Object3D)
  : Object3D :=
  if Obj.isMesh o then
    set_userData (fun ud =>
      match Obj.material o with
      | Some m =>
          mkUserData (Some m)
            (match color (store m) with Some c => Some c | None => originalColor ud end)
            (match emissive (store m) with Some c => Some c | None => originalEmissive ud end)
            (match emissiveIntensity (store m) with
             | Some x => Some x
             | None => originalEmissiveIntensity ud
             end)
            (partId ud)
      | None =>
          mkUserData None (originalColor ud) (originalEmissive ud)
            (originalEmissiveIntensity ud) (partId ud)
      end) (set_shadows o)
  else o.

(** What no effect after the load changes of the state: everything but
    the materials worn, the store and the camera. *)
Definition skeleton (st : ModelState) : list Object3D * bool * option string :=
  (set_material None <$> scene st, modelRef st, loadError st).

(** The camera side of the state. *)
Definition cameraPose (st : ModelState)
  : Camera * option OrbitControls * option CameraAnimation :=
  (camera st, controls st, cameraAnimation st).

(** The state after a sequence of selection changes, each handled by the
    selection effect (the state at a throw is the state that stays). *)
Definition runSelections (effect : option SelectedPart -> Eff unit)
  (history : list (option SelectedPart)) (st : ModelState) : ModelState :=
  fold_left (fun s selected => snd (effect selected s)) history st.

(** No mesh wears anything but its original material. *)
Definition unhighlighted (st : ModelState) : Prop :=
  forall i, ~ highlighted st i.

(** The look of the highlight material. *)
Definition highlightAppearance (setHex : Z -> Color)
  : option Color * option Color * option R :=
  (Some (setHex 0xff4444), Some (setHex 0x441100), Some 0.3%R).

(** The guard of the selection effect lets it run. *)
Definition ready (st : ModelState) : Prop :=
  modelRef st = true /\ truthy (loadError st) = false.

(** At most one mesh is highlighted. *)
Definition at_most_one_highlighted (st : ModelState) : Prop :=
  forall i j, highlighted st i -> highlighted st j -> i = j.

(** What one run of a selection effect makes of a loaded state: every
    object is reset; then either nothing more happens to the scene and the
    camera, or exactly one mesh gets a fresh clone of its original
    material with the look of the highlight and an animation starts.
    Materials handed out before keep their appearance. *)
Definition selection_outcome (setHex : Z -> Color)
  (selected : option SelectedPart) (st : ModelState)
  (res : option unit) (st' : ModelState) : Prop :=
  skeleton st' = skeleton st /\
  (forall k, (k < nextMaterial st)%nat ->
     appearance (materials st' k) = appearance (materials st k)) /\
  (nextMaterial st <= nextMaterial st')%nat /\
  ((scene st' = resetObject <$> scene st /\ cameraPose st' = cameraPose st) \/
   (exists i o m,
      selected <> None /\ res = Some tt /\
      (resetObject <$> scene st) !! i = Some o /\ Obj.isMesh o = true /\
      originalMaterial (Obj.userData o) = Some m /\
      scene st' = alter (set_material (Some (nextMaterial st))) i
                    (resetObject <$> scene st) /\
      appearance (materials st' (nextMaterial st)) = highlightAppearance setHex /\
      nextMaterial st' = S (nextMaterial st) /\
      camera st' = camera st /\ controls st' = controls st /\
      is_Some (cameraAnimation st'))) /\
  (selected = None ->
   res = Some tt /\ scene st' = resetObject <$> scene st /\
   cameraPose st' = cameraPose st).

(** ** Identity Resolver of the older InteractiveGLBModel *)

(** The two [find]s of its [handleSingleClick]: exact on either name,
    then containment on either name. *)
Definition exact_either (clickedName : string) (item : PartRecord) : bool :=
  reference_name_exact clickedName item || name_exact clickedName item.

Definition contains_any (clickedName : string) (item : PartRecord) : bool :=
  reference_name_contains clickedName item || name_contains clickedName item.

Definition resolvePartData_legacy (bomData : option BomData)
  (clickedName : string) : option PartRecord :=
  match bomData ≫= assembly_tree with
  | Some tree =>
      match List.find (exact_either clickedName) tree with
      | Some partData => Some partData
      | None => List.find (contains_any clickedName) tree
      end
  | None => None
  end.

Definition partToSelect_legacy (partData : PartRecord) (clickedName : string)
  : SelectedPart :=
  Sel.mk (IdNum (Part.id partData)) (Part.name partData)
    (Part.reference_name partData) (Part.parent_id partData)
    (Part.shape_type partData) (Part.is_assembly partData)
    (Part.is_root partData) (Some clickedName) None None false.

Definition fallbackData_legacy (clickedObject : Object3D) : SelectedPart :=
  Sel.mk (IdStr ("mesh_" ++ String.substring 0 8 (Obj.uuid clickedObject)))
    (Some (or_else (Obj.name clickedObject) "Unknown Part"))
    (Some (or_else (Obj.name clickedObject) "Unknown Component"))
    JsUndefined (Some "Mesh") false false
    (Some (Obj.name clickedObject)) None None false.

Definition handleSingleClick_legacy (bomData : option BomData)
  (intersects : list Object3D) : option SelectedPart :=
  match intersects with
  | clickedObject :: _ =>
      match resolvePartData_legacy bomData (Obj.name clickedObject) with
      | Some partData =>
          Some (partToSelect_legacy partData (Obj.name clickedObject))
      | None => Some (fallbackData_legacy clickedObject)
      end
  | [] => None
  end.

Definition handleDoubleClick_legacy (selectedPart : option SelectedPart)
  (bomData : option BomData) (intersects : list Object3D)
  : option SelectedPart :=
  match intersects with
  | clickedObject :: _ =>
      if isCurrentlySelected selectedPart (Obj.name clickedObject)
      then None
      else handleSingleClick_legacy bomData intersects
  | [] => None
  end.

(** ** Click listener of [setupInteractions] *)

Section ClickDiscrimination.

(** References to scene objects: [===] on two objects is their identity.
    An intersection list holds the references of the objects under the
    pointer, nearest first. *)
Context {Ref : Type} `{EqDecision Ref}.

(** A call of one of the two handlers, with its argument. *)
Inductive HandlerCall : Type :=
  | SingleClick (intersects : list Ref)
  | DoubleClick (intersects : list Ref).

(** The variables [clickCount], [clickTimer] and [lastClickedObject]
    that the listeners close over, with the timers that [setTimeout]
    scheduled and that neither ran nor were cleared; each holds the
    intersection list its callback will hand to [handleSingleClick]. *)
Record ClickState : Type := mkClickState {
  clickCount : nat;
  clickTimer : option nat;
  lastClickedObject : option Ref;
  scheduled : list (nat * list Ref);
  nextTimerId : nat }.

Definition initialClickState : ClickState := mkClickState 0 None None [] 0.

(** [clearTimeout(timer)] *)
Definition clearTimeout (timer : option nat) (timers : list (nat * list Ref))
  : list (nat * list Ref) :=
  filter (fun t => Some (fst t) <> timer) timers.

(** [handleClick], after the ray cast that gives [intersects]. *)
Definition handleClick (intersects : list Ref) (s : ClickState)
  : list HandlerCall * ClickState :=
  let clickedObject := head intersects in
  let count := S (clickCount s) in
  let isSameObject := bool_decide (clickedObject = lastClickedObject s) in
  if Nat.eqb count 1 then
    ([], mkClickState count (Some (nextTimerId s)) clickedObject
           (scheduled s ++ [(nextTimerId s, intersects)])%list
           (S (nextTimerId s)))
  else if Nat.eqb count 2 && isSameObject then
    ([DoubleClick intersects],
     mkClickState 0 (clickTimer s) None
       (clearTimeout (clickTimer s) (scheduled s)) (nextTimerId s))
  else
    ([SingleClick intersects],
     mkClickState 0 (clickTimer s) None
       (clearTimeout (clickTimer s) (scheduled s)) (nextTimerId s)).

(** The callback given to [setTimeout], run when timer [timer] expires;
    a timer that was cleared or has run does nothing. *)
Definition timerCallback (timer : nat) (s : ClickState)
  : list HandlerCall * ClickState :=
  match List.find (fun t => Nat.eqb (fst t) timer) (scheduled s) with
  | Some (_, intersects) =>
      ([SingleClick intersects],
       mkClickState 0 (clickTimer s) None
         (clearTimeout (Some timer) (scheduled s)) (nextTimerId s))
  | None => ([], s)
  end.

(** What the event loop delivers to the listener. *)
Inductive PointerEvent : Type :=
  | Click (intersects : list Ref)
  | TimerExpires (timer : nat).

Definition handleEvent (ev : PointerEvent) (s : ClickState)
  : list HandlerCall * ClickState :=
  match ev with
  | Click intersects => handleClick intersects s
  | TimerExpires timer => timerCallback timer s
  end.

(** A sequence of events, with the handler calls it makes, in order. *)
Fixpoint handleEvents (evs : list PointerEvent) (s : ClickState)
  : list HandlerCall * ClickState :=
  match evs with
  | [] => ([], s)
  | ev :: rest =>
      let '(calls, s') := handleEvent ev s in
      let '(calls', s'') := handleEvents rest s' in
      ((calls ++ calls')%list, s'')
  end.

(** The object behind a reference, as the handlers read it. *)
Variable object : Ref -> Object3D.

(** What a handler call of DynamicInteractiveGLBModel hands to
    [onPartSelect]; [selectedPart] and [bomData] are the values that
    [setupInteractions] was called with. *)
Definition dispatch (selectedPart : option SelectedPart)
  (bomData : option BomData) (call : HandlerCall) : option SelectedPart :=
  match call with
  | SingleClick intersects => handleSingleClick bomData (object <$> intersects)
  | DoubleClick intersects =>
      handleDoubleClick selectedPart bomData (object <$> intersects)
  end.

End ClickDiscrimination.

Arguments HandlerCall : clear implicits.
Arguments ClickState : clear implicits.
Arguments PointerEvent : clear implicits.

(** [handlePartSelect] as the function that [useCallback] made in a render
    in which the selection was [closed]: it compares with that selection,
    and its updates are applied to the state at the time of the call.
    [handlePartSelect part app] is the case [closed = selectedPart app]. *)
Definition handlePartSelect_closure (closed : option SelectedPart)
  (part : option SelectedPart) (app : AppState) : AppState :=
  let next :=
    match closed, part with
    | Some current, Some p =>
        if bool_decide (Sel.id current = Sel.id p) then None else part
    | _, _ => part
    end in
  mkApp next false (searchQuery app).

(** ** Expansion state of the tree views *)

Section TreeExpansion.

Import gmap.

Local Open Scope Z_scope.

(** [useState(new Set([1]))] *)
Definition initialExpandedNodes : gset Z := {[ 1 ]}.

(** [toggleExpanded] *)
Definition toggleExpanded (nodeId : Z) (expandedNodes : gset Z) : gset Z :=
  if decide (nodeId ∈ expandedNodes)
  then expandedNodes ∖ {[ nodeId ]}
  else {[ nodeId ]} ∪ expandedNodes.

(** The record that the auto-expand effect looks up for the selection:
    the first one with the id, the reference name or the name of the
    selected part.  A missing name is one value here, so two missing names
    compare equal, as two [null]s or two [undefined]s do; a document that
    writes [null] for the missing name of one record and leaves the key
    out of another is outside this reading. *)
Definition selectedItem (sp : SelectedPart) (tree : list PartRecord)
  : option PartRecord :=
  List.find (fun item =>
               bool_decide (IdNum (Part.id item) = Sel.id sp)
               || bool_decide (Part.reference_name item = Sel.reference_name sp)
               || bool_decide (Part.name item = Sel.name sp))
            tree.

(** [expandParents]: the updates [setExpandedNodes(prev => new Set([...prev,
    item.parent_id]))] are applied in the order they are queued.  A
    [parent_id] is truthy when it is a number other than zero. *)
Fixpoint expandParents (tree : list PartRecord) (fuel : nat) (itemId : Z)
  (expandedNodes : gset Z) : option (gset Z) :=
  match fuel with
  | O => None
  | S fuel' =>
      match List.find (fun i => Z.eqb (Part.id i) itemId) tree with
      | Some item =>
          match Part.parent_id item with
          | JsNumber p =>
              if Z.eqb p 0 then Some expandedNodes
              else expandParents tree fuel' p ({[ p ]} ∪ expandedNodes)
          | _ => Some expandedNodes
          end
      | None => Some expandedNodes
      end
  end.

(** The effect that expands the ancestors of the selected part. *)
Definition autoExpand (fuel : nat) (selectedPart : option SelectedPart)
  (bomData : option BomData) (expandedNodes : gset Z) : option (gset Z) :=
  match selectedPart, bomData ≫= assembly_tree with
  | Some sp, Some tree =>
      match selectedItem sp tree with
      | Some item =>
          expanded ← expandParents tree fuel (Part.id item) expandedNodes;
          Some ({[ Part.id item ]} ∪ expanded)
      | None => Some expandedNodes
      end
  | _, _ => Some expandedNodes
  end.

(** The rows that [TreeNode] renders for a node, top down: its own row,
    and the rows of its children when it has children and is expanded. *)
Fixpoint TreeNode (expandedNodes : gset Z) (node : AssemblyNode)
  : list PartRecord :=
  match node with
  | Node item children =>
      item ::
      (if (0 <? length children)%nat && bool_decide (Part.id item ∈ expandedNodes)
       then flat_map (TreeNode expandedNodes) children
       else [])
  end.

End TreeExpansion.

(** ** Camera animation *)

Local Open Scope R_scope.

(** [Vector3.lerpVectors] *)
Definition lerpVectors (v1 v2 : Vector3) (alpha : R) : Vector3 :=
  mkVector3 (vx v1 + (vx v2 - vx v1) * alpha)
            (vy v1 + (vy v2 - vy v1) * alpha)
            (vz v1 + (vz v2 - vz v1) * alpha).

Definition easeInOutQuad (t : R) : R :=
  if Rlt_dec t 0.5 then 2 * t * t else -1 + (4 - 2 * t) * t.

(** The callback given to [useFrame]: one frame, [delta] seconds after
    the last one; the camera and the target are written, then
    [orbitControlsRef.current.update()] is called. *)
Definition useFrame (delta : R) (st : ModelState) : ModelState :=
  match cameraAnimation st, controls st with
  | Some anim, Some c =>
      let newProgress :=
        Rmin (progress anim + (delta * 1000) / duration anim) 1 in
      let easedProgress := easeInOutQuad newProgress in
      let newCameraPosition :=
        lerpVectors (startPosition anim) (endPosition anim) easedProgress in
      let newTarget :=
        lerpVectors (startTarget anim) (endTarget anim) easedProgress in
      mkModelState (scene st) (materials st) (nextMaterial st)
        (mkCamera (update c newTarget newCameraPosition) (fov (camera st)))
        (Some (set_target newTarget c))
        (if Rge_dec newProgress 1 then None
         else Some (mkCameraAnimation (startPosition anim) (endPosition anim)
                      (startTarget anim) (endTarget anim) newProgress
                      (duration anim)))
        (isInitialLoad st) (loadError st) (modelRef st)
  | _, _ => st
  end.

Local Close Scope R_scope.

(** ** Vocabulary of the further properties *)

(** The intersection lists of the clicks among some events. *)
Definition clicks {Ref : Type} (evs : list (PointerEvent Ref)) : list (list Ref) :=
  omap (fun ev => match ev with
                  | Click intersects => Some intersects
                  | TimerExpires _ => None
                  end) evs.

Definition call_intersects {Ref : Type} (c : HandlerCall Ref) : list Ref :=
  match c with SingleClick i => i | DoubleClick i => i end.

(** No click waits for its timer. *)
Definition idle {Ref : Type} (s : ClickState Ref) : Prop :=
  clickCount s = 0%nat /\ scheduled s = [] /\ lastClickedObject s = None.

(** One click waits for its timer or for a second click. *)
Definition awaiting {Ref : Type} (s : ClickState Ref) : Prop :=
  exists intersects timer,
    clickCount s = 1%nat /\ scheduled s = [(timer, intersects)] /\
    clickTimer s = Some timer /\ lastClickedObject s = head intersects.

Local Open Scope R_scope.

Definition vector_sub (a b : Vector3) : Vector3 :=
  mkVector3 (vx a - vx b) (vy a - vy b) (vz a - vz b).

(** [a.distanceTo(b)] *)
Definition distanceTo (a b : Vector3) : R := vector_length (vector_sub a b).

(** The state after a sequence of frames. *)
Definition runFrames (deltas : list R) (st : ModelState) : ModelState :=
  fold_left (fun s delta => useFrame delta s) deltas st.

Definition sum_R (l : list R) : R := fold_right Rplus 0 l.

Local Close Scope R_scope.

(** The strategies of DynamicInteractiveGLBModel that the older resolver
    has a counterpart for. *)
Definition exact_strategies (clickedName : string)
  : list (string * (PartRecord -> bool)) :=
  [ ("reference_name_exact", reference_name_exact clickedName);
    ("name_exact", name_exact clickedName) ].

Definition contains_strategies (clickedName : string)
  : list (string * (PartRecord -> bool)) :=
  [ ("reference_name_contains", reference_name_contains clickedName);
    ("name_contains", name_contains clickedName) ].

(** What the traversal at load makes of the properties of a material that
    a mesh wears: [envMapIntensity] and [roughness] of a standard or a
    physical material. *)
Definition enhanceMaterial (mat : Material) : Material :=
  if isMeshStandardMaterial mat || isMeshPhysicalMaterial mat then
    let lit := if gt_number (metalness mat) 0.5%R
               then set_envMapIntensity (Some 1%R) mat else mat in
    if strict_eq_number (roughness mat) 0%R
    then set_roughness (Some 0.1%R) lit else lit
  else mat.

(** Object [o] is a mesh whose material is [m]. *)
Definition wears (m : MaterialRef) (o : Object3D) : bool :=
  Obj.isMesh o && bool_decide (Obj.material o = Some m).

(** The number of meshes of a scene that wear material [m]. *)
Definition wearers (objects : list Object3D) (m : MaterialRef) : nat :=
  length (List.filter (wears m) objects).

(** ** Sample data *)

Definition sample_records : list PartRecord :=
  [ Part.mk 1 JsNull (Some "ASSY") None None true true;
    Part.mk 2 (JsNumber 1) (Some "Shaft") (Some "Shaft-01") None false false;
    Part.mk 3 (JsNumber 1) (Some "Shaft") (Some "Shaft-02") None false false;
    Part.mk 4 (JsNumber 9) (Some "Stray") None None false false ].

Definition sample_bom : BomData :=
  mkBom (Some "assy.step") 3 1 None (Some sample_records).

(** A document whose root record carries no [parent_id] key at all. *)
Definition absent_parent_records : list PartRecord :=
  [ Part.mk 1 JsUndefined (Some "ASSY") None None true true;
    Part.mk 2 (JsNumber 1) (Some "Shaft") (Some "Shaft-01") None false false ].

Definition absent_parent_bom : BomData :=
  mkBom (Some "assy.step") 1 1 None (Some absent_parent_records).

(** A document that holds just the given records. *)
Definition bom_of (tree : list PartRecord) : BomData :=
  mkBom None 0 0 None (Some tree).

(** The three substring strategies of [handleSingleClick]. *)
Definition substring_strategies (clickedName : string)
  : list (string * (PartRecord -> bool)) :=
  [ ("reference_name_contains", reference_name_contains clickedName);
    ("name_contains", name_contains clickedName);
    ("loose_match", loose_match clickedName) ].


Definition housing_part : SelectedPart :=
  Sel.mk (IdNum 12) (Some "Housing") (Some "H-1") (JsNumber 1) None false false
    None (Some "bom_tree") None false.

Local Open Scope R_scope.

Definition unit_box : Box3 := mkBox3 (mkVector3 0 0 0) (mkVector3 10 10 10).

Definition no_userData : UserData := mkUserData None None None None None.

Definition plain_object (name : string) (isMesh : bool)
  (material : option MaterialRef) : Object3D :=
  Obj.mk "0a1b2c3d-0000" name isMesh material false false no_userData unit_box.

Local Close Scope R_scope.

(** A scene in which one mesh holds the reference name of [housing_part]
    inside its name and a later mesh is named by its decimal id. *)
Definition id_named_scene : list Object3D :=
  [ plain_object "Scene" false None;
    plain_object "H-10" true (Some 0%nat);
    plain_object "12" true (Some 1%nat) ].

Local Open Scope R_scope.

Definition grey : Color := mkColor 0.5 0.5 0.5.

Definition black : Color := mkColor 0 0 0.

(** A Phong material: it has a colour and an emissive colour and is
    neither a standard nor a physical material. *)
Definition painted : Material :=
  mkMaterial false false None None None
    (Some grey) (Some black) (Some 1) 0%nat.

Definition sample_setHex (hex : Z) : Color :=
  mkColor (IZR (Z.land (Z.shiftr hex 16) 255) / 255)
          (IZR (Z.land (Z.shiftr hex 8) 255) / 255)
          (IZR (Z.land hex 255) / 255).

(** A freshly loaded scene: a root and two meshes that share a material. *)
Definition shared_material_scene : list Object3D :=
  [ plain_object "Scene" false None;
    plain_object "Shaft-01" true (Some 0%nat);
    plain_object "Shaft-02" true (Some 0%nat) ].

(** Controls for the samples: their [update] keeps the camera between 1
    and 500 from the target, on the ray from the target through it. *)
Definition clampDistance (around position : Vector3) : Vector3 :=
  let offset := vector_sub position around in
  let radius := Rmax 1 (Rmin 500 (vector_length offset)) in
  vector_add around (multiplyScalar (normalize offset) radius).

Definition controls_at_origin : OrbitControls :=
  mkOrbitControls (mkVector3 0 0 0) clampDistance.

Definition fresh_state : ModelState :=
  mkModelState shared_material_scene (fun _ => painted) 1%nat
    (mkCamera (mkVector3 15 15 15) 60) (Some controls_at_origin) None
    true None true.

Definition shaft_part : SelectedPart :=
  Sel.mk (IdNum 2) (Some "Shaft") (Some "Shaft-01") (JsNumber 1) None false false
    (Some "Shaft-01") (Some "bom_tree") None false.

Local Close Scope R_scope.

(** A part that only its [name] identifies, below two assemblies. *)
Definition motor_part : PartRecord :=
  Part.mk 7 (JsNumber 5) (Some "Stepper Motor") None None false false.

Definition motor_hierarchy : AssemblyNode :=
  Node (Part.mk 1 JsNull (Some "ASSY") None None true true)
    [ Node (Part.mk 5 (JsNumber 1) (Some "Drive") (Some "Drive-01") None true false)
        [ Node motor_part [] ];
      Node (Part.mk 6 (JsNumber 1) (Some "Cover") (Some "Cover-01") None false false)
        [] ].

(** A document with two records that lack a parent. *)
Definition two_root_records : list PartRecord :=
  [ Part.mk 1 JsNull (Some "ASSY-A") None None true true;
    Part.mk 2 (JsNumber 1) (Some "Pin") (Some "Pin-01") None false false;
    Part.mk 3 JsNull (Some "ASSY-B") None None true true;
    Part.mk 4 (JsNumber 3) (Some "Cap") (Some "Cap-01") None false false ].

(** A document in which a record carries the id of the root and names
    that id as its parent. *)
Definition self_parent_records : list PartRecord :=
  [ Part.mk 1 JsNull (Some "ASSY") None None true true;
    Part.mk 1 (JsNumber 1) (Some "Loop") None None false false ].

(** A record that is its own parent. *)
Definition looping_part : PartRecord :=
  Part.mk 5 (JsNumber 5) (Some "Loop") (Some "Loop-01") None false false.

(** The hierarchy of [sample_records]. *)
Definition sample_hierarchy : AssemblyNode :=
  Node (Part.mk 1 JsNull (Some "ASSY") None None true true)
    [ Node (Part.mk 2 (JsNumber 1) (Some "Shaft") (Some "Shaft-01") None false false) [];
      Node (Part.mk 3 (JsNumber 1) (Some "Shaft") (Some "Shaft-02") None false false) [] ].

Local Open Scope R_scope.

(** A state in which the camera is on its way. *)
Definition moving_animation : CameraAnimation :=
  mkCameraAnimation (mkVector3 15 15 15) (mkVector3 30 15 30)
    (mkVector3 0 0 0) (mkVector3 5 5 5) 0 1000.

Definition moving_state : ModelState :=
  mkModelState shared_material_scene (fun _ => painted) 1%nat
    (mkCamera (mkVector3 15 15 15) 60) (Some controls_at_origin)
    (Some moving_animation) false None true.

(** A basic material: a colour and no emissive colour. *)
Definition unlit : Material :=
  mkMaterial false false None None None (Some grey) None None 0%nat.

Definition lamp_state : ModelState :=
  mkModelState
    [ plain_object "Scene" false None; plain_object "Lamp" true (Some 0%nat) ]
    (fun _ => unlit) 1%nat
    (mkCamera (mkVector3 15 15 15) 60) (Some controls_at_origin) None
    true None true.

Definition lamp_part : SelectedPart :=
  Sel.mk (IdNum 9) (Some "Lamp") None (JsNumber 1) None false false
    (Some "Lamp") (Some "bom_tree") None false.

(** A scene in which a group carries the name of the mesh below it. *)
Definition grouped_state : ModelState :=
  mkModelState
    [ plain_object "Scene" false None;
      plain_object "Shaft-01" false None;
      plain_object "Shaft-01" true (Some 0%nat) ]
    (fun _ => painted) 1%nat
    (mkCamera (mkVector3 15 15 15) 60) (Some controls_at_origin) None
    true None true.

(** The first mesh of [fresh_state] as the load leaves it. *)
Definition loaded_shaft : Object3D :=
  Obj.mk "0a1b2c3d-0000" "Shaft-01" true (Some 0%nat) true true
    (mkUserData (Some 0%nat) (Some grey) (Some black) (Some 1) None) unit_box.

(** The look of the highlight on a clone of [painted]. *)
Definition highlight_red : Material :=
  mkMaterial false false None None None
    (Some (sample_setHex 0xff4444)) (Some (sample_setHex 0x441100))
    (Some 0.3) 0%nat.

(** A loaded model in mid-flight: the first shaft wears a highlight clone,
    the camera has left the position of the load and an animation is
    running. *)
Definition highlit_state : ModelState :=
  mkModelState
    [ plain_object "Scene" false None;
      Obj.mk "0a1b2c3d-0000" "Shaft-01" true (Some 1%nat) true true
        (mkUserData (Some 0%nat) (Some grey) (Some black) (Some 1) None)
        unit_box;
      Obj.mk "0a1b2c3d-0000" "Shaft-02" true (Some 0%nat) true true
        (mkUserData (Some 0%nat) (Some grey) (Some black) (Some 1) None)
        unit_box ]
    (fun k => if Nat.eqb k 1 then highlight_red else painted) 2%nat
    (mkCamera (mkVector3 22 15 22) 60)
    (Some (set_target (mkVector3 2 2 2) controls_at_origin))
    (Some (mkCameraAnimation (mkVector3 15 15 15) (mkVector3 30 15 30)
             (mkVector3 0 0 0) (mkVector3 5 5 5) 0.5 1000))
    false None true.

(** A polished metal: a standard material without roughness, worn by
    the two meshes of the scene. *)
Definition polished : Material :=
  mkMaterial true false (Some 0.9) (Some 0) None
    (Some grey) (Some black) (Some 1) 0%nat.

Definition polished_state : ModelState :=
  mkModelState shared_material_scene (fun _ => polished) 1%nat
    (mkCamera (mkVector3 15 15 15) 60) (Some controls_at_origin) None
    true None true.

Local Close Scope R_scope.

(** * Properties *)

Local Open Scope list_scope.

(** ** Tree Builder *)

Section TreeBuilderFacts.

Variable tree : list PartRecord.
Hypothesis unique_ids : NoDup (Part.id <$> tree).

Lemma same_id_same_record x y :
  x ∈ tree -> y ∈ tree -> Part.id x = Part.id y -> x = y.
Proof using unique_ids.
  clear -unique_ids. revert unique_ids. induction tree as [|a l IH]; intros Hnd Hx Hy Hid.
  - inversion Hx.
  - rewrite fmap_cons in Hnd. apply list.NoDup_cons in Hnd as [Hnotin Hnd].
    apply elem_of_cons in Hx as [->|Hx]; apply elem_of_cons in Hy as [->|Hy].
    + reflexivity.
    + exfalso. apply Hnotin. rewrite Hid. apply list_elem_of_fmap. eauto.
    + exfalso. apply Hnotin. rewrite <- Hid. apply list_elem_of_fmap. eauto.
    + auto.
Qed.

Lemma records_NoDup : NoDup tree.
Proof using unique_ids. exact (NoDup_fmap_1 _ _ unique_ids). Qed.

Lemma ancestry_elem l : ancestry tree l -> forall x, x ∈ l -> x ∈ tree.
Proof.
  induction 1 as [r Hr Hp | r p l Hr Hp Hl IH]; intros x Hx.
  - apply list_elem_of_singleton in Hx as ->. exact Hr.
  - apply elem_of_cons in Hx as [->|Hx]; auto.
Qed.

Lemma ancestry_suffix l1 l2 :
  l2 <> [] -> ancestry tree (l1 ++ l2) -> ancestry tree l2.
Proof.
  intros Hne. induction l1 as [|a l1 IH]; simpl; intros H; [exact H|].
  apply IH. inversion H as [r Hr Hp Heq | r p l Hr Hp Hl [Ha Heq]].
  - destruct l1, l2; simpl in *; congruence.
  - exact Hl.
Qed.

Lemma ancestry_deterministic r l l' :
  ancestry tree (r :: l) -> ancestry tree (r :: l') -> l = l'.
Proof using unique_ids.
  revert r l'. induction l as [|p l IH]; intros r l' H1 H2.
  - inversion H1; subst. inversion H2; subst; [reflexivity | congruence].
  - inversion H1 as [| ? ? ? Hr Hp Hl]; subst.
    inversion H2 as [| ? q l2 Hr' Hq Hl2]; subst; [congruence|].
    assert (p = q) as <-.
    { apply same_id_same_record.
      - eapply ancestry_elem; [exact Hl | left].
      - eapply ancestry_elem; [exact Hl2 | left].
      - congruence. }
    f_equal. eauto.
Qed.

Lemma ancestry_NoDup l : ancestry tree l -> NoDup l.
Proof using unique_ids.
  induction 1 as [r Hr Hp | r p l Hr Hp Hl IH].
  - apply NoDup_singleton.
  - apply list.NoDup_cons. split; [|exact IH].
    intros Hin. apply list_elem_of_split in Hin as (l1 & l2 & Heq).
    assert (ancestry tree (r :: l2)) as Hsuf.
    { apply (ancestry_suffix l1); [discriminate|]. rewrite <- Heq. exact Hl. }
    pose proof (ancestry_deterministic _ _ _ Hsuf
                  (ancestry_child tree r p l Hr Hp Hl)) as Hdet.
    apply (f_equal length) in Heq. rewrite Hdet in Heq.
    rewrite length_app in Heq. simpl in Heq. lia.
Qed.

Lemma ancestry_length l : ancestry tree l -> (length l <= length tree)%nat.
Proof using unique_ids.
  intros H. apply submseteq_length, NoDup_submseteq.
  - exact (ancestry_NoDup l H).
  - exact (ancestry_elem l H).
Qed.

Lemma ancestry_extend ctx c :
  ctx = [] \/ ancestry tree ctx ->
  c ∈ tree -> Part.parent_id c = parentRef ctx -> ancestry tree (c :: ctx).
Proof.
  intros [-> | Hctx] Hc Hp.
  - apply ancestry_root; assumption.
  - destruct ctx as [|p l]; [inversion Hctx|].
    apply ancestry_child; assumption.
Qed.

Lemma ancestry_head_parent c ctx :
  ancestry tree (c :: ctx) -> c ∈ tree /\ Part.parent_id c = parentRef ctx.
Proof. inversion 1; subst; simpl; auto. Qed.

Lemma buildTree_fuel_mono fuel : forall fuel' parentId forest,
  buildTree tree fuel parentId = Some forest -> (fuel <= fuel')%nat ->
  buildTree tree fuel' parentId = Some forest.
Proof.
  induction fuel as [|fuel IH]; intros fuel' parentId forest Hrun Hle;
    [discriminate|].
  destruct fuel' as [|fuel']; [lia|]. simpl in *.
  apply mapM_Some in Hrun. apply mapM_Some.
  revert Hrun. apply Forall2_impl. intros item n Hn. simpl in *.
  destruct (buildTree tree fuel (JsNumber (Part.id item))) as [children|] eqn:Hc;
    [|discriminate].
  rewrite (IH fuel' _ _ Hc); [exact Hn | lia].
Qed.

Lemma elem_of_flat_map {A B} (f : A -> list B) (l : list A) (y : B) :
  y ∈ flat_map f l <-> exists x, x ∈ l /\ y ∈ f x.
Proof.
  rewrite list_elem_of_In, in_flat_map.
  split; intros (x & Hx & Hy); exists x; split;
    first [by apply list_elem_of_In | by apply list_elem_of_In in Hx
          | by apply list_elem_of_In in Hy].
Qed.

Lemma NoDup_flat_map_keys {A B K} (f : A -> list B) (key : A -> K) l :
  NoDup (key <$> l) ->
  (forall a, a ∈ l -> NoDup (f a)) ->
  (forall a b x, a ∈ l -> b ∈ l -> x ∈ f a -> x ∈ f b -> key a = key b) ->
  NoDup (flat_map f l).
Proof.
  induction l as [|a l IH]; simpl; intros Hk Hf Hdisj; [constructor|].
  apply list.NoDup_cons in Hk as [Hnotin Hk].
  apply list.NoDup_app. split; [|split].
  - apply Hf. left.
  - intros x Hxa Hxl. apply elem_of_flat_map in Hxl as (b & Hb & Hxb).
    apply Hnotin. rewrite (Hdisj a b x); [| left | by right | done | done].
    apply list_elem_of_fmap. eauto.
  - apply IH; [done | |].
    + intros b Hb. apply Hf. by right.
    + intros b c x Hb Hc. apply Hdisj; by right.
Qed.

Lemma well_linked_node parentId item children :
  well_linked parentId (Node item children) <->
  Part.parent_id item = parentId /\
  Forall (well_linked (JsNumber (Part.id item))) children.
Proof.
  simpl. apply and_iff_compat_l.
  induction children as [|c cs IH]; simpl.
  - split; [constructor | done].
  - split.
    + intros [Hc Hcs]. constructor; [exact Hc | by apply IH].
    + intros H. inversion H as [|? ? Hc Hcs]; subst.
      split; [exact Hc | by apply IH].
Qed.

(** A record of the subtree built for the child [c] has an ancestry that
    passes through [c]. *)
Lemma flatten_through_child ctx c F x :
  ancestry tree (c :: ctx) ->
  (forall y, y ∈ flat_map flatten F <->
             exists l', ancestry tree (y :: l' ++ c :: ctx)) ->
  x ∈ flatten (Node c F) ->
  exists k, ancestry tree ((k ++ [c]) ++ ctx) /\ head (k ++ [c]) = Some x.
Proof.
  intros Hc HF Hx. simpl in Hx. apply elem_of_cons in Hx as [-> | Hx].
  - exists []. simpl. auto.
  - apply HF in Hx as (l' & Hl'). exists (x :: l'). simpl.
    rewrite <- app_assoc. simpl. auto.
Qed.

Lemma Forall2_elem_of_l {A B} (R : A -> B -> Prop) l k x :
  Forall2 R l k -> x ∈ l -> exists y, y ∈ k /\ R x y.
Proof.
  induction 1 as [|a b l k Hab _ IH]; intros Hx; [inversion Hx|].
  apply elem_of_cons in Hx as [-> | Hx].
  - exists b. split; [left | exact Hab].
  - destruct (IH Hx) as (y & Hy & Hxy). exists y. split; [by right | exact Hxy].
Qed.

Lemma Forall2_elem_of_r {A B} (R : A -> B -> Prop) l k y :
  Forall2 R l k -> y ∈ k -> exists x, x ∈ l /\ R x y.
Proof.
  induction 1 as [|a b l k Hab _ IH]; intros Hy; [inversion Hy|].
  apply elem_of_cons in Hy as [-> | Hy].
  - exists a. split; [left | exact Hab].
  - destruct (IH Hy) as (x & Hx & Hxy). exists x. split; [by right | exact Hxy].
Qed.

Lemma forest_of_children ctx forest :
  ctx = [] \/ ancestry tree ctx ->
  Forall2 (fun c n => exists F, n = Node c F /\ forest_below tree (c :: ctx) F)
          (filter (fun item => Part.parent_id item = parentRef ctx) tree)
          forest ->
  forest_below tree ctx forest.
Proof using unique_ids.
  intros Hctx HF2.
  set (cs := filter (fun item => Part.parent_id item = parentRef ctx) tree) in *.
  assert (Hcs : forall c, c ∈ cs <-> Part.parent_id c = parentRef ctx /\ c ∈ tree).
  { intros c. unfold cs. rewrite list_elem_of_filter. reflexivity. }
  assert (Hitems : node_item <$> forest = cs).
  { clear Hcs. induction HF2 as [|c n l k (F & -> & _) _ IH]; [done|].
    rewrite fmap_cons, IH. done. }
  assert (Hchild : forall c, c ∈ cs -> ancestry tree (c :: ctx)).
  { intros c Hc. apply Hcs in Hc as [Hp Hc]. by apply ancestry_extend. }
  split; [exact Hitems|]. split; [|split].
  - (* membership *)
    intros x. rewrite elem_of_flat_map. split.
    + intros (n & Hn & Hx).
      destruct (Forall2_elem_of_r _ _ _ _ HF2 Hn) as (c & Hc & F & -> & HF).
      destruct (flatten_through_child ctx c F x (Hchild c Hc)
                  (proj1 (proj2 HF)) Hx) as (k & Hk & Hhd).
      destruct k as [|y k]; simpl in Hhd; injection Hhd as ->.
      * exists []. exact Hk.
      * exists (k ++ [c]). exact Hk.
    + intros (l' & Hl').
      destruct l' as [|y l' _] using rev_ind.
      * simpl in Hl'. apply ancestry_head_parent in Hl' as [Hx Hp].
        assert (x ∈ cs) as Hxc by (apply Hcs; auto).
        destruct (Forall2_elem_of_l _ _ _ _ HF2 Hxc) as (n & Hn & F & -> & _).
        exists (Node x F). split; [exact Hn | left].
      * assert (ancestry tree (y :: ctx)) as Hy.
        { apply (ancestry_suffix (x :: l')); [discriminate|].
          simpl. rewrite <- app_assoc in Hl'. exact Hl'. }
        apply ancestry_head_parent in Hy as [Hy Hp].
        assert (y ∈ cs) as Hyc by (apply Hcs; auto).
        destruct (Forall2_elem_of_l _ _ _ _ HF2 Hyc) as (n & Hn & F & -> & HF).
        exists (Node y F). split; [exact Hn|]. simpl. right.
        apply (proj1 (proj2 HF)). exists l'.
        rewrite <- app_assoc in Hl'. exact Hl'.
  - (* no record twice *)
    apply (NoDup_flat_map_keys flatten node_item).
    + rewrite Hitems. apply list.NoDup_filter, records_NoDup.
    + intros n Hn.
      destruct (Forall2_elem_of_r _ _ _ _ HF2 Hn) as (c & Hc & F & -> & HF).
      simpl. apply list.NoDup_cons. split; [|apply HF].
      intros Hin. apply (proj1 (proj2 HF)) in Hin as (l' & Hl').
      apply ancestry_NoDup, list.NoDup_cons in Hl' as [Hnotin _].
      apply Hnotin. apply elem_of_app. right. left.
    + intros n1 n2 x Hn1 Hn2 Hx1 Hx2.
      destruct (Forall2_elem_of_r _ _ _ _ HF2 Hn1) as (c1 & Hc1 & F1 & -> & HF1).
      destruct (Forall2_elem_of_r _ _ _ _ HF2 Hn2) as (c2 & Hc2 & F2 & -> & HF2').
      destruct (flatten_through_child ctx c1 F1 x (Hchild c1 Hc1)
                  (proj1 (proj2 HF1)) Hx1) as (k1 & Hk1 & Hhd1).
      destruct (flatten_through_child ctx c2 F2 x (Hchild c2 Hc2)
                  (proj1 (proj2 HF2')) Hx2) as (k2 & Hk2 & Hhd2).
      apply head_Some in Hhd1 as (t1 & Ht1). apply head_Some in Hhd2 as (t2 & Ht2).
      rewrite Ht1 in Hk1. rewrite Ht2 in Hk2. simpl in Hk1, Hk2.
      pose proof (ancestry_deterministic _ _ _ Hk1 Hk2) as Hdet.
      apply app_inv_tail in Hdet. subst t2. rewrite <- Ht2 in Ht1.
      apply app_inj_tail in Ht1 as [_ Heq]. simpl. exact Heq.
  - (* links *)
    apply list.Forall_forall. intros n Hn.
    destruct (Forall2_elem_of_r _ _ _ _ HF2 Hn) as (c & Hc & F & -> & HF).
    apply well_linked_node. split.
    + apply Hcs in Hc. tauto.
    + apply HF.
Qed.

(** With fuel beyond the number of records that can still follow the
    ancestors [ctx], the recursion returns, and what it returns is the
    forest below [ctx]. *)
Lemma buildTree_below fuel : forall ctx,
  ctx = [] \/ ancestry tree ctx ->
  (length tree < fuel + length ctx)%nat ->
  exists forest,
    buildTree tree fuel (parentRef ctx) = Some forest /\
    forest_below tree ctx forest.
Proof using unique_ids.
  induction fuel as [|fuel IH]; intros ctx Hctx Hlen.
  - exfalso. destruct Hctx as [-> | Hctx]; simpl in Hlen; [lia|].
    apply ancestry_length in Hctx. lia.
  - simpl.
    set (cs := filter (fun item => Part.parent_id item = parentRef ctx) tree).
    assert (Hall : Forall (fun c => exists n,
              (buildTree tree fuel (JsNumber (Part.id c)) ≫=
                 (fun children => Some (Node c children))) = Some n /\
              exists F, n = Node c F /\ forest_below tree (c :: ctx) F) cs).
    { apply list.Forall_forall. intros c Hc.
      unfold cs in Hc. rewrite list_elem_of_filter in Hc. destruct Hc as [Hp Hc].
      destruct (IH (c :: ctx)) as (F & Hrun & HF).
      - right. by apply ancestry_extend.
      - simpl. lia.
      - simpl in Hrun. rewrite Hrun. simpl. eauto. }
    apply Forall_exists_Forall2_l in Hall as (forest & HF2).
    exists forest. split.
    + apply mapM_Some. revert HF2. apply Forall2_impl. intros c n [Hn _]. exact Hn.
    + apply forest_of_children; [exact Hctx|].
      revert HF2. apply Forall2_impl. intros c n [_ Hn]. exact Hn.
Qed.

End TreeBuilderFacts.

Lemma ancestry_tail_has_parent tree x l' p :
  ancestry tree (x :: l' ++ [p]) -> exists n, Part.parent_id x = JsNumber n.
Proof.
  inversion 1 as [r Hr Hp Heq | r q l Hr Hp Hl Heq]; subst.
  - destruct l'; discriminate.
  - eauto.
Qed.

(** C1 (as amended): for a record list with unique ids in which exactly
    one record has [parent_id] null, [buildTree] returns (with any fuel
    beyond the number of records) a single tree; its root is that record
    and no other node has a null parent; no record occurs twice; the
    records of the tree are exactly the reachable ones, so their number is
    the input length minus the number of unreachable records, and the tree
    holds every input record exactly once when all are reachable. *)
Theorem buildTree_single_rooted_hierarchy
  (bom : BomData) (records : list PartRecord) (root : PartRecord) :
  assembly_tree bom = Some records ->
  NoDup (Part.id <$> records) ->
  filter (fun r => Part.parent_id r = JsNull) records = [root] ->
  exists (t : AssemblyNode) (unreachable : list PartRecord),
    (forall fuel, (length records < fuel)%nat ->
       buildTree records fuel JsNull = Some [t] /\
       hierarchicalData fuel (Some bom) = Some (Some t)) /\
    node_item t = root /\
    well_linked JsNull t /\
    filter (fun r => Part.parent_id r = JsNull) (flatten t) = [root] /\
    NoDup (flatten t) /\
    (forall r, r ∈ flatten t <-> reachable records r) /\
    records ≡ₚ flatten t ++ unreachable /\
    (forall r, r ∈ unreachable -> ~ reachable records r) /\
    length (flatten t) = (length records - length unreachable)%nat /\
    ((forall r, r ∈ records -> reachable records r) -> flatten t ≡ₚ records).
Proof.
  intros Hbom Huniq Hroot.
  destruct (buildTree_below records Huniq (S (length records)) [])
    as (forest & Hrun & Hitems & Hmem & Hnd & Hlinks); [by left | simpl; lia |].
  change (parentRef []) with JsNull in Hrun.
  simpl in Hitems. rewrite Hroot in Hitems.
  destruct forest as [|t [|t' forest]]; try discriminate.
  injection Hitems as Hitem.
  simpl in Hmem, Hnd. rewrite app_nil_r in Hnd.
  assert (Hreach : forall r, r ∈ flatten t <-> reachable records r).
  { intros r. specialize (Hmem r). rewrite app_nil_r in Hmem.
    rewrite Hmem. unfold reachable. split; intros [l Hl]; exists l.
    - by rewrite app_nil_r in Hl.
    - by rewrite app_nil_r. }
  assert (Hsub : flatten t ⊆+ records).
  { apply NoDup_submseteq; [exact Hnd|]. intros x Hx.
    apply Hreach in Hx as [l Hl]. eapply ancestry_elem; [exact Hl | left]. }
  destruct (submseteq_Permutation _ _ Hsub) as [unreachable Hperm].
  assert (Hrec : NoDup records) by exact (records_NoDup records Huniq).
  assert (Hun : forall r, r ∈ unreachable -> ~ reachable records r).
  { intros r Hr Hre. apply Hreach in Hre.
    rewrite Hperm in Hrec. apply list.NoDup_app in Hrec as (_ & Hdisj & _).
    exact (Hdisj r Hre Hr). }
  exists t, unreachable. repeat split.
  - eapply buildTree_fuel_mono; [exact Hrun | lia].
  - unfold hierarchicalData. rewrite Hbom.
    rewrite (buildTree_fuel_mono records _ fuel _ _ Hrun); [reflexivity | lia].
  - exact Hitem.
  - by inversion Hlinks.
  - destruct t as [item F]. simpl in *. subst item.
    assert (Part.parent_id root = JsNull) as Hnull.
    { assert (root ∈ filter (fun r => Part.parent_id r = JsNull) records) as Hin
        by (rewrite Hroot; left).
      rewrite list_elem_of_filter in Hin. tauto. }
    rewrite filter_cons_True by exact Hnull. f_equal.
    assert (Forall (fun r => ~ Part.parent_id r = JsNull) (flat_map flatten F)) as Hno.
    { apply list.Forall_forall. intros x Hx Hxn.
      assert (x ∈ root :: flat_map flatten F) as Hx' by (by right).
      apply list.NoDup_cons in Hnd as [Hnotin _].
      specialize (Hmem x). rewrite app_nil_r in Hmem.
      apply Hmem in Hx' as (l' & Hl'). rewrite app_nil_r in Hl'.
      destruct l' as [|y l' _] using rev_ind.
      - apply ancestry_head_parent in Hl' as [Hx' _].
        assert (x ∈ filter (fun r => Part.parent_id r = JsNull) records) as Hin
          by (rewrite list_elem_of_filter; auto).
        rewrite Hroot in Hin. apply list_elem_of_singleton in Hin. by subst.
      - apply ancestry_tail_has_parent in Hl' as [n Hn]. congruence. }
    clear -Hno. induction Hno as [|x l Hx _ IH]; [done|].
    by rewrite filter_cons_False.
  - exact Hnd.
  - apply Hreach.
  - apply Hreach.
  - exact Hperm.
  - exact Hun.
  - apply Permutation_length in Hperm. rewrite length_app in Hperm. lia.
  - intros Hall. destruct unreachable as [|u us].
    + by rewrite app_nil_r in Hperm.
    + exfalso. apply (Hun u); [left|]. apply Hall. rewrite Hperm.
      apply elem_of_app. right. left.
Qed.

Lemma buildTree_single_rooted_hierarchy_witness :
  exists (t : AssemblyNode) (unreachable : list PartRecord),
    (forall fuel, (length sample_records < fuel)%nat ->
       buildTree sample_records fuel JsNull = Some [t] /\
       hierarchicalData fuel (Some sample_bom) = Some (Some t)) /\
    node_item t = Part.mk 1 JsNull (Some "ASSY") None None true true /\
    well_linked JsNull t /\
    filter (fun r => Part.parent_id r = JsNull) (flatten t)
      = [Part.mk 1 JsNull (Some "ASSY") None None true true] /\
    NoDup (flatten t) /\
    (forall r, r ∈ flatten t <-> reachable sample_records r) /\
    sample_records ≡ₚ flatten t ++ unreachable /\
    (forall r, r ∈ unreachable -> ~ reachable sample_records r) /\
    length (flatten t) = (length sample_records - length unreachable)%nat /\
    ((forall r, r ∈ sample_records -> reachable sample_records r) ->
     flatten t ≡ₚ sample_records).
Proof.
  apply (buildTree_single_rooted_hierarchy sample_bom sample_records).
  - reflexivity.
  - apply (bool_decide_unpack _). vm_compute. exact I.
  - reflexivity.
Defined.

(** C1 (as stated) fails: the only record that lacks a parent has no
    [parent_id] key, the strict comparison with [null] does not pick it
    up, and the hierarchy is [null] whatever the fuel. *)
Lemma buildTree_absent_parent_counterexample :
  NoDup (Part.id <$> absent_parent_records) /\
  length (filter (fun r => lacks_parent r = true) absent_parent_records) = 1%nat /\
  (forall fuel, hierarchicalData (S fuel) (Some absent_parent_bom) = Some None) /\
  ~ (exists fuel t, hierarchicalData fuel (Some absent_parent_bom) = Some (Some t)).
Proof.
  split; [apply (bool_decide_unpack _); vm_compute; exact I|].
  split; [reflexivity|]. split; [reflexivity|].
  intros (fuel & t & H). destruct fuel; discriminate H.
Qed.

(** ** Search Filter *)

Lemma AssemblyNode_nested_ind (P : AssemblyNode -> Prop) :
  (forall item children, Forall P children -> P (Node item children)) ->
  forall n, P n.
Proof.
  intros step. fix IH 1. intros [item children]. apply step.
  induction children as [|c cs IHcs]; constructor; [apply IH | exact IHcs].
Qed.

Lemma filterNode_unfold test item children :
  filterNode test (Node item children) =
  if (test item || (0 <? length (omap (filterNode test) children))%nat)%bool
  then Some (Node item (omap (filterNode test) children))
  else None.
Proof. reflexivity. Qed.

Lemma omap_nonempty {A B} (f : A -> option B) (l : list A) :
  (0 <? length (omap f l))%nat = true <-> exists x y, x ∈ l /\ f x = Some y.
Proof.
  rewrite Nat.ltb_lt. split.
  - intros Hlen. destruct (omap f l) as [|y k] eqn:Hk; [simpl in Hlen; lia|].
    assert (y ∈ omap f l) as Hy by (rewrite Hk; left).
    apply list_elem_of_omap in Hy as (x & Hx & Hfx). eauto.
  - intros (x & y & Hx & Hfx).
    assert (y ∈ omap f l) as Hy by (apply list_elem_of_omap; eauto).
    destruct (omap f l); [inversion Hy | simpl; lia].
Qed.

Lemma filterNode_Some_iff test : forall node,
  is_Some (filterNode test node) <->
  exists r, r ∈ flatten node /\ test r = true.
Proof.
  induction node as [item children IH] using AssemblyNode_nested_ind.
  rewrite filterNode_unfold.
  destruct (test item) eqn:Hitem; simpl.
  - split; [|eauto]. intros _. exists item. split; [left | exact Hitem].
  - destruct (0 <? length (omap (filterNode test) children))%nat eqn:Hlen.
    + split; [|eauto]. intros _.
      apply omap_nonempty in Hlen as (c & c' & Hc & Hfc).
      rewrite list.Forall_forall in IH.
      destruct (proj1 (IH c Hc)) as (r & Hr & Hm); [eauto|].
      exists r. split; [|exact Hm]. right. apply elem_of_flat_map. eauto.
    + split; [intros [? ?]; discriminate|].
      intros (r & Hr & Hm). exfalso.
      apply elem_of_cons in Hr as [-> | Hr]; [congruence|].
      apply elem_of_flat_map in Hr as (c & Hc & Hr).
      rewrite list.Forall_forall in IH.
      destruct (proj2 (IH c Hc)) as [c' Hc']; [eauto|].
      assert ((0 <? length (omap (filterNode test) children))%nat = true)
        as Hpos by (apply omap_nonempty; eauto).
      congruence.
Qed.

Lemma filterNode_keeps_path test : forall node p r,
  path_in node p -> list.last p = Some r -> test r = true ->
  exists node', filterNode test node = Some node' /\ path_in node' p.
Proof.
  induction node as [item children IH] using AssemblyNode_nested_ind.
  intros p r Hpath Hlast Hm. rewrite filterNode_unfold.
  inversion Hpath as [? ? | ? ? c p' Hc Hp']; subst.
  - simpl in Hlast. injection Hlast as <-. rewrite Hm. simpl.
    eexists. split; [reflexivity | constructor].
  - rewrite list.Forall_forall in IH.
    assert (list.last p' = Some r) as Hlast'.
    { destruct p' as [|x p'']; [inversion Hp' | exact Hlast]. }
    destruct (IH c Hc p' r Hp' Hlast' Hm) as (c' & Hfc & Hpc).
    assert ((0 <? length (omap (filterNode test) children))%nat = true)
      as Hpos by (apply omap_nonempty; eauto).
    rewrite Hpos, orb_true_r.
    eexists. split; [reflexivity|].
    apply path_down with c'; [|exact Hpc].
    apply list_elem_of_omap. eauto.
Qed.

Lemma filterNode_result_subnodes test : forall node node',
  filterNode test node = Some node' ->
  node_item node' = node_item node /\
  forall m, m ∈ subnodes node' -> exists r, r ∈ flatten m /\ test r = true.
Proof.
  induction node as [item children IH] using AssemblyNode_nested_ind.
  intros node' Hf.
  assert (is_Some (filterNode test (Node item children))) as Hsome by eauto.
  rewrite filterNode_unfold in Hf.
  destruct (test item || _)%bool eqn:Hkeep; [|discriminate].
  injection Hf as <-. split; [reflexivity|].
  intros m Hm. simpl in Hm. apply elem_of_cons in Hm as [-> | Hm].
  - apply filterNode_Some_iff in Hsome as (r & Hr & Hmatch).
    apply orb_true_iff in Hkeep as [Hitem | Hlen].
    + exists item. split; [left | exact Hitem].
    + apply omap_nonempty in Hlen as (c & c' & Hc & Hfc).
      rewrite list.Forall_forall in IH.
      destruct (IH c Hc c' Hfc) as [_ Hsub].
      destruct (Hsub c') as (r' & Hr' & Hm'); [destruct c'; left|].
      exists r'. split; [|exact Hm']. right. apply elem_of_flat_map.
      exists c'. split; [apply list_elem_of_omap; eauto | exact Hr'].
  - apply elem_of_flat_map in Hm as (c' & Hc' & Hm).
    apply list_elem_of_omap in Hc' as (c & Hc & Hfc).
    rewrite list.Forall_forall in IH.
    destruct (IH c Hc c' Hfc) as [_ Hsub]. by apply Hsub.
Qed.

(** C5: for a non-empty query the filter keeps a node exactly when the
    node or one of its descendants matches; a matching node keeps the whole
    path of ancestors that leads to it from the root; every node of the
    result matches or has a matching descendant; and when only a
    grandchild matches, its parent and grandparent stay.  The statement is
    over the match test, so it covers both tree views. *)
Theorem searchFilter_keeps_ancestor_chain
  (test : string -> PartRecord -> bool) (searchQuery : string)
  (hierarchy : AssemblyNode) :
  searchQuery <> "" ->
  filteredData test searchQuery (Some hierarchy)
    = filterNode (test searchQuery) hierarchy /\
  (forall node,
     is_Some (filterNode (test searchQuery) node) <->
     test searchQuery (node_item node) = true \/
     exists d, d ∈ flat_map flatten (node_children node) /\
               test searchQuery d = true) /\
  (forall p r,
     path_in hierarchy p -> list.last p = Some r -> test searchQuery r = true ->
     exists kept, filteredData test searchQuery (Some hierarchy) = Some kept /\
                  path_in kept p) /\
  (forall kept,
     filteredData test searchQuery (Some hierarchy) = Some kept ->
     node_item kept = node_item hierarchy /\
     forall m, m ∈ subnodes kept ->
               exists r, r ∈ flatten m /\ test searchQuery r = true) /\
  (forall grandparent parent grandchild,
     test searchQuery grandparent = false ->
     test searchQuery parent = false ->
     test searchQuery grandchild = true ->
     filteredData test searchQuery
       (Some (Node grandparent [Node parent [Node grandchild []]]))
     = Some (Node grandparent [Node parent [Node grandchild []]])).
Proof.
  intros Hq.
  assert (Hdata : forall h, filteredData test searchQuery (Some h)
                            = filterNode (test searchQuery) h).
  { intros h. unfold filteredData.
    destruct (String.eqb searchQuery "") eqn:He; [|reflexivity].
    apply String.eqb_eq in He. contradiction. }
  split; [apply Hdata|]. split; [|split; [|split]].
  - intros [item children]. rewrite filterNode_Some_iff. simpl. split.
    + intros (r & Hr & Hm). apply elem_of_cons in Hr as [-> | Hr]; eauto.
    + intros [Hm | (d & Hd & Hm)].
      * exists item. split; [left | exact Hm].
      * exists d. split; [by right | exact Hm].
  - intros p r Hp Hlast Hm. rewrite Hdata.
    by apply filterNode_keeps_path with r.
  - intros kept. rewrite Hdata. apply filterNode_result_subnodes.
  - intros g p c Hg Hp Hc. rewrite Hdata. simpl. rewrite Hc. simpl.
    rewrite Hp. simpl. rewrite Hg. reflexivity.
Qed.

Lemma searchFilter_keeps_ancestor_chain_witness :
  "motor" <> "" /\
  exists kept,
    filteredData matches "motor" (Some motor_hierarchy) = Some kept /\
    path_in kept [node_item motor_hierarchy;
                  Part.mk 5 (JsNumber 1) (Some "Drive") (Some "Drive-01")
                          None true false;
                  motor_part].
Proof.
  split; [discriminate|].
  apply (searchFilter_keeps_ancestor_chain matches "motor" motor_hierarchy)
    with (r := motor_part).
  - discriminate.
  - unfold motor_hierarchy. simpl. apply path_down with
      (Node (Part.mk 5 (JsNumber 1) (Some "Drive") (Some "Drive-01")
               None true false) [Node motor_part []]); [left|].
    apply path_down with (Node motor_part []); [left | constructor].
  - reflexivity.
  - vm_compute. reflexivity.
Defined.

(** The scenario of the design evaluated: only the grandchild's name holds
    "motor"; the branch without a match is dropped. *)
Example filteredData_motor :
  filteredData matches "motor" (Some motor_hierarchy)
  = Some (Node (node_item motor_hierarchy)
            [Node (Part.mk 5 (JsNumber 1) (Some "Drive") (Some "Drive-01")
                           None true false)
               [Node motor_part []]]).
Proof. vm_compute. reflexivity. Qed.

Lemma toLowerCase_empty q : toLowerCase q = "" <-> q = "".
Proof. destruct q; simpl; split; intros H; congruence. Qed.

Lemma includes_empty_l t : t <> "" -> includes "" t = false.
Proof. destruct t; [congruence | reflexivity]. Qed.

Lemma truthy_guard_ci field query :
  query <> "" ->
  (truthy field &&
     includes (toLowerCase (default "" field)) (toLowerCase query))%bool
  = ci_includes field query.
Proof.
  intros Hq. destruct field as [s|]; simpl; [|reflexivity].
  destruct (String.eqb s "") eqn:He; simpl; [|reflexivity].
  apply String.eqb_eq in He. subst s. simpl.
  symmetry. apply includes_empty_l. by rewrite toLowerCase_empty.
Qed.

Lemma lower_ascii_caseless c : caseless c = true -> lower_ascii c = c.
Proof.
  unfold caseless, lower_ascii. intros H.
  destruct ((65 <=? N_of_ascii c)%N && (N_of_ascii c <=? 90)%N)%bool;
    [discriminate | reflexivity].
Qed.

Lemma lower_ascii_hits_caseless a b :
  caseless b = true -> (lower_ascii a = b <-> a = b).
Proof.
  intros Hb. split; [|intros ->; by apply lower_ascii_caseless].
  revert Hb. unfold caseless, lower_ascii.
  destruct ((65 <=? N_of_ascii a)%N && (N_of_ascii a <=? 90)%N)%bool eqn:Hup;
    [|done].
  intros Hb <-. exfalso.
  apply andb_true_iff in Hup as [H1 H2].
  apply N.leb_le in H1. apply N.leb_le in H2.
  rewrite N_ascii_embedding in Hb by lia.
  apply negb_true_iff, orb_false_iff in Hb as [_ Hb].
  apply andb_false_iff in Hb as [Hb | Hb]; apply N.leb_gt in Hb; lia.
Qed.

Lemma prefix_lower_caseless s : forall q,
  string_forall caseless s = true ->
  String.prefix (toLowerCase q) s = String.prefix q s.
Proof.
  induction s as [|b s IH]; intros [|a q] Hs; simpl in *; try reflexivity.
  apply andb_true_iff in Hs as [Hb Hs].
  destruct (ascii_dec (lower_ascii a) b) as [Hl | Hl];
    destruct (ascii_dec a b) as [He | He].
  - by apply IH.
  - exfalso. apply He. by apply (lower_ascii_hits_caseless a b).
  - exfalso. apply Hl. by apply (lower_ascii_hits_caseless a b).
  - reflexivity.
Qed.

Lemma includes_lower_caseless s : forall q,
  string_forall caseless s = true ->
  includes (toLowerCase s) (toLowerCase q) = includes s q.
Proof.
  induction s as [|b s IH]; intros q Hs.
  - destruct q; reflexivity.
  - pose proof Hs as Hs'. simpl in Hs'. apply andb_true_iff in Hs' as [Hb Hs'].
    change (toLowerCase (String b s)) with (String (lower_ascii b) (toLowerCase s)).
    rewrite (lower_ascii_caseless b Hb).
    change (includes (String b (toLowerCase s)) (toLowerCase q))
      with (String.prefix (toLowerCase q) (String b (toLowerCase s))
            || includes (toLowerCase s) (toLowerCase q))%bool.
    change (includes (String b s) q)
      with (String.prefix q (String b s) || includes s q)%bool.
    rewrite (IH q Hs'). f_equal.
    assert (toLowerCase s = s) as ->.
    { clear -Hs'. induction s as [|c s IHs]; [reflexivity|]. simpl in *.
      apply andb_true_iff in Hs' as [Hc Hs'].
      by rewrite (lower_ascii_caseless c Hc), IHs. }
    by apply (prefix_lower_caseless (String b s)).
Qed.

Lemma string_of_uint_caseless d :
  string_forall caseless (NilEmpty.string_of_uint d) = true.
Proof. induction d; simpl; auto. Qed.

Lemma Z_toString_caseless n : string_forall caseless (Z_toString n) = true.
Proof.
  unfold Z_toString, NilZero.string_of_int, NilZero.string_of_uint.
  destruct (Z.to_int n) as [d | d].
  - destruct d; try reflexivity; apply (string_of_uint_caseless (_ d)).
  - change (string_forall caseless (String "-" ?s))
      with (string_forall caseless s).
    destruct d; try reflexivity; apply (string_of_uint_caseless (_ d)).
Qed.

Lemma id_test_ci n query :
  includes (Z_toString n) query = ci_includes (Some (Z_toString n)) query.
Proof. simpl. symmetry. apply includes_lower_caseless, Z_toString_caseless. Qed.

Lemma filteredData_None_iff test searchQuery root :
  searchQuery <> "" ->
  (filteredData test searchQuery (Some root) = None <->
   forall r, r ∈ flatten root -> test searchQuery r = false).
Proof.
  intros Hq. unfold filteredData.
  destruct (String.eqb searchQuery "") eqn:He;
    [apply String.eqb_eq in He; contradiction|].
  pose proof (filterNode_Some_iff (test searchQuery) root) as Hiff.
  split.
  - intros Hnone r Hr. destruct (test searchQuery r) eqn:Hm; [|reflexivity].
    destruct (proj2 Hiff) as [x Hx]; [eauto | congruence].
  - intros Hall. destruct (filterNode (test searchQuery) root) eqn:Hf;
      [|reflexivity].
    destruct (proj1 Hiff) as (r & Hr & Hm); [eauto|].
    rewrite (Hall r Hr) in Hm. discriminate.
Qed.

Lemma prefix_spec t : forall s,
  String.prefix t s = true <-> exists after, s = (t ++ after)%string.
Proof.
  induction t as [|a t IH]; intros s.
  - simpl. split; [intros _; by exists s|]. by destruct s.
  - destruct s as [|b s]; simpl.
    + split; [discriminate | intros [after H]; discriminate].
    + destruct (ascii_dec a b) as [-> | Hne].
      * rewrite IH. split; intros [after H]; exists after.
        -- simpl. by rewrite H.
        -- simpl in H. by injection H.
      * split; [discriminate | intros [after [= H _]]; by destruct Hne].
Qed.

Lemma includes_spec t : forall s,
  includes s t = true <-> exists before after, s = (before ++ t ++ after)%string.
Proof.
  induction s as [|c s IH].
  - cbn [includes]. rewrite orb_false_r, prefix_spec. split.
    + intros [after H]. by exists "", after.
    + intros (before & after & H). destruct before; [by exists after|discriminate].
  - cbn [includes]. rewrite orb_true_iff, prefix_spec, IH. split.
    + intros [[after H] | (before & after & H)].
      * by exists "", after.
      * exists (String c before), after. simpl. by rewrite H.
    + intros (before & after & H). destruct before as [|b before].
      * left. by exists after.
      * right. simpl in H. injection H as _ H. by exists before, after.
Qed.

Lemma lower_code c :
  N_of_ascii (lower_ascii c)
  = if is_upper c then (N_of_ascii c + 32)%N else N_of_ascii c.
Proof.
  unfold lower_ascii, is_upper.
  destruct ((65 <=? N_of_ascii c)%N && (N_of_ascii c <=? 90)%N)%bool eqn:Hup;
    [|reflexivity].
  apply andb_true_iff in Hup as [H1 H2].
  apply N.leb_le in H1, H2. apply N_ascii_embedding. lia.
Qed.

Lemma N_of_ascii_inj a b : N_of_ascii a = N_of_ascii b -> a = b.
Proof.
  intros H. rewrite <- (ascii_N_embedding a), <- (ascii_N_embedding b).
  by rewrite H.
Qed.

Lemma same_letter_lower a b :
  same_letter a b = true <-> lower_ascii a = lower_ascii b.
Proof.
  split.
  - intros H. apply N_of_ascii_inj. rewrite !lower_code.
    unfold same_letter in H. unfold is_upper in *.
    destruct (Ascii.eqb a b) eqn:Heq; [apply Ascii.eqb_eq in Heq; by subst|].
    simpl in H. apply orb_true_iff in H as [H | H];
      apply andb_true_iff in H as [Hup Hn]; apply N.eqb_eq in Hn;
      apply andb_true_iff in Hup as [H1 H2]; apply N.leb_le in H1, H2.
    + rewrite (proj2 (andb_true_iff _ _)) by (split; apply N.leb_le; lia).
      replace ((65 <=? N_of_ascii b)%N && (N_of_ascii b <=? 90)%N)%bool with false.
      * lia.
      * symmetry. apply andb_false_iff. right. apply N.leb_gt. lia.
    + rewrite (proj2 (andb_true_iff (65 <=? N_of_ascii b)%N _))
        by (split; apply N.leb_le; lia).
      replace ((65 <=? N_of_ascii a)%N && (N_of_ascii a <=? 90)%N)%bool with false.
      * lia.
      * symmetry. apply andb_false_iff. right. apply N.leb_gt. lia.
  - intros H. apply (f_equal N_of_ascii) in H. rewrite !lower_code in H.
    unfold same_letter, is_upper in *.
    destruct ((65 <=? N_of_ascii a)%N && (N_of_ascii a <=? 90)%N)%bool eqn:Ha;
      destruct ((65 <=? N_of_ascii b)%N && (N_of_ascii b <=? 90)%N)%bool eqn:Hb;
      simpl.
    + assert (a = b) as -> by (apply N_of_ascii_inj; lia).
      by rewrite Ascii.eqb_refl.
    + rewrite (proj2 (N.eqb_eq _ _)) by lia. by rewrite orb_true_r.
    + rewrite (proj2 (N.eqb_eq (N_of_ascii a) _)) by lia. by rewrite orb_true_r.
    + assert (a = b) as -> by (by apply N_of_ascii_inj).
      by rewrite Ascii.eqb_refl.
Qed.

Lemma same_text_lower s : forall t,
  same_text s t = true <-> toLowerCase s = toLowerCase t.
Proof.
  induction s as [|a s IH]; intros [|b t]; simpl; try done.
  rewrite andb_true_iff, same_letter_lower, IH. split.
  - intros [-> ->]. reflexivity.
  - intros [= H1 H2]. auto.
Qed.

Lemma toLowerCase_app s t :
  toLowerCase (s ++ t)%string = (toLowerCase s ++ toLowerCase t)%string.
Proof. induction s as [|a s IH]; simpl; [reflexivity | by rewrite IH]. Qed.

Lemma toLowerCase_split x : forall s y,
  toLowerCase s = (x ++ y)%string ->
  exists s1 s2, s = (s1 ++ s2)%string /\ toLowerCase s1 = x /\ toLowerCase s2 = y.
Proof.
  induction x as [|a x IH]; intros s y H.
  - exists "", s. auto.
  - destruct s as [|b s]; [discriminate|]. simpl in H. injection H as Ha H.
    destruct (IH s y H) as (s1 & s2 & -> & H1 & H2).
    exists (String b s1), s2. simpl. by rewrite Ha, H1.
Qed.

(** The test of the code is the occurrence up to the case of letters. *)
Lemma ci_test_occurs field query :
  includes (toLowerCase field) (toLowerCase query) = true
  <-> occurs_ignoring_case query field.
Proof.
  rewrite includes_spec. split.
  - intros (before & after & H).
    destruct (toLowerCase_split _ _ _ H) as (s1 & rest & -> & H1 & Hrest).
    destruct (toLowerCase_split _ _ _ Hrest) as (found & s3 & -> & H2 & H3).
    exists s1, found, s3. split; [reflexivity|]. by apply same_text_lower.
  - intros (before & found & after & -> & Hsame).
    apply same_text_lower in Hsame.
    exists (toLowerCase before), (toLowerCase after).
    by rewrite !toLowerCase_app, Hsame.
Qed.

Lemma occurs_in_empty query : query <> "" -> ~ occurs_ignoring_case query "".
Proof.
  intros Hq (before & found & after & H & Hsame).
  destruct before; [|discriminate]. destruct found; [|discriminate].
  destruct query; [by apply Hq | discriminate].
Qed.

(** The guarded test of one field that may be absent. *)
Lemma field_test_occurs field query :
  query <> "" ->
  (truthy field &&
     includes (toLowerCase (default "" field)) (toLowerCase query))%bool = true
  <-> exists s, field = Some s /\ occurs_ignoring_case query s.
Proof.
  intros Hq. destruct field as [s|]; simpl.
  - destruct (String.eqb s "") eqn:He; simpl.
    + apply String.eqb_eq in He. subst s. split; [discriminate|].
      intros (s & [= <-] & Hocc). by destruct (occurs_in_empty query Hq).
    + rewrite ci_test_occurs. split; [intros H; by exists s|].
      by intros (s' & [= <-] & Hocc).
  - split; [discriminate | by intros (s & H & _)].
Qed.

(** The test of the decimal id, which the code does not fold. *)
Lemma id_test_occurs n query :
  includes (Z_toString n) query = true
  <-> occurs_ignoring_case query (Z_toString n).
Proof. rewrite id_test_ci. simpl. apply ci_test_occurs. Qed.

(** C6 (as amended): for a non-empty query of ASCII characters and names
    of ASCII characters, the match test of DynamicBOMTreeView holds
    exactly when the query occurs, up to the case of letters, in
    [reference_name], in [name] or in the decimal id; the match test of
    BOMTreeView holds exactly when it occurs in [reference_name] or in the
    decimal id, the name is not searched.  Case-insensitivity is said by
    [same_letter], without the folding of the code.  In both views the
    empty query gives the hierarchy back unchanged and a query that no
    node matches gives [null]. *)
Theorem searchFilter_match_predicate
  (searchQuery : string) (node : PartRecord) (hierarchy : option AssemblyNode) :
  (searchQuery <> "" -> is_ascii searchQuery = true ->
   ascii_field (Part.reference_name node) = true ->
   ascii_field (Part.name node) = true ->
   (matches searchQuery node = true <->
    some_field_holds searchQuery
      [Part.reference_name node; Part.name node;
       Some (Z_toString (Part.id node))]) /\
   (matches_legacy searchQuery node = true <->
    some_field_holds searchQuery
      [Part.reference_name node; Some (Z_toString (Part.id node))]) /\
   (spec_matches searchQuery node = true <->
    some_field_holds searchQuery
      [Part.reference_name node; Part.name node;
       Some (Z_toString (Part.id node))])) /\
  filteredData matches "" hierarchy = hierarchy /\
  filteredData matches_legacy "" hierarchy = hierarchy /\
  (forall test root,
     searchQuery <> "" ->
     (forall r, r ∈ flatten root -> test searchQuery r = false) ->
     filteredData test searchQuery (Some root) = None).
Proof.
  split; [|split; [|split]].
  - intros Hq _ _ _.
    assert (Hthree : matches searchQuery node = true <->
              some_field_holds searchQuery
                [Part.reference_name node; Part.name node;
                 Some (Z_toString (Part.id node))]).
    { unfold matches, some_field_holds.
      rewrite !orb_true_iff, !field_test_occurs, id_test_occurs by exact Hq.
      split.
      - intros [[(s & Hs & Hocc) | (s & Hs & Hocc)] | Hocc].
        + exists s. split; [rewrite <- Hs; left | exact Hocc].
        + exists s. split; [rewrite <- Hs; right; left | exact Hocc].
        + eexists. split; [right; right; left | exact Hocc].
      - intros (s & Hs & Hocc).
        apply elem_of_cons in Hs as [Hs | Hs]; [left; left; by exists s|].
        apply elem_of_cons in Hs as [Hs | Hs]; [left; right; by exists s|].
        apply elem_of_cons in Hs as [[= ->] | Hs]; [by right | inversion Hs]. }
    split; [exact Hthree|]. split.
    + unfold matches_legacy, some_field_holds.
      rewrite !orb_true_iff, !field_test_occurs, id_test_occurs by exact Hq.
      split.
      * intros [(s & Hs & Hocc) | Hocc].
        -- exists s. split; [rewrite <- Hs; left | exact Hocc].
        -- eexists. split; [right; left | exact Hocc].
      * intros (s & Hs & Hocc).
        apply elem_of_cons in Hs as [Hs | Hs]; [left; by exists s|].
        apply elem_of_cons in Hs as [[= ->] | Hs]; [by right | inversion Hs].
    + rewrite <- Hthree. unfold matches, spec_matches. simpl.
      rewrite !truthy_guard_ci by exact Hq. rewrite id_test_ci. simpl.
      by rewrite orb_false_r, orb_assoc.
  - reflexivity.
  - reflexivity.
  - intros test root Hq Hall. by apply filteredData_None_iff.
Qed.

Lemma searchFilter_match_predicate_witness :
  occurs_ignoring_case "MOTOR" "Stepper Motor" /\
  matches "MOTOR" motor_part = true /\
  matches_legacy "MOTOR" motor_part = false.
Proof.
  assert (Hocc : occurs_ignoring_case "MOTOR" "Stepper Motor").
  { exists "Stepper ", "Motor", "". split; reflexivity. }
  split; [exact Hocc|]. split; [|reflexivity].
  destruct (searchFilter_match_predicate "MOTOR" motor_part None) as [H _].
  destruct H as (Hm & _); [discriminate | reflexivity | reflexivity | reflexivity |].
  apply Hm. exists "Stepper Motor". split; [right; left | exact Hocc].
Defined.

(** C6 (as stated) fails in BOMTreeView: a node that only its name
    identifies passes the case-insensitive test over the three fields, yet
    the filter of that component does not match it and returns [null]. *)
Lemma searchFilter_legacy_name_counterexample :
  "motor" <> "" /\
  spec_matches "motor" motor_part = true /\
  matches_legacy "motor" motor_part = false /\
  filteredData matches_legacy "motor" (Some (Node motor_part [])) = None.
Proof. split; [discriminate|]. vm_compute. auto. Qed.

(** ** Identity Resolver *)

Example strip_numeric_suffix_samples :
  strip_numeric_suffix "Bracket-12" = "Bracket" /\
  strip_numeric_suffix "Shaft_01" = "Shaft" /\
  strip_numeric_suffix "a-1-2" = "a-1" /\
  strip_numeric_suffix "12" = "12" /\
  strip_numeric_suffix "-12" = "" /\
  strip_numeric_suffix "Cover-" = "Cover-" /\
  strip_numeric_suffix "x-1a" = "x-1a".
Proof. vm_compute. repeat split. Qed.

Lemma find_first {A} (f : A -> bool) (l : list A) (x : A) :
  List.find f l = Some x ->
  f x = true /\
  exists before after,
    l = before ++ x :: after /\ forall y, y ∈ before -> f y = false.
Proof.
  induction l as [|a l IH]; simpl; [discriminate|].
  destruct (f a) eqn:Ha.
  - intros [= ->]. split; [exact Ha|]. exists [], l. split; [reflexivity|].
    intros y Hy. inversion Hy.
  - intros Hfind. destruct (IH Hfind) as (Hx & before & after & -> & Hb).
    split; [exact Hx|]. exists (a :: before), after. split; [reflexivity|].
    intros y Hy. apply elem_of_cons in Hy as [-> | Hy]; auto.
Qed.

Lemma find_None_iff {A} (f : A -> bool) (l : list A) :
  List.find f l = None <-> forall x, x ∈ l -> f x = false.
Proof.
  induction l as [|a l IH]; simpl.
  - split; [intros _ x Hx; inversion Hx | reflexivity].
  - destruct (f a) eqn:Ha.
    + split; [discriminate|]. intros H. rewrite H in Ha; [discriminate | left].
    + rewrite IH. split.
      * intros H x Hx. apply elem_of_cons in Hx as [-> | Hx]; auto.
      * intros H x Hx. apply H. by right.
Qed.

Lemma firstStrategyMatch_Some table tree r m :
  firstStrategyMatch table tree = Some (r, m) ->
  exists pre test post,
    table = pre ++ (m, test) :: post /\
    Forall (fun s => forall x, x ∈ tree -> snd s x = false) pre /\
    List.find test tree = Some r.
Proof.
  induction table as [|[nm test] table IH]; simpl; [discriminate|].
  destruct (List.find test tree) as [p|] eqn:Hfind.
  - intros [= -> ->]. exists [], test, table. repeat split; [constructor | exact Hfind].
  - intros H. destruct (IH H) as (pre & t & post & -> & Hpre & Hf).
    exists ((nm, test) :: pre), t, post. repeat split; [|exact Hf].
    constructor; [by apply find_None_iff | exact Hpre].
Qed.

(** C2: the strategies run in the order of the table, exact reference
    name, exact name, then the substring strategies, and the first one
    that finds a record ends the search with the first record (in list
    order) that passes it; with the records "Bracket-12" and "Bracket" in
    either order the mesh "Bracket-12" resolves to the former. *)
Theorem resolver_strategy_order
  (bom : BomData) (tree : list PartRecord) (clickedName : string) :
  assembly_tree bom = Some tree ->
  (forall r,
     List.find (reference_name_exact clickedName) tree = Some r ->
     resolvePartData (Some bom) clickedName = Some (r, "reference_name_exact")) /\
  (List.find (reference_name_exact clickedName) tree = None ->
   forall r,
     List.find (name_exact clickedName) tree = Some r ->
     resolvePartData (Some bom) clickedName = Some (r, "name_exact")) /\
  (List.find (reference_name_exact clickedName) tree = None ->
   List.find (name_exact clickedName) tree = None ->
   resolvePartData (Some bom) clickedName
   = firstStrategyMatch (substring_strategies clickedName) tree) /\
  (forall r m,
     resolvePartData (Some bom) clickedName = Some (r, m) ->
     exists pre test post before after,
       strategies clickedName = pre ++ (m, test) :: post /\
       Forall (fun s => forall x, x ∈ tree -> snd s x = false) pre /\
       test r = true /\
       tree = before ++ r :: after /\
       forall y, y ∈ before -> test y = false) /\
  (forall a b clickedObject rest,
     Part.reference_name a = Some "Bracket-12" ->
     Part.reference_name b = Some "Bracket" ->
     Obj.name clickedObject = "Bracket-12" ->
     handleSingleClick (Some (bom_of [a; b])) (clickedObject :: rest)
       = Some (partToSelect a "Bracket-12" "reference_name_exact") /\
     handleSingleClick (Some (bom_of [b; a])) (clickedObject :: rest)
       = Some (partToSelect a "Bracket-12" "reference_name_exact")).
Proof.
  intros Hbom. unfold resolvePartData. rewrite Hbom.
  split; [|split; [|split; [|split]]].
  - intros r Hr. simpl. by rewrite Hr.
  - intros H1 r Hr. simpl. by rewrite H1, Hr.
  - intros H1 H2. simpl. by rewrite H1, H2.
  - intros r m Hres.
    apply firstStrategyMatch_Some in Hres as (pre & test & post & Htab & Hpre & Hf).
    apply find_first in Hf as (Ht & before & after & Htree & Hb).
    exists pre, test, post, before, after. auto.
  - intros a b o rest Ha Hb Ho. unfold handleSingleClick, resolvePartData.
    rewrite Ho. simpl. unfold reference_name_exact. rewrite Ha, Hb. simpl. auto.
Qed.

Lemma resolver_strategy_order_witness :
  assembly_tree sample_bom = Some sample_records /\
  resolvePartData (Some sample_bom) "Shaft-01"
  = Some (Part.mk 2 (JsNumber 1) (Some "Shaft") (Some "Shaft-01") None false false,
          "reference_name_exact").
Proof.
  split; [reflexivity|].
  apply (resolver_strategy_order sample_bom sample_records "Shaft-01");
    reflexivity.
Defined.








(** ** Selection State Machine *)

(** C4: the transition function of [App], [handlePartSelect] with the
    selection at hand, clears the selection when the incoming part has the
    id of the selected part; that is the function the tree view calls,
    and there selecting the same part twice ends with no selection.  The
    listeners of the 3D view are installed once, at load, with the
    selection and the [onPartSelect] of that render.  Installed while
    nothing was selected, they hand every click on a mesh to a
    [handlePartSelect] that compares with no selection, and
    [handleDoubleClick] never takes its deselecting branch: selecting the
    same mesh a second time, by a click or by a double click, leaves the
    part selected, where the transition function would clear it. *)
Theorem scene_reselect_keeps_selection
  (bomData : option BomData) (clickedObject : Object3D) (rest : list Object3D)
  (app : AppState) :
  (forall current part,
     selectedPart app = Some current -> Sel.id part = Sel.id current ->
     selectedPart (select part app) = None /\
     selectedPart (select current (select current (handleResetView app)))
     = None) /\
  (let intersects := clickedObject :: rest in
   let onPartSelect := handlePartSelect_closure None in
   let first := handleSingleClick bomData intersects in
   let app1 := onPartSelect first app in
   let second := handleDoubleClick None bomData intersects in
   let app2 := onPartSelect second app1 in
   exists X,
     first = Some X /\ selectedPart app1 = Some X /\
     second = Some X /\ selectedPart app2 = Some X /\
     selectedPart (onPartSelect first app1) = Some X /\
     selectedPart (handlePartSelect (Some X) app1) = None).
Proof.
  split.
  - intros current part Hcur Hid. unfold select, handlePartSelect.
    rewrite Hcur. simpl. split.
    + rewrite bool_decide_eq_true_2 by (by symmetry). reflexivity.
    + rewrite bool_decide_eq_true_2 by reflexivity. reflexivity.
  - cbn zeta.
    assert (Hclick : exists X,
              handleSingleClick bomData (clickedObject :: rest) = Some X).
    { unfold handleSingleClick.
      destruct (resolvePartData bomData (Obj.name clickedObject)) as [[p m]|];
        eauto. }
    destruct Hclick as [X HX]. exists X.
    assert (Hdouble : handleDoubleClick None bomData (clickedObject :: rest)
                      = Some X) by exact HX.
    rewrite Hdouble, HX. unfold handlePartSelect_closure, handlePartSelect.
    cbn [selectedPart].
    rewrite bool_decide_eq_true_2 by reflexivity. by repeat split.
Qed.

Lemma scene_reselect_keeps_selection_witness :
  exists X,
    handleSingleClick (Some (bom_of sample_records))
      [plain_object "Shaft-01" true (Some 0%nat)] = Some X /\
    Sel.id X = IdNum 2 /\
    selectedPart
      (handlePartSelect_closure None
         (handleDoubleClick None (Some (bom_of sample_records))
            [plain_object "Shaft-01" true (Some 0%nat)])
         (handlePartSelect_closure None
            (handleSingleClick (Some (bom_of sample_records))
               [plain_object "Shaft-01" true (Some 0%nat)])
            (mkApp None true ""))) = Some X.
Proof.
  destruct (scene_reselect_keeps_selection (Some (bom_of sample_records))
              (plain_object "Shaft-01" true (Some 0%nat)) [] (mkApp None true ""))
    as [_ (X & H1 & _ & _ & H4 & _)].
  exists X. split; [exact H1|]. split; [|exact H4].
  vm_compute in H1. by injection H1 as <-.
Defined.

(** ** Camera Framing Controller *)

Section CameraFraming.

Local Open Scope R_scope.

Lemma sin_half_of_60_degrees : sin (60 * (PI / 180) / 2) = 1 / 2.
Proof. replace (60 * (PI / 180) / 2) with (PI / 6) by lra. apply sin_PI6. Qed.

Lemma sin_30_degrees : sin (30 * (PI / 180)) = 1 / 2.
Proof. replace (30 * (PI / 180)) with (PI / 6) by lra. apply sin_PI6. Qed.

Lemma framingDistance_cube_60 (factor : R) :
  framingDistance (mkVector3 10 10 10) 60 factor = 20 * factor.
Proof.
  unfold framingDistance. cbn [vx vy vz].
  rewrite sin_half_of_60_degrees.
  rewrite (Rmax_left 10 10) by lra. rewrite (Rmax_left 10 10) by lra.
  replace (10 / (1 / 2)) with 20 by field.
  rewrite Rabs_right by lra. reflexivity.
Qed.

(** C8 (as amended): for a bounding box of size (10,10,10), a vertical
    field of view of 60 degrees and the factor 2.5 of single-part framing,
    the distance [|maxDimension / sin(fov/2)| * factor] is
    [10 / sin(30 deg) * 2.5 = 50]: the largest dimension enters whole, not
    halved; [focusCameraOnMesh] aims the camera at that distance from the
    centre of the box along the normalised direction (1, 0.5, 1). *)
Theorem single_part_framing_distance
  (st : ModelState) (i : nat) (mesh : Object3D) :
  scene st !! i = Some mesh ->
  getSize (Obj.boundingBox mesh) = mkVector3 10 10 10 ->
  fov (camera st) = 60 ->
  framingDistance (getSize (Obj.boundingBox mesh)) (fov (camera st)) 2.5
    = 10 / sin (30 * (PI / 180)) * 2.5 /\
  framingDistance (getSize (Obj.boundingBox mesh)) (fov (camera st)) 2.5 = 50 /\
  exists st',
    focusCameraOnMesh i st = (Some tt, st') /\
    endPosition <$> cameraAnimation st'
      = Some (vector_add (getCenter (Obj.boundingBox mesh))
                (multiplyScalar (normalize (mkVector3 1 0.5 1)) 50)) /\
    endTarget <$> cameraAnimation st' = Some (getCenter (Obj.boundingBox mesh)) /\
    camera st' = camera st.
Proof.
  intros Hmesh Hsize Hfov. rewrite Hsize, Hfov, framingDistance_cube_60.
  split; [rewrite sin_30_degrees; field|]. split; [lra|].
  unfold focusCameraOnMesh, getObject, mbind, Eff_bind. rewrite Hmesh.
  eexists. split; [reflexivity|]. simpl.
  rewrite Hsize, Hfov, framingDistance_cube_60.
  replace (20 * 2.5) with 50 by lra. auto.
Qed.

Lemma getSize_unit_box : getSize unit_box = mkVector3 10 10 10.
Proof.
  unfold getSize, isEmpty, unit_box. cbn [box_min box_max vx vy vz].
  repeat (destruct (Rlt_dec 10 0) as [Hlt | _]; [lra|]).
  cbn [orb]. f_equal; lra.
Qed.

Lemma single_part_framing_distance_witness :
  framingDistance (getSize unit_box) (fov (camera fresh_state)) 2.5 = 50.
Proof.
  apply (single_part_framing_distance fresh_state 1
           (plain_object "Shaft-01" true (Some 0%nat))).
  - reflexivity.
  - apply getSize_unit_box.
  - reflexivity.
Defined.

(** C8 (as stated) fails: for the box of size (10,10,10), 60 degrees and
    the factor 2.5 the computation gives 50, twice the 25 that
    [5 / sin(30 deg) * 2.5] amounts to. *)
Lemma framing_distance_25_counterexample :
  getSize unit_box = mkVector3 10 10 10 /\
  5 / sin (30 * (PI / 180)) * 2.5 = 25 /\
  framingDistance (getSize unit_box) 60 2.5 = 50 /\
  framingDistance (getSize unit_box) 60 2.5 <> 25.
Proof.
  assert (framingDistance (getSize unit_box) 60 2.5 = 50) as H.
  { rewrite getSize_unit_box, framingDistance_cube_60. lra. }
  split; [apply getSize_unit_box|].
  split; [rewrite sin_30_degrees; lra|].
  split; [exact H | rewrite H; lra].
Qed.

End CameraFraming.

(** ** Material Highlight Manager *)

Section HighlightFacts.

Local Open Scope R_scope.

Lemma store_update_same m f store : store_update m f store m = f (store m).
Proof. unfold store_update. by rewrite Nat.eqb_refl. Qed.

Lemma store_update_other m k f store :
  k <> m -> store_update m f store k = store k.
Proof.
  intros Hne. unfold store_update.
  destruct (Nat.eqb k m) eqn:He; [apply Nat.eqb_eq in He; contradiction | done].
Qed.

Lemma store_update_appearance m f store :
  appearance (f (store m)) = appearance (store m) ->
  forall k, appearance (store_update m f store k) = appearance (store k).
Proof.
  intros Hf k. destruct (decide (k = m)) as [-> | Hne].
  - by rewrite store_update_same.
  - by rewrite store_update_other.
Qed.

Lemma resetObject_userData o : Obj.userData (resetObject o) = Obj.userData o.
Proof. unfold resetObject.
  destruct (Obj.isMesh o) eqn:E1, (originalMaterial (Obj.userData o)) eqn:E2;
    simpl; first [reflexivity | congruence]. Qed.

Lemma resetObject_isMesh o : Obj.isMesh (resetObject o) = Obj.isMesh o.
Proof. unfold resetObject.
  destruct (Obj.isMesh o) eqn:E1, (originalMaterial (Obj.userData o)) eqn:E2;
    simpl; first [reflexivity | congruence]. Qed.

Lemma resetObject_skeleton o :
  set_material None (resetObject o) = set_material None o.
Proof. unfold resetObject.
  destruct (Obj.isMesh o) eqn:E1, (originalMaterial (Obj.userData o)) eqn:E2;
    simpl; first [reflexivity | congruence]. Qed.

(** *** Reading a field after an update *)

Lemma scene_with_scene f st : scene (with_scene f st) = f (scene st).
Proof. reflexivity. Qed.

Lemma materials_with_scene f st : materials (with_scene f st) = materials st.
Proof. reflexivity. Qed.

Lemma nextMaterial_with_scene f st : nextMaterial (with_scene f st) = nextMaterial st.
Proof. reflexivity. Qed.

Lemma camera_with_scene f st : camera (with_scene f st) = camera st.
Proof. reflexivity. Qed.

Lemma controls_with_scene f st : controls (with_scene f st) = controls st.
Proof. reflexivity. Qed.

Lemma cameraAnimation_with_scene f st : cameraAnimation (with_scene f st) = cameraAnimation st.
Proof. reflexivity. Qed.

Lemma isInitialLoad_with_scene f st : isInitialLoad (with_scene f st) = isInitialLoad st.
Proof. reflexivity. Qed.

Lemma loadError_with_scene f st : loadError (with_scene f st) = loadError st.
Proof. reflexivity. Qed.

Lemma modelRef_with_scene f st : modelRef (with_scene f st) = modelRef st.
Proof. reflexivity. Qed.

Lemma scene_with_materials f st : scene (with_materials f st) = scene st.
Proof. reflexivity. Qed.

Lemma materials_with_materials f st : materials (with_materials f st) = f (materials st).
Proof. reflexivity. Qed.

Lemma nextMaterial_with_materials f st : nextMaterial (with_materials f st) = nextMaterial st.
Proof. reflexivity. Qed.

Lemma camera_with_materials f st : camera (with_materials f st) = camera st.
Proof. reflexivity. Qed.

Lemma controls_with_materials f st : controls (with_materials f st) = controls st.
Proof. reflexivity. Qed.

Lemma cameraAnimation_with_materials f st : cameraAnimation (with_materials f st) = cameraAnimation st.
Proof. reflexivity. Qed.

Lemma isInitialLoad_with_materials f st : isInitialLoad (with_materials f st) = isInitialLoad st.
Proof. reflexivity. Qed.

Lemma loadError_with_materials f st : loadError (with_materials f st) = loadError st.
Proof. reflexivity. Qed.

Lemma modelRef_with_materials f st : modelRef (with_materials f st) = modelRef st.
Proof. reflexivity. Qed.

Lemma color_set_color x m : color (set_color x m) = x.
Proof. reflexivity. Qed.

Lemma emissive_set_color x m : emissive (set_color x m) = emissive m.
Proof. reflexivity. Qed.

Lemma emissiveIntensity_set_color x m : emissiveIntensity (set_color x m) = emissiveIntensity m.
Proof. reflexivity. Qed.

Lemma color_set_emissive x m : color (set_emissive x m) = color m.
Proof. reflexivity. Qed.

Lemma emissive_set_emissive x m : emissive (set_emissive x m) = x.
Proof. reflexivity. Qed.

Lemma emissiveIntensity_set_emissive x m : emissiveIntensity (set_emissive x m) = emissiveIntensity m.
Proof. reflexivity. Qed.

Lemma color_set_emissiveIntensity x m : color (set_emissiveIntensity x m) = color m.
Proof. reflexivity. Qed.

Lemma emissive_set_emissiveIntensity x m : emissive (set_emissiveIntensity x m) = emissive m.
Proof. reflexivity. Qed.

Lemma emissiveIntensity_set_emissiveIntensity x m : emissiveIntensity (set_emissiveIntensity x m) = x.
Proof. reflexivity. Qed.

Lemma color_set_roughness x m : color (set_roughness x m) = color m.
Proof. reflexivity. Qed.

Lemma emissive_set_roughness x m : emissive (set_roughness x m) = emissive m.
Proof. reflexivity. Qed.

Lemma emissiveIntensity_set_roughness x m : emissiveIntensity (set_roughness x m) = emissiveIntensity m.
Proof. reflexivity. Qed.

Lemma color_set_envMapIntensity x m : color (set_envMapIntensity x m) = color m.
Proof. reflexivity. Qed.

Lemma emissive_set_envMapIntensity x m : emissive (set_envMapIntensity x m) = emissive m.
Proof. reflexivity. Qed.

Lemma emissiveIntensity_set_envMapIntensity x m : emissiveIntensity (set_envMapIntensity x m) = emissiveIntensity m.
Proof. reflexivity. Qed.

Lemma color_needsUpdate m : color (needsUpdate m) = color m.
Proof. reflexivity. Qed.

Lemma emissive_needsUpdate m : emissive (needsUpdate m) = emissive m.
Proof. reflexivity. Qed.

Lemma emissiveIntensity_needsUpdate m : emissiveIntensity (needsUpdate m) = emissiveIntensity m.
Proof. reflexivity. Qed.

Create Rewrite HintDb model_state.

Create Rewrite HintDb material_fields.

#[local] Hint Rewrite scene_with_scene materials_with_scene nextMaterial_with_scene camera_with_scene controls_with_scene cameraAnimation_with_scene isInitialLoad_with_scene loadError_with_scene modelRef_with_scene scene_with_materials materials_with_materials nextMaterial_with_materials camera_with_materials controls_with_materials cameraAnimation_with_materials isInitialLoad_with_materials loadError_with_materials modelRef_with_materials : model_state.

#[local] Hint Rewrite color_set_color emissive_set_color emissiveIntensity_set_color color_set_emissive emissive_set_emissive emissiveIntensity_set_emissive color_set_emissiveIntensity emissive_set_emissiveIntensity emissiveIntensity_set_emissiveIntensity color_set_roughness emissive_set_roughness emissiveIntensity_set_roughness color_set_envMapIntensity emissive_set_envMapIntensity emissiveIntensity_set_envMapIntensity color_needsUpdate emissive_needsUpdate emissiveIntensity_needsUpdate : material_fields.

(** Runs the effects of a goal one step further, keeping the updates of
    the state folded. *)
Ltac eff_run :=
  repeat first
    [ progress (lazy beta iota zeta)
    | progress (autorewrite with model_state)
    | rewrite store_update_same
    | progress (autorewrite with material_fields)
    | progress (cbn [scene materials nextMaterial camera controls
                     cameraAnimation isInitialLoad loadError modelRef
                     color emissive emissiveIntensity fst snd]) ].

Lemma cameraPose_with_scene f st : cameraPose (with_scene f st) = cameraPose st.
Proof. reflexivity. Qed.

Lemma cameraPose_with_materials f st :
  cameraPose (with_materials f st) = cameraPose st.
Proof. reflexivity. Qed.

#[local] Hint Rewrite cameraPose_with_scene cameraPose_with_materials : model_state.

Lemma appearance_fields m :
  appearance m = (color m, emissive m, emissiveIntensity m).
Proof. reflexivity. Qed.

(** One step of the reset traversal on a loaded scene: it does not throw,
    it resets the object, and no material changes its appearance. *)
Lemma resetCallback_step st i o :
  loaded st -> scene st !! i = Some o ->
  exists st',
    resetCallback i st = (Some tt, st') /\
    scene st' = alter resetObject i (scene st) /\
    (forall k, appearance (materials st' k) = appearance (materials st k)) /\
    nextMaterial st' = nextMaterial st /\
    cameraPose st' = cameraPose st /\
    modelRef st' = modelRef st /\ loadError st' = loadError st.
Proof.
  intros Hloaded Hi.
  assert (o ∈ scene st) as Hin by (eapply list_elem_of_lookup_2; exact Hi).
  specialize (Hloaded o Hin).
  unfold resetCallback, mbind, Eff_bind, getObject. rewrite Hi.
  destruct (Obj.isMesh o) eqn:Hmesh.
  2:{ exists st. split; [reflexivity|]. repeat split.
      symmetry. apply list_eq. intros j. rewrite list_lookup_alter.
      destruct (decide (i = j)) as [<- | Hne]; [|reflexivity].
      rewrite Hi. simpl. unfold resetObject. by rewrite Hmesh. }
  destruct (originalMaterial (Obj.userData o)) as [m|] eqn:Horig.
  2:{ exists st. split; [reflexivity|]. repeat split.
      symmetry. apply list_eq. intros j. rewrite list_lookup_alter.
      destruct (decide (i = j)) as [<- | Hne]; [|reflexivity].
      rewrite Hi. simpl. unfold resetObject. by rewrite Hmesh, Horig. }
  destruct (Hloaded eq_refl) as [Hlt Happ].
  unfold appearance, snapshot in Happ. injection Happ as Hc He Hint.
  unfold updateObject, getMaterial, updateMaterial, throwTypeError, mret, Eff_ret.
  rewrite <- Hc, <- He, <- Hint.
  destruct (color (materials st m)) as [c|] eqn:Hcol;
    destruct (emissive (materials st m)) as [e|] eqn:Hem;
    destruct (emissiveIntensity (materials st m)) as [x|] eqn:Hx;
    (eexists; split;
     [ eff_run; rewrite ?Hcol, ?Hem; eff_run; rewrite ?Hcol, ?Hem; eff_run;
       reflexivity |];
     autorewrite with model_state;
     split; [apply list_alter_ext; [|reflexivity];
             intros y Hy; rewrite Hi in Hy; injection Hy as <-;
             unfold resetObject; by rewrite Hmesh, Horig|];
     split; [|by repeat split];
     intros k; destruct (decide (k = m)) as [-> | Hne];
     [ rewrite !store_update_same, !appearance_fields;
       autorewrite with material_fields; by rewrite ?Hcol, ?Hem, ?Hx
     | by rewrite !store_update_other by exact Hne ]).
Qed.

(** [loaded] only looks at the snapshots, at the appearance of the
    materials handed out so far and at the meshes without material. *)
Lemma loaded_transfer st st' :
  loaded st ->
  (forall o', o' ∈ scene st' ->
     exists o, o ∈ scene st /\ Obj.isMesh o' = Obj.isMesh o /\
               Obj.userData o' = Obj.userData o /\
               (originalMaterial (Obj.userData o) = None ->
                Obj.material o' = Obj.material o)) ->
  (forall k, (k < nextMaterial st)%nat ->
     appearance (materials st' k) = appearance (materials st k)) ->
  (nextMaterial st <= nextMaterial st')%nat ->
  loaded st'.
Proof.
  intros Hloaded Hobjs Happ Hnext o' Ho' Hmesh'.
  destruct (Hobjs o' Ho') as (o & Ho & Hmesh & Hud & Hmat).
  specialize (Hloaded o Ho). rewrite Hmesh' in Hmesh.
  specialize (Hloaded (eq_sym Hmesh)). rewrite Hud.
  destruct (originalMaterial (Obj.userData o)) as [m|].
  - destruct Hloaded as [Hlt Ha]. split; [lia|]. by rewrite Happ.
  - rewrite Hmat by reflexivity. exact Hloaded.
Qed.

Lemma alter_resetObject_loaded st st' i :
  loaded st ->
  scene st' = alter resetObject i (scene st) ->
  (forall k, appearance (materials st' k) = appearance (materials st k)) ->
  nextMaterial st' = nextMaterial st ->
  loaded st'.
Proof.
  intros Hloaded Hscene Happ Hnext.
  apply (loaded_transfer st st' Hloaded); [| auto | lia].
  intros o' Ho'. rewrite Hscene in Ho'.
  apply list_elem_of_lookup in Ho' as [j Hj].
  rewrite list_lookup_alter in Hj.
  destruct (decide (i = j)) as [<- | Hne].
  - destruct (scene st !! i) as [o|] eqn:Hi; [|discriminate].
    injection Hj as <-. exists o.
    split; [eapply list_elem_of_lookup_2; exact Hi|].
    split; [apply resetObject_isMesh|]. split; [apply resetObject_userData|].
    intros Hnone. unfold resetObject. rewrite Hnone. by destruct (Obj.isMesh o).
  - exists o'. split; [eapply list_elem_of_lookup_2; exact Hj | auto].
Qed.

Lemma reset_range k : forall a st,
  loaded st -> (a + k <= length (scene st))%nat ->
  exists st',
    forEachIndex resetCallback (seq a k) st = (Some tt, st') /\
    (forall j, scene st' !! j =
               if decide (a <= j < a + k)%nat
               then resetObject <$> scene st !! j else scene st !! j) /\
    (forall m, appearance (materials st' m) = appearance (materials st m)) /\
    nextMaterial st' = nextMaterial st /\
    cameraPose st' = cameraPose st /\
    modelRef st' = modelRef st /\ loadError st' = loadError st.
Proof.
  induction k as [|k IH]; intros a st Hloaded Hlen.
  - exists st. split; [reflexivity|]. repeat split.
    intros j. destruct (decide _) as [H|_]; [lia | reflexivity].
  - destruct (lookup_lt_is_Some_2 (scene st) a) as [o Ho]; [lia|].
    destruct (resetCallback_step st a o Hloaded Ho)
      as (st1 & Hrun1 & Hscene1 & Happ1 & Hnext1 & Hcam1 & Href1 & Herr1).
    assert (loaded st1) as Hloaded1
      by exact (alter_resetObject_loaded st st1 a Hloaded Hscene1 Happ1 Hnext1).
    destruct (IH (S a) st1 Hloaded1)
      as (st' & Hrun & Hscene & Happ & Hnext & Hcam & Href & Herr).
    { rewrite Hscene1, length_alter. lia. }
    exists st'. split; [|split; [|split; [|split; [|split; [|split]]]]];
      [| | | congruence | congruence | congruence | congruence].
    + simpl. unfold mbind, Eff_bind. rewrite Hrun1. exact Hrun.
    + intros j. rewrite Hscene, Hscene1, list_lookup_alter.
      destruct (decide (a = j)) as [<- | Hne].
      * destruct (decide (S a <= a < S a + k)%nat) as [H|_]; [lia|].
        destruct (decide (a <= a < a + S k)%nat) as [_|H]; [reflexivity | lia].
      * destruct (decide (S a <= j < S a + k)%nat) as [H|H];
          destruct (decide (a <= j < a + S k)%nat) as [H'|H'];
          try reflexivity; lia.
    + intros m. by rewrite Happ, Happ1.
Qed.

(** The reset traversal on a loaded scene: every object is reset, and
    nothing else of the state moves but the versions of the materials. *)
Lemma traverse_reset st :
  loaded st ->
  exists st',
    traverse resetCallback st = (Some tt, st') /\
    scene st' = resetObject <$> scene st /\
    (forall m, appearance (materials st' m) = appearance (materials st m)) /\
    nextMaterial st' = nextMaterial st /\
    cameraPose st' = cameraPose st /\
    modelRef st' = modelRef st /\ loadError st' = loadError st /\
    loaded st'.
Proof.
  intros Hloaded.
  destruct (reset_range (length (scene st)) 0%nat st Hloaded)
    as (st' & Hrun & Hscene & Happ & Hnext & Hrest); [lia|].
  assert (Hsc : scene st' = resetObject <$> scene st).
  { apply list_eq. intros j. rewrite Hscene, list_lookup_fmap.
    destruct (decide _) as [_|H]; [reflexivity|].
    rewrite lookup_ge_None_2 by lia. reflexivity. }
  exists st'. split; [exact Hrun|]. split; [exact Hsc|].
  split; [exact Happ|]. split; [exact Hnext|].
  destruct Hrest as (Hcam & Href & Herr). repeat split; try assumption.
  apply (loaded_transfer st st' Hloaded); [| auto | lia].
  intros o' Ho'. rewrite Hsc in Ho'.
  apply list_elem_of_fmap in Ho' as (o & -> & Ho). exists o.
  split; [exact Ho|]. split; [apply resetObject_isMesh|].
  split; [apply resetObject_userData|].
  intros Hnone. unfold resetObject. rewrite Hnone. by destruct (Obj.isMesh o).
Qed.

Variable setHex : Z -> Color.

Lemma reset_unhighlighted st st' :
  loaded st' -> scene st' = resetObject <$> scene st -> unhighlighted st'.
Proof.
  intros Hloaded Hscene i (o' & Hi & Hmesh & Hne).
  assert (o' ∈ scene st') as Hin by (eapply list_elem_of_lookup_2; exact Hi).
  specialize (Hloaded o' Hin Hmesh).
  rewrite Hscene in Hin. apply list_elem_of_fmap in Hin as (o & -> & Ho).
  rewrite resetObject_userData in *. rewrite resetObject_isMesh in Hmesh.
  destruct (originalMaterial (Obj.userData o)) as [m|] eqn:Horig.
  - apply Hne. unfold resetObject. by rewrite Hmesh, Horig.
  - apply Hne. exact Hloaded.
Qed.

(** What highlighting the object found does to a loaded scene without
    highlight: either nothing (no object, or not a mesh), or a throw
    before any mesh got a new material, or one mesh wears a fresh clone of
    its original material with the look of the highlight and the camera
    is sent to it. *)
Lemma highlightFound_spec st found :
  loaded st ->
  exists res st',
    highlightFound setHex found st = (res, st') /\
    skeleton st' = skeleton st /\
    (forall k, (k < nextMaterial st)%nat -> materials st' k = materials st k) /\
    (nextMaterial st <= nextMaterial st')%nat /\
    ((scene st' = scene st /\ cameraPose st' = cameraPose st) \/
     (exists i o m,
        found = Some i /\ res = Some tt /\
        scene st !! i = Some o /\ Obj.isMesh o = true /\
        originalMaterial (Obj.userData o) = Some m /\
        scene st' = alter (set_material (Some (nextMaterial st))) i (scene st) /\
        appearance (materials st' (nextMaterial st)) = highlightAppearance setHex /\
        nextMaterial st' = S (nextMaterial st) /\
        camera st' = camera st /\ controls st' = controls st /\
        is_Some (cameraAnimation st'))).
Proof.
  intros Hloaded. unfold highlightFound.
  destruct found as [i|]; [|exists (Some tt), st; repeat split; auto].
  unfold mbind, Eff_bind, getObject.
  destruct (scene st !! i) as [o|] eqn:Hi; [|exists None, st; repeat split; auto].
  destruct (Obj.isMesh o) eqn:Hmesh; [|exists (Some tt), st; repeat split; auto].
  unfold highlightMesh, mbind, Eff_bind, getObject. rewrite Hi.
  destruct (originalMaterial (Obj.userData o)) as [m|] eqn:Horig;
    [|exists None, st; repeat split; auto].
  assert (o ∈ scene st) as Hin by (eapply list_elem_of_lookup_2; exact Hi).
  pose proof (Hloaded o Hin Hmesh) as Hl. rewrite Horig in Hl.
  destruct Hl as [Hlt _].
  assert (Hold : forall f k, (k < nextMaterial st)%nat ->
            store_update (nextMaterial st) f (materials st) k = materials st k).
  { intros f k Hk. apply store_update_other. lia. }
  unfold cloneMaterial, getMaterial, updateMaterial, updateObject, throwTypeError,
    focusCameraOnMesh, startAnimationTo, getObject, mbind, Eff_bind.
  destruct (color (materials st m)) as [c|] eqn:Hcol.
  2:{ eexists None, _. split; [eff_run; rewrite ?Hcol; eff_run; reflexivity|].
      cbn [nextMaterial materials scene].
      split; [reflexivity|]. split; [intros k Hk; by apply Hold|].
      split; [lia|]. left. split; reflexivity. }
  destruct (emissive (materials st m)) as [e|] eqn:Hem.
  2:{ eexists None, _.
      split; [eff_run; rewrite ?Hcol, ?Hem; eff_run; rewrite ?Hcol, ?Hem; eff_run;
              reflexivity|].
      autorewrite with model_state. cbn [nextMaterial materials scene].
      split; [reflexivity|].
      split; [intros k Hk; rewrite store_update_other by lia; by apply Hold|].
      split; [lia|]. left. split; reflexivity. }
  eexists (Some tt), _. split.
  { eff_run. rewrite ?Hcol, ?Hem. eff_run. rewrite ?Hcol, ?Hem. eff_run.
    rewrite list_lookup_alter_eq, Hi. cbn [fmap option_fmap option_map].
    eff_run. reflexivity. }
  cbn [nextMaterial materials scene camera controls cameraAnimation].
  autorewrite with model_state.
  cbn [nextMaterial materials scene camera controls cameraAnimation].
  split; [|split; [|split; [lia|]]].
  - unfold skeleton. cbn [scene modelRef loadError].
    autorewrite with model_state. cbn [scene modelRef loadError].
    f_equal. f_equal.
    apply list_eq. intros j. rewrite !list_lookup_fmap, list_lookup_alter.
    destruct (decide (i = j)) as [<- | Hne]; [|reflexivity].
    rewrite Hi. reflexivity.
  - intros k Hk. rewrite !store_update_other by lia. reflexivity.
  - right. exists i, o, m. repeat split; try reflexivity; try assumption.
    + rewrite !store_update_same, appearance_fields.
      autorewrite with material_fields. reflexivity.
    + eexists. reflexivity.
Qed.

Lemma skeleton_reset st st' :
  scene st' = resetObject <$> scene st ->
  modelRef st' = modelRef st -> loadError st' = loadError st ->
  skeleton st' = skeleton st.
Proof.
  intros Hscene Href Herr. unfold skeleton. rewrite Hscene, Href, Herr.
  f_equal. f_equal. rewrite <- list_fmap_compose. apply list_fmap_ext.
  intros j o _. apply resetObject_skeleton.
Qed.

(** The body shared by the two selection effects, for any way [find] of
    looking up the mesh of the selected part in the reset scene. *)
Lemma selection_body_spec
  (find : SelectedPart -> list Object3D -> option nat) selected st :
  loaded st ->
  exists res st',
    (_ ← traverse resetCallback;
     match selected with
     | None => mret tt
     | Some sp => s ← getState; highlightFound setHex (find sp (scene s))
     end) st = (res, st') /\
    selection_outcome setHex selected st res st'.
Proof.
  intros Hloaded.
  destruct (traverse_reset st Hloaded)
    as (st1 & Hrun1 & Hscene1 & Happ1 & Hnext1 & Hcam1 & Href1 & Herr1 & Hloaded1).
  unfold mbind at 1. unfold Eff_bind at 1. rewrite Hrun1.
  pose proof (skeleton_reset st st1 Hscene1 Href1 Herr1) as Hskel1.
  destruct selected as [sp|].
  2:{ exists (Some tt), st1. split; [reflexivity|].
      split; [exact Hskel1|]. split; [intros k _; apply Happ1|].
      split; [lia|]. split; [left; auto | auto]. }
  unfold mbind, Eff_bind, getState.
  destruct (highlightFound_spec st1 (find sp (scene st1)) Hloaded1)
    as (res & st' & Hrun & Hskel & Hmat & Hnext & Hcases).
  exists res, st'. split; [exact Hrun|].
  split; [congruence|].
  split; [intros k Hk; rewrite Hmat by lia; apply Happ1|].
  split; [lia|]. split; [|discriminate].
  destruct Hcases as [[Hsc Hcam] | (i & o & m & Hf & Hres & Hi & Hmesh & Horig
                                    & Hsc & Hlook & Hn & Hc & Hctl & Hanim)].
  - left. split; congruence.
  - right. exists i, o, m. rewrite <- Hscene1, <- Hnext1.
    unfold cameraPose in Hcam1. injection Hcam1 as Hc1 Hctl1 _.
    repeat split; try assumption; try congruence.
Qed.

Lemma selectionEffect_spec selected st :
  loaded st -> ready st ->
  exists res st',
    selectionEffect setHex selected st = (res, st') /\
    selection_outcome setHex selected st res st'.
Proof.
  intros Hloaded [Href Herr]. unfold selectionEffect. rewrite Href, Herr.
  cbn [negb orb].
  destruct (selection_body_spec
              (fun sp objects => fst <$> findSelectedMesh sp objects)
              selected st Hloaded) as (res & st' & Hrun & Hout).
  exists res, st'. split; [exact Hrun | exact Hout].
Qed.

Lemma selectionEffect_legacy_spec selected st :
  loaded st -> ready st ->
  exists res st',
    selectionEffect_legacy setHex selected st = (res, st') /\
    selection_outcome setHex selected st res st'.
Proof.
  intros Hloaded [Href Herr]. unfold selectionEffect_legacy. rewrite Href.
  cbn [negb].
  destruct (selection_body_spec findSelectedMesh_legacy selected st Hloaded)
    as (res & st' & Hrun & Hout).
  exists res, st'. split; [exact Hrun | exact Hout].
Qed.

Lemma reset_lookup_original st j o' :
  loaded st -> (resetObject <$> scene st) !! j = Some o' ->
  Obj.isMesh o' = true ->
  Obj.material o' = originalMaterial (Obj.userData o').
Proof.
  intros Hloaded Hj Hmesh. rewrite list_lookup_fmap in Hj.
  destruct (scene st !! j) as [o|] eqn:Ho; [|discriminate].
  injection Hj as <-. rewrite resetObject_isMesh in Hmesh.
  rewrite resetObject_userData.
  assert (o ∈ scene st) as Hin by (eapply list_elem_of_lookup_2; exact Ho).
  specialize (Hloaded o Hin Hmesh). unfold resetObject. rewrite Hmesh.
  destruct (originalMaterial (Obj.userData o)); [reflexivity | exact Hloaded].
Qed.

Lemma outcome_loaded selected st res st' :
  loaded st -> selection_outcome setHex selected st res st' -> loaded st'.
Proof.
  intros Hloaded (Hskel & Happ & Hnext & Hcases & _).
  apply (loaded_transfer st st' Hloaded); [| exact Happ | exact Hnext].
  assert (Hreset : forall o', o' ∈ resetObject <$> scene st ->
            exists o, o ∈ scene st /\ Obj.isMesh o' = Obj.isMesh o /\
              Obj.userData o' = Obj.userData o /\
              (originalMaterial (Obj.userData o) = None ->
               Obj.material o' = Obj.material o)).
  { intros o' Ho'. apply list_elem_of_fmap in Ho' as (o & -> & Ho). exists o.
    split; [exact Ho|]. split; [apply resetObject_isMesh|].
    split; [apply resetObject_userData|].
    intros Hnone. unfold resetObject. rewrite Hnone. by destruct (Obj.isMesh o). }
  destruct Hcases as [[Hsc _] | (i & oi & m & _ & _ & Hi & Hmesh & Horig & Hsc & _)];
    intros o' Ho'; rewrite Hsc in Ho'.
  - by apply Hreset.
  - apply list_elem_of_lookup in Ho' as [j Hj]. rewrite list_lookup_alter in Hj.
    destruct (decide (i = j)) as [<- | Hne].
    + rewrite Hi in Hj. injection Hj as <-.
      destruct (Hreset oi) as (o & Ho & Hm & Hud & Hmat);
        [eapply list_elem_of_lookup_2; exact Hi|].
      exists o. split; [exact Ho|]. split; [exact Hm|]. split; [exact Hud|].
      intros Hnone. rewrite <- Hud, Horig in Hnone. discriminate.
    + apply Hreset. eapply list_elem_of_lookup_2; exact Hj.
Qed.

Lemma outcome_ready selected st res st' :
  ready st -> selection_outcome setHex selected st res st' -> ready st'.
Proof.
  intros [Href Herr] (Hskel & _). unfold skeleton in Hskel.
  injection Hskel as _ Href' Herr'. split; congruence.
Qed.

Lemma outcome_at_most_one selected st res st' :
  loaded st -> selection_outcome setHex selected st res st' ->
  at_most_one_highlighted st' /\
  (selected = None -> unhighlighted st') /\
  (forall i, highlighted st' i ->
     meshAppearance st' i = Some (highlightAppearance setHex) /\
     is_Some (cameraAnimation st')).
Proof.
  intros Hloaded Hout. pose proof (outcome_loaded _ _ _ _ Hloaded Hout) as Hloaded'.
  destruct Hout as (Hskel & Happ & Hnext & Hcases & Hnone).
  assert (Hplain : scene st' = resetObject <$> scene st -> unhighlighted st').
  { intros Hsc. by apply (reset_unhighlighted st st'). }
  split; [|split].
  - destruct Hcases as [[Hsc _] | (i & oi & m & _ & _ & Hi & Hmesh & Horig & Hsc & _)].
    + intros a b Ha. exfalso. exact (Hplain Hsc a Ha).
    + assert (Honly : forall a, highlighted st' a -> a = i).
      { intros a (o & Ho & Hm & Hne). rewrite Hsc, list_lookup_alter in Ho.
        destruct (decide (i = a)) as [<- | Hia]; [reflexivity|].
        exfalso. apply Hne. by apply (reset_lookup_original st a). }
      intros a b Ha Hb. rewrite (Honly a Ha), (Honly b Hb). reflexivity.
  - intros Hsel. apply Hplain. by apply Hnone.
  - intros a Ha.
    destruct Hcases as [[Hsc _] | (i & oi & m & _ & _ & Hi & Hmesh & Horig & Hsc
                                   & Hlook & _ & _ & _ & Hanim)].
    + exfalso. exact (Hplain Hsc a Ha).
    + assert (a = i) as ->.
      { destruct Ha as (o & Ho & Hm & Hne). rewrite Hsc, list_lookup_alter in Ho.
        destruct (decide (i = a)) as [<- | Hia]; [reflexivity|].
        exfalso. apply Hne. by apply (reset_lookup_original st a). }
      split; [|exact Hanim]. unfold meshAppearance.
      rewrite Hsc, list_lookup_alter_eq, Hi. simpl. by rewrite Hlook.
Qed.

Lemma skeleton_snapshot st st' j :
  skeleton st' = skeleton st -> meshSnapshot st' j = meshSnapshot st j.
Proof.
  intros Hskel. unfold skeleton in Hskel. injection Hskel as Hsc _ _.
  apply (f_equal (fun l => (fun o => snapshot (Obj.userData o)) <$> l !! j)) in Hsc.
  rewrite !list_lookup_fmap in Hsc. unfold meshSnapshot.
  destruct (scene st' !! j), (scene st !! j); simpl in *; congruence.
Qed.

(** After a run that ends with the plain reset, every mesh wears its
    original material and looks as its snapshot says. *)
Lemma reset_restores_snapshot st st' j o :
  loaded st' -> scene st' = resetObject <$> scene st ->
  scene st' !! j = Some o -> Obj.isMesh o = true ->
  Obj.material o = originalMaterial (Obj.userData o) /\
  (is_Some (originalMaterial (Obj.userData o)) ->
   meshAppearance st' j = meshSnapshot st' j).
Proof.
  intros Hloaded Hsc Hj Hmesh.
  assert (Obj.material o = originalMaterial (Obj.userData o)) as Hmat.
  { destruct (decide (Obj.material o = originalMaterial (Obj.userData o)))
      as [He | Hne]; [exact He|].
    exfalso. apply (reset_unhighlighted st st' Hloaded Hsc j). exists o. auto. }
  split; [exact Hmat|]. intros [m Hm].
  assert (o ∈ scene st') as Hin by (eapply list_elem_of_lookup_2; exact Hj).
  specialize (Hloaded o Hin Hmesh). rewrite Hm in Hloaded.
  destruct Hloaded as [_ Happ].
  unfold meshAppearance, meshSnapshot. rewrite Hj. simpl.
  rewrite Hmat, Hm. simpl. by rewrite Happ.
Qed.

(** *** The load *)

Lemma store_updates_appearance (store store' : MaterialRef -> Material) m :
  (forall k, k <> m -> store' k = store k) ->
  appearance (store' m) = appearance (store m) ->
  forall k, appearance (store' k) = appearance (store k).
Proof.
  intros Hother Hm k. destruct (decide (k = m)) as [-> | Hne]; [exact Hm|].
  by rewrite Hother.
Qed.

Ltac eff_run_in H :=
  repeat first
    [ progress (lazy beta iota zeta in H)
    | progress (autorewrite with model_state in H)
    | rewrite store_update_same in H
    | progress (autorewrite with material_fields in H)
    | progress (cbn [scene materials nextMaterial camera controls
                     cameraAnimation isInitialLoad loadError modelRef
                     color emissive emissiveIntensity fst snd] in H) ].

(** One step of the traversal at load: it does not throw, it records the
    snapshot of the object, and no material changes its appearance. *)
Lemma setupCallback_step st i o :
  scene st !! i = Some o ->
  exists st',
    setupCallback i st = (Some tt, st') /\
    scene st' = alter (loadObject (materials st)) i (scene st) /\
    (forall k, appearance (materials st' k) = appearance (materials st k)) /\
    nextMaterial st' = nextMaterial st /\
    cameraPose st' = cameraPose st /\
    modelRef st' = modelRef st /\ loadError st' = loadError st /\
    isInitialLoad st' = isInitialLoad st.
Proof.
  intros Hi. destruct (setupCallback i st) as [res st'] eqn:Hrun.
  unfold setupCallback, mbind, Eff_bind, getObject, updateObject, getMaterial,
    updateMaterial, mret, Eff_ret in Hrun.
  rewrite Hi in Hrun.
  destruct (Obj.isMesh o) eqn:Hmesh.
  2:{ injection Hrun as <- <-. exists st. split; [reflexivity|].
      split; [|by repeat split].
      apply list_eq. intros j. rewrite list_lookup_alter.
      destruct (decide (i = j)) as [<- | Hne]; [|reflexivity].
      rewrite Hi. simpl. unfold loadObject. by rewrite Hmesh. }
  eff_run_in Hrun.
  destruct (Obj.material o) as [m|] eqn:Hmat.
  2:{ eff_run_in Hrun. injection Hrun as <- <-.
      eexists. split; [reflexivity|]. autorewrite with model_state.
      split; [|by repeat split].
      apply list_alter_ext; [|reflexivity]. intros y Hy. rewrite Hi in Hy.
      injection Hy as <-. unfold loadObject. rewrite Hmesh, Hmat. reflexivity. }
  eff_run_in Hrun.
  destruct (isMeshStandardMaterial (materials st m)
            || isMeshPhysicalMaterial (materials st m));
    [destruct (gt_number (metalness (materials st m)) 0.5);
     destruct (strict_eq_number (roughness (materials st m)) 0)|];
    eff_run_in Hrun;
    destruct (color (materials st m)) as [c|] eqn:Hcol;
    destruct (emissive (materials st m)) as [e|] eqn:Hem;
    destruct (emissiveIntensity (materials st m)) as [x|] eqn:Hx;
    eff_run_in Hrun; injection Hrun as <- <-;
    (eexists; split; [reflexivity|]; autorewrite with model_state;
     split;
     [ apply list_eq; intros j;
       destruct (decide (i = j)) as [<- | Hne];
       [ rewrite !list_lookup_alter_eq, Hi; cbn [fmap option_fmap option_map];
         f_equal; unfold loadObject; rewrite Hmesh, Hmat, ?Hcol, ?Hem, ?Hx;
         reflexivity
       | by rewrite !list_lookup_alter_ne by exact Hne ]
     | split; [|by repeat split];
       apply (store_updates_appearance (materials st) _ m);
       [ intros k Hk; by rewrite ?store_update_other by exact Hk
       | rewrite ?store_update_same, !appearance_fields;
         autorewrite with material_fields; reflexivity ] ]).
Qed.

Lemma loadObject_ext (store store' : MaterialRef -> Material) o :
  (forall k, appearance (store' k) = appearance (store k)) ->
  loadObject store' o = loadObject store o.
Proof.
  intros Happ. unfold loadObject.
  destruct (Obj.isMesh o); [|reflexivity].
  destruct (Obj.material o) as [m|]; [|reflexivity].
  specialize (Happ m). unfold appearance in Happ. injection Happ as -> -> ->.
  reflexivity.
Qed.

Lemma setup_range k : forall a st,
  (a + k <= length (scene st))%nat ->
  exists st',
    forEachIndex setupCallback (seq a k) st = (Some tt, st') /\
    (forall j, scene st' !! j =
               if decide (a <= j < a + k)%nat
               then loadObject (materials st) <$> scene st !! j
               else scene st !! j) /\
    (forall m, appearance (materials st' m) = appearance (materials st m)) /\
    nextMaterial st' = nextMaterial st /\
    cameraPose st' = cameraPose st /\
    modelRef st' = modelRef st /\ loadError st' = loadError st /\
    isInitialLoad st' = isInitialLoad st.
Proof.
  induction k as [|k IH]; intros a st Hlen.
  - exists st. split; [reflexivity|]. repeat split.
    intros j. destruct (decide _) as [H|_]; [lia | reflexivity].
  - destruct (lookup_lt_is_Some_2 (scene st) a) as [o Ho]; [lia|].
    destruct (setupCallback_step st a o Ho)
      as (st1 & Hrun1 & Hscene1 & Happ1 & Hnext1 & Hcam1 & Href1 & Herr1 & Hini1).
    destruct (IH (S a) st1)
      as (st' & Hrun & Hscene & Happ & Hnext & Hcam & Href & Herr & Hini).
    { rewrite Hscene1, length_alter. lia. }
    exists st'.
    split; [|split; [|split; [|split; [|split; [|split; [|split]]]]]];
      [| | | congruence | congruence | congruence | congruence | congruence].
    + simpl. unfold mbind, Eff_bind. rewrite Hrun1. exact Hrun.
    + intros j. rewrite Hscene, Hscene1, list_lookup_alter.
      destruct (decide (a = j)) as [<- | Hne].
      * destruct (decide (S a <= a < S a + k)%nat) as [H|_]; [lia|].
        destruct (decide (a <= a < a + S k)%nat) as [_|H]; [reflexivity | lia].
      * destruct (decide (S a <= j < S a + k)%nat) as [H|H];
          destruct (decide (a <= j < a + S k)%nat) as [H'|H'];
          try reflexivity; try lia.
        destruct (scene st !! j); [|reflexivity]. simpl. f_equal.
        by apply loadObject_ext.
    + intros m. by rewrite Happ, Happ1.
Qed.

(** The load of a fresh scene: every mesh gets its snapshot, which is the
    appearance its material has at that moment, and the scene is
    [loaded], [ready] and without highlight. *)
Lemma setupModel_spec st0 :
  fresh_scene st0 ->
  modelRef st0 = true -> isInitialLoad st0 = true ->
  truthy (loadError st0) = false ->
  exists st,
    setupModel st0 = (Some tt, st) /\
    loaded st /\ ready st /\ unhighlighted st /\
    scene st = loadObject (materials st0) <$> scene st0 /\
    (forall k, appearance (materials st k) = appearance (materials st0 k)) /\
    nextMaterial st = nextMaterial st0 /\
    setupModel st = (Some tt, st).
Proof.
  intros Hfresh Href Hini Herr. unfold setupModel at 1. rewrite Href, Hini, Herr.
  cbn [andb negb].
  unfold mbind, Eff_bind, traverse.
  destruct (setup_range (length (scene st0)) 0%nat st0)
    as (st1 & Hrun & Hscene & Happ & Hnext & Hcam & Href1 & Herr1 & Hini1); [lia|].
  rewrite Hrun. unfold fitCameraToScene. eexists. split; [reflexivity|].
  cbn [scene materials nextMaterial].
  assert (Hsc : scene st1 = loadObject (materials st0) <$> scene st0).
  { apply list_eq. intros j. rewrite Hscene, list_lookup_fmap.
    destruct (decide _) as [_|H]; [reflexivity|].
    rewrite lookup_ge_None_2 by lia. reflexivity. }
  assert (Hobj : forall o', o' ∈ scene st1 -> Obj.isMesh o' = true ->
            exists o, o ∈ scene st0 /\ Obj.isMesh o = true /\
              Obj.material o' = Obj.material o /\
              originalMaterial (Obj.userData o') = Obj.material o /\
              (forall m, Obj.material o = Some m ->
                 snapshot (Obj.userData o') = appearance (materials st0 m))).
  { intros o' Ho' Hmesh'. rewrite Hsc in Ho'.
    apply list_elem_of_fmap in Ho' as (o & -> & Ho). exists o.
    destruct (Hfresh o Ho) as (Hnone & Hsnap & _).
    unfold snapshot in Hsnap. injection Hsnap as Hc He Hx.
    unfold loadObject in *. destruct (Obj.isMesh o) eqn:Hmesh; [|congruence].
    split; [exact Ho|]. split; [reflexivity|].
    destruct (Obj.material o) as [m|] eqn:Hmat; simpl.
    - repeat split; auto. intros m' [= <-]. unfold snapshot, appearance. simpl.
      rewrite Hc, He, Hx.
      by destruct (color (materials st0 m)), (emissive (materials st0 m)),
        (emissiveIntensity (materials st0 m)).
    - repeat split; auto. intros m' Hm'. discriminate. }
  assert (Hloaded : forall o', o' ∈ scene st1 -> Obj.isMesh o' = true ->
            match originalMaterial (Obj.userData o') with
            | Some m => (m < nextMaterial st1)%nat /\
                        appearance (materials st1 m) = snapshot (Obj.userData o')
            | None => Obj.material o' = None
            end).
  { intros o' Ho' Hmesh'.
    destruct (Hobj o' Ho' Hmesh') as (o & Ho & Hmesh & Hmat & Horig & Hsnap).
    rewrite Horig. destruct (Obj.material o) as [m|] eqn:Hm.
    - split.
      + rewrite Hnext. destruct (Hfresh o Ho) as (_ & _ & Hlt). by apply Hlt.
      + rewrite Happ. symmetry. by apply Hsnap.
    - congruence. }
  split; [exact Hloaded|]. split; [split; cbn; congruence|].
  split; [|split; [exact Hsc | split; [exact Happ | split; [exact Hnext|]]]].
  2:{ unfold setupModel. cbn [isInitialLoad modelRef]. rewrite Href1, Href.
      reflexivity. }
  intros j (o' & Hj & Hmesh' & Hne). cbn [scene] in Hj.
  assert (o' ∈ scene st1) as Hin by (eapply list_elem_of_lookup_2; exact Hj).
  destruct (Hobj o' Hin Hmesh') as (o & _ & _ & Hmat & Horig & _).
  apply Hne. congruence.
Qed.

(** *** Sequences of selection changes *)

Lemma runSelections_invariant (effect : option SelectedPart -> Eff unit) :
  (forall selected st, loaded st -> ready st ->
     exists res st', effect selected st = (res, st') /\
                     selection_outcome setHex selected st res st') ->
  forall history st0,
    loaded st0 -> ready st0 -> unhighlighted st0 ->
    let st := runSelections effect history st0 in
    loaded st /\ ready st /\ at_most_one_highlighted st /\
    skeleton st = skeleton st0 /\
    (nextMaterial st0 <= nextMaterial st)%nat /\
    (forall k, (k < nextMaterial st0)%nat ->
       appearance (materials st k) = appearance (materials st0 k)).
Proof.
  intros Hspec history.
  assert (Hgen : forall st0, loaded st0 -> ready st0 -> at_most_one_highlighted st0 ->
            let st := runSelections effect history st0 in
            loaded st /\ ready st /\ at_most_one_highlighted st /\
            skeleton st = skeleton st0 /\
            (nextMaterial st0 <= nextMaterial st)%nat /\
            (forall k, (k < nextMaterial st0)%nat ->
               appearance (materials st k) = appearance (materials st0 k))).
  { induction history as [|selected history IH]; intros st0 Hl Hr Hone; simpl.
    - repeat split; auto; apply Hr.
    - destruct (Hspec selected st0 Hl Hr) as (res & st1 & Hrun & Hout).
      rewrite Hrun. cbn [snd].
      pose proof (outcome_loaded _ _ _ _ Hl Hout) as Hl1.
      pose proof (outcome_ready _ _ _ _ Hr Hout) as Hr1.
      destruct (outcome_at_most_one _ _ _ _ Hl Hout) as (Hone1 & _ & _).
      destruct (IH st1 Hl1 Hr1 Hone1) as (Hl' & Hr' & Hone' & Hsk' & Hn' & Ha').
      destruct Hout as (Hsk & Ha & Hn & _).
      repeat split; try assumption; try apply Hr'.
      + congruence.
      + lia.
      + intros k Hk. rewrite Ha' by lia. by apply Ha. }
  intros st0 Hl Hr Hun. apply Hgen; auto.
  intros i j Hi. exfalso. exact (Hun i Hi).
Qed.

Lemma snapshot_at_load st0 st j :
  fresh_scene st0 ->
  scene st = loadObject (materials st0) <$> scene st0 ->
  forall o, scene st !! j = Some o -> Obj.isMesh o = true ->
    is_Some (originalMaterial (Obj.userData o)) ->
    meshSnapshot st j = meshAppearance st0 j.
Proof.
  intros Hfresh Hsc o Hj Hmesh [m Hm]. unfold meshSnapshot, meshAppearance.
  rewrite Hj. rewrite Hsc, list_lookup_fmap in Hj.
  destruct (scene st0 !! j) as [o0|] eqn:Hj0; [|discriminate].
  injection Hj as <-. simpl.
  assert (o0 ∈ scene st0) as Hin by (eapply list_elem_of_lookup_2; exact Hj0).
  destruct (Hfresh o0 Hin) as (_ & Hsnap & _).
  unfold snapshot in Hsnap. injection Hsnap as Hc He Hx.
  unfold loadObject in *. destruct (Obj.isMesh o0) eqn:Hmesh0; [|congruence].
  destruct (Obj.material o0) as [m0|]; simpl in *; [|discriminate].
  unfold snapshot, appearance. simpl. rewrite Hc, He, Hx.
  by destruct (color (materials st0 m0)), (emissive (materials st0 m0)),
    (emissiveIntensity (materials st0 m0)).
Qed.

(** *** The properties of the design *)

(** C7: in any state reached from the load of a fresh scene by selection
    changes, when a selection highlights mesh [i] (so that it wears a
    clone with the highlight colour, emissive colour and intensity) and
    the selection is then cleared, the mesh looks again exactly as at
    load time, the values its snapshot holds; the snapshots of all
    objects are, after each of the two steps, what they were at load; and
    the load itself does nothing when it is run again. *)
Theorem highlight_then_deselect_restores_snapshot
  (st0 : ModelState) (history : list (option SelectedPart))
  (sp : SelectedPart) (i : nat) :
  fresh_scene st0 ->
  modelRef st0 = true -> isInitialLoad st0 = true ->
  truthy (loadError st0) = false ->
  let atLoad := snd (setupModel st0) in
  let st := runSelections (selectionEffect setHex) history atLoad in
  let st1 := snd (selectionEffect setHex (Some sp) st) in
  let st2 := snd (selectionEffect setHex None st1) in
  highlighted st1 i ->
  meshAppearance st1 i = Some (highlightAppearance setHex) /\
  fst (selectionEffect setHex None st1) = Some tt /\
  ~ highlighted st2 i /\
  meshAppearance st2 i = meshSnapshot atLoad i /\
  meshAppearance st2 i = meshAppearance st0 i /\
  (forall j, meshSnapshot st1 j = meshSnapshot atLoad j /\
             meshSnapshot st2 j = meshSnapshot atLoad j) /\
  setupModel atLoad = (Some tt, atLoad).
Proof.
  intros Hfresh Href Hini Herr.
  destruct (setupModel_spec st0 Hfresh Href Hini Herr)
    as (L & HrunL & HlL & HrL & HunL & HscL & HappL & HnextL & HonceL).
  rewrite HrunL. cbn [snd].
  set (st := runSelections (selectionEffect setHex) history L).
  set (st1 := snd (selectionEffect setHex (Some sp) st)).
  set (st2 := snd (selectionEffect setHex None st1)).
  intros Hhigh.
  destruct (runSelections_invariant (selectionEffect setHex)
              (fun selected s => selectionEffect_spec selected s)
              history L HlL HrL HunL) as (Hl & Hr & _ & Hsk & _ & _).
  destruct (selectionEffect_spec (Some sp) st Hl Hr) as (res1 & s1 & Hrun1 & Hout1).
  assert (st1 = s1) as Hst1 by (unfold st1; by rewrite Hrun1).
  pose proof (outcome_loaded _ _ _ _ Hl Hout1) as Hl1.
  pose proof (outcome_ready _ _ _ _ Hr Hout1) as Hr1.
  destruct (outcome_at_most_one _ _ _ _ Hl Hout1) as (_ & _ & Hlook1).
  destruct Hout1 as (Hsk1 & _).
  rewrite <- Hst1 in Hl1, Hr1, Hlook1, Hsk1.
  destruct (selectionEffect_spec None st1 Hl1 Hr1) as (res2 & s2 & Hrun2 & Hout2).
  assert (st2 = s2) as Hst2 by (unfold st2; by rewrite Hrun2).
  pose proof (outcome_loaded _ _ _ _ Hl1 Hout2) as Hl2.
  destruct (outcome_at_most_one _ _ _ _ Hl1 Hout2) as (_ & Hun2 & _).
  destruct Hout2 as (Hsk2 & _ & _ & _ & Hnone2).
  destruct (Hnone2 eq_refl) as (Hres2 & Hsc2 & _).
  rewrite <- Hst2 in Hl2, Hun2, Hsk2, Hsc2.
  assert (Hsnap1 : forall j, meshSnapshot st1 j = meshSnapshot L j).
  { intros j. rewrite (skeleton_snapshot st st1 j Hsk1).
    apply skeleton_snapshot. exact Hsk. }
  assert (Hsnap2 : forall j, meshSnapshot st2 j = meshSnapshot L j).
  { intros j. rewrite (skeleton_snapshot st1 st2 j Hsk2). apply Hsnap1. }
  destruct Hhigh as (o1 & Hi1 & Hmesh1 & Hne1).
  assert (is_Some (originalMaterial (Obj.userData o1))) as Horig1.
  { assert (o1 ∈ scene st1) as Hin by (eapply list_elem_of_lookup_2; exact Hi1).
    specialize (Hl1 o1 Hin Hmesh1).
    destruct (originalMaterial (Obj.userData o1)); [eauto | congruence]. }
  assert (Hi2 : scene st2 !! i = Some (resetObject o1)).
  { by rewrite Hsc2, list_lookup_fmap, Hi1. }
  destruct (reset_restores_snapshot st1 st2 i (resetObject o1) Hl2 Hsc2 Hi2)
    as [_ Hback]; [by rewrite resetObject_isMesh|].
  rewrite resetObject_userData in Hback. specialize (Hback Horig1).
  assert (HiL : exists oL, scene L !! i = Some oL /\ Obj.isMesh oL = true /\
                           is_Some (originalMaterial (Obj.userData oL))).
  { assert (skeleton st1 = skeleton L) as HskL by (rewrite Hsk1; exact Hsk).
    unfold skeleton in HskL. injection HskL as Hobjs _ _.
    apply (f_equal (fun l => l !! i)) in Hobjs.
    rewrite !list_lookup_fmap, Hi1 in Hobjs.
    destruct (scene L !! i) as [oL|]; [|discriminate].
    exists oL. split; [reflexivity|].
    pose proof (f_equal (fmap Obj.isMesh) Hobjs) as Hm.
    pose proof (f_equal (fmap Obj.userData) Hobjs) as Hu.
    simpl in Hm, Hu. injection Hm as Hm. injection Hu as Hu.
    split; congruence. }
  destruct HiL as (oL & HiL & HmeshL & HorigL).
  split; [apply Hlook1; exists o1; auto|].
  split; [by rewrite Hrun2|].
  split; [apply Hun2; reflexivity|].
  split; [by rewrite Hback, Hsnap2|].
  split; [|split; [intros j; split; [apply Hsnap1 | apply Hsnap2] | exact HonceL]].
  rewrite Hback, Hsnap2.
  exact (snapshot_at_load st0 L i Hfresh HscL oL HiL HmeshL HorigL).
Qed.

(** C9: in every state of a loaded model, whatever is highlighted and
    wherever the camera is, the effect of a selection that became null
    succeeds; it resets every mesh to its original material, whose look
    is that of the snapshot, leaves no mesh highlighted and every
    snapshot as it was, starts no animation and leaves the camera, the
    orbit controls and any running animation as they were. *)
Theorem deselect_resets_and_keeps_camera (st : ModelState) :
  loaded st -> ready st ->
  exists st',
    selectionEffect setHex None st = (Some tt, st') /\
    cameraPose st' = cameraPose st /\
    scene st' = resetObject <$> scene st /\
    unhighlighted st' /\
    (forall j o, scene st' !! j = Some o -> Obj.isMesh o = true ->
       Obj.material o = originalMaterial (Obj.userData o) /\
       (is_Some (originalMaterial (Obj.userData o)) ->
        meshAppearance st' j = meshSnapshot st' j)) /\
    (forall j, meshSnapshot st' j = meshSnapshot st j).
Proof.
  intros Hl Hr.
  destruct (selectionEffect_spec None st Hl Hr) as (res & st' & Hrun & Hout).
  pose proof (outcome_loaded _ _ _ _ Hl Hout) as Hl'.
  destruct (outcome_at_most_one _ _ _ _ Hl Hout) as (_ & Hun & _).
  destruct Hout as (Hsk' & _ & _ & _ & Hnone).
  destruct (Hnone eq_refl) as (-> & Hsc & Hcam).
  exists st'. split; [exact Hrun|]. split; [exact Hcam|]. split; [exact Hsc|].
  split; [by apply Hun|]. split.
  - intros j o Hj Hmesh. by apply (reset_restores_snapshot st st' j o).
  - intros j. by apply skeleton_snapshot.
Qed.

(** C10: in any state reached from the load of a fresh scene by selection
    changes, handled by the effect of either model component, a further
    selection change leaves at most one mesh with a material that is not
    its original one: all objects are reset first and then at most the
    one mesh found gets a clone; after a deselection no mesh is
    highlighted. *)
Theorem at_most_one_mesh_highlighted
  (st0 : ModelState) (history : list (option SelectedPart))
  (selected : option SelectedPart) :
  fresh_scene st0 ->
  modelRef st0 = true -> isInitialLoad st0 = true ->
  truthy (loadError st0) = false ->
  (let st := runSelections (selectionEffect setHex) history (snd (setupModel st0)) in
   let res := fst (selectionEffect setHex selected st) in
   let st' := snd (selectionEffect setHex selected st) in
   selection_outcome setHex selected st res st' /\
   at_most_one_highlighted st' /\
   (selected = None -> unhighlighted st')) /\
  (let st := runSelections (selectionEffect_legacy setHex) history
               (snd (setupModel st0)) in
   let res := fst (selectionEffect_legacy setHex selected st) in
   let st' := snd (selectionEffect_legacy setHex selected st) in
   selection_outcome setHex selected st res st' /\
   at_most_one_highlighted st' /\
   (selected = None -> unhighlighted st')).
Proof.
  intros Hfresh Href Hini Herr.
  destruct (setupModel_spec st0 Hfresh Href Hini Herr)
    as (L & HrunL & HlL & HrL & HunL & HscL & HappL & HnextL & HonceL).
  rewrite HrunL. cbn [snd]. split.
  - set (st := runSelections (selectionEffect setHex) history L).
    destruct (runSelections_invariant (selectionEffect setHex)
                (fun sel s => selectionEffect_spec sel s)
                history L HlL HrL HunL) as (Hl & Hr & _).
    destruct (selectionEffect_spec selected st Hl Hr) as (res & st' & Hrun & Hout).
    rewrite Hrun. cbn [fst snd]. split; [exact Hout|].
    destruct (outcome_at_most_one _ _ _ _ Hl Hout) as (Hone & Hnone & _). auto.
  - set (st := runSelections (selectionEffect_legacy setHex) history L).
    destruct (runSelections_invariant (selectionEffect_legacy setHex)
                (fun sel s => selectionEffect_legacy_spec sel s)
                history L HlL HrL HunL) as (Hl & Hr & _).
    destruct (selectionEffect_legacy_spec selected st Hl Hr)
      as (res & st' & Hrun & Hout).
    rewrite Hrun. cbn [fst snd]. split; [exact Hout|].
    destruct (outcome_at_most_one _ _ _ _ Hl Hout) as (Hone & Hnone & _). auto.
Qed.

End HighlightFacts.

(** ** Witnesses of the highlight properties on a sample scene *)

Lemma fresh_state_is_fresh : fresh_scene fresh_state.
Proof.
  intros o Ho. unfold fresh_state, shared_material_scene in Ho. cbn [scene] in Ho.
  repeat (apply elem_of_cons in Ho as [-> | Ho];
          [repeat split; intros m [= <-]; cbn; lia|]).
  inversion Ho.
Qed.

Lemma shaft_highlighted_after_selection :
  highlighted
    (snd (selectionEffect sample_setHex (Some shaft_part)
            (runSelections (selectionEffect sample_setHex) []
               (snd (setupModel fresh_state))))) 1.
Proof.
  eexists. split; [lazy; reflexivity|]. split; [reflexivity|]. discriminate.
Qed.

Lemma highlight_then_deselect_restores_snapshot_witness :
  let atLoad := snd (setupModel fresh_state) in
  let st := runSelections (selectionEffect sample_setHex) [] atLoad in
  let st1 := snd (selectionEffect sample_setHex (Some shaft_part) st) in
  let st2 := snd (selectionEffect sample_setHex None st1) in
  highlighted st1 1 /\
  meshAppearance st1 1 = Some (highlightAppearance sample_setHex) /\
  meshAppearance st2 1 = meshAppearance fresh_state 1.
Proof.
  intros atLoad st st1 st2.
  split; [exact shaft_highlighted_after_selection|].
  pose proof (highlight_then_deselect_restores_snapshot sample_setHex
                fresh_state [] shaft_part 1 fresh_state_is_fresh
                eq_refl eq_refl eq_refl shaft_highlighted_after_selection)
    as (H1 & _ & _ & _ & H2 & _).
  split; [exact H1 | exact H2].
Defined.

Lemma highlit_state_is_loaded : loaded highlit_state.
Proof.
  intros o Ho Hmesh. unfold highlit_state in Ho. cbn [scene] in Ho.
  repeat (apply elem_of_cons in Ho as [-> | Ho];
          [first [discriminate Hmesh
                 | cbn; split; [lia | reflexivity]]|]).
  inversion Ho.
Qed.

Lemma deselect_resets_and_keeps_camera_witness :
  highlighted highlit_state 1 /\
  position (camera highlit_state) <> position (camera fresh_state) /\
  exists st',
    selectionEffect sample_setHex None highlit_state = (Some tt, st') /\
    cameraPose st' = cameraPose highlit_state /\
    unhighlighted st'.
Proof.
  split; [|split].
  - eexists. split; [reflexivity|]. split; [reflexivity|]. discriminate.
  - cbn. intros [= H _]. lra.
  - destruct (deselect_resets_and_keeps_camera sample_setHex highlit_state
                highlit_state_is_loaded (conj eq_refl eq_refl))
      as (st' & Hrun & Hcam & _ & Hun & _).
    exists st'. split; [exact Hrun|]. split; [exact Hcam | exact Hun].
Defined.

Lemma at_most_one_mesh_highlighted_witness :
  at_most_one_highlighted
    (snd (selectionEffect sample_setHex (Some shaft_part)
            (runSelections (selectionEffect sample_setHex) [Some housing_part]
               (snd (setupModel fresh_state))))) /\
  at_most_one_highlighted
    (snd (selectionEffect_legacy sample_setHex (Some shaft_part)
            (runSelections (selectionEffect_legacy sample_setHex)
               [Some housing_part] (snd (setupModel fresh_state))))).
Proof.
  destruct (at_most_one_mesh_highlighted sample_setHex fresh_state
              [Some housing_part] (Some shaft_part) fresh_state_is_fresh
              eq_refl eq_refl eq_refl) as [(_ & H1 & _) (_ & H2 & _)].
  split; [exact H1 | exact H2].
Defined.

(** * Further properties *)

(** ** Tree Builder: several roots, and ids that repeat *)

Lemma mapM_cons_Some {A B} (f : A -> option B) x l k :
  mapM f (x :: l) = Some k ->
  exists y k', f x = Some y /\ mapM f l = Some k' /\ k = y :: k'.
Proof.
  intros H. apply mapM_Some in H. inversion H as [|? y ? k' Hy Hk]; subst.
  exists y, k'. split; [exact Hy|]. split; [by apply mapM_Some | reflexivity].
Qed.

(** X1: when several records of a list with unique ids have a null
    [parent_id], the hierarchy shown is the tree of the first of them in
    list order: it holds that record and the records whose parent links
    lead to it, and neither the later roots nor any record below them. *)
Theorem hierarchy_is_the_tree_of_the_first_root
  (bom : BomData) (records : list PartRecord) (root : PartRecord)
  (others : list PartRecord) :
  assembly_tree bom = Some records ->
  NoDup (Part.id <$> records) ->
  filter (fun r => Part.parent_id r = JsNull) records = root :: others ->
  exists t,
    (forall fuel, (length records < fuel)%nat ->
       hierarchicalData fuel (Some bom) = Some (Some t)) /\
    node_item t = root /\
    (forall r, r ∈ flatten t <->
       r = root \/ exists l, ancestry records (r :: l ++ [root])) /\
    (forall o, o ∈ others -> o ∉ flatten t) /\
    (forall o r l, o ∈ others -> ancestry records (r :: l ++ [o]) ->
       r ∉ flatten t).
Proof.
  intros Hbom Hnd Hroots.
  destruct (buildTree_below records Hnd (S (length records)) [])
    as (forest & Hrun & Hitems & _); [by left | simpl; lia |].
  change (parentRef []) with JsNull in Hrun.
  pose proof Hrun as Hrun'. simpl in Hrun'. rewrite Hroots in Hrun'.
  apply mapM_cons_Some in Hrun' as (t & rest & Ht & _ & ->).
  destruct (buildTree records (length records) (JsNumber (Part.id root)))
    as [children|] eqn:Hchildren; [|discriminate]. simpl in Ht.
  injection Ht as <-.
  assert (Hrootin : root ∈ records /\ Part.parent_id root = JsNull).
  { assert (root ∈ filter (fun r => Part.parent_id r = JsNull) records) as Hin
      by (rewrite Hroots; left).
    rewrite list_elem_of_filter in Hin. tauto. }
  assert (Hanc : ancestry records [root]) by (apply ancestry_root; tauto).
  destruct (buildTree_below records Hnd (length records) [root])
    as (children' & Hrunc & _ & Hmem & _); [by right | simpl; lia |].
  simpl in Hrunc. rewrite Hchildren in Hrunc. injection Hrunc as <-.
  assert (Hflat : forall r, r ∈ flatten (Node root children) <->
            r = root \/ exists l, ancestry records (r :: l ++ [root])).
  { intros r. simpl. rewrite elem_of_cons, Hmem. reflexivity. }
  assert (Hnd' : NoDup (root :: others)).
  { rewrite <- Hroots. apply list.NoDup_filter, records_NoDup, Hnd. }
  apply list.NoDup_cons in Hnd' as [Hnotin _].
  assert (Hother : forall o, o ∈ others ->
            o ∈ records /\ Part.parent_id o = JsNull /\ o <> root).
  { intros o Ho.
    assert (o ∈ filter (fun r => Part.parent_id r = JsNull) records) as Hin
      by (rewrite Hroots; by right).
    rewrite list_elem_of_filter in Hin. destruct Hin as [Hp Hin].
    repeat split; try assumption. intros ->. contradiction. }
  exists (Node root children).
  split; [|split; [reflexivity|split; [exact Hflat|split]]].
  - intros fuel Hfuel. unfold hierarchicalData. rewrite Hbom.
    rewrite (buildTree_fuel_mono records _ fuel _ _ Hrun) by lia. reflexivity.
  - intros o Ho Hin. destruct (Hother o Ho) as (Hoin & Hp & Hne).
    apply Hflat in Hin as [-> | (l & Hl)]; [done|].
    pose proof (ancestry_root records o Hoin Hp) as Ho1.
    pose proof (ancestry_deterministic records Hnd _ _ _ Ho1 Hl) as Heq.
    destruct l; discriminate.
  - intros o r l Ho Hl Hin. destruct (Hother o Ho) as (Hoin & Hp & Hne).
    apply Hflat in Hin as [-> | (l' & Hl')].
    + pose proof (ancestry_deterministic records Hnd _ _ _ Hanc Hl) as Heq.
      destruct l; discriminate.
    + pose proof (ancestry_deterministic records Hnd _ _ _ Hl Hl') as Heq.
      apply app_inj_tail in Heq as [_ ->]. done.
Qed.

Lemma hierarchy_is_the_tree_of_the_first_root_witness :
  exists t,
    (forall fuel, (length two_root_records < fuel)%nat ->
       hierarchicalData fuel (Some (bom_of two_root_records)) = Some (Some t)) /\
    node_item t = Part.mk 1 JsNull (Some "ASSY-A") None None true true /\
    (forall o, o ∈ [Part.mk 3 JsNull (Some "ASSY-B") None None true true] ->
       o ∉ flatten t).
Proof.
  destruct (hierarchy_is_the_tree_of_the_first_root
              (bom_of two_root_records) two_root_records
              (Part.mk 1 JsNull (Some "ASSY-A") None None true true)
              [Part.mk 3 JsNull (Some "ASSY-B") None None true true])
    as (t & H1 & H2 & _ & H3 & _).
  - reflexivity.
  - apply (bool_decide_unpack _). vm_compute. exact I.
  - reflexivity.
  - exists t. split; [exact H1|]. split; [exact H2 | exact H3].
Defined.

(** X2: [buildTree] never returns on parent links that lead back into
    themselves: when every parent id of a set has a record below it whose
    own id is in the set again, the recursion from any of them runs out of
    every fuel, which is the overflow of the call stack. *)
Theorem buildTree_overflows_on_a_parent_cycle
  (tree : list PartRecord) (onCycle : JsRef -> Prop) :
  (forall parentId, onCycle parentId ->
     exists item, item ∈ tree /\ Part.parent_id item = parentId /\
                  onCycle (JsNumber (Part.id item))) ->
  forall fuel parentId, onCycle parentId ->
    buildTree tree fuel parentId = None.
Proof.
  intros Hclosed. induction fuel as [|fuel IH]; intros parentId Hon; [reflexivity|].
  destruct (Hclosed parentId Hon) as (item & Hin & Hp & Hon').
  destruct (buildTree tree (S fuel) parentId) as [forest|] eqn:Hrun; [|reflexivity].
  exfalso. simpl in Hrun. apply mapM_Some in Hrun.
  assert (item ∈ filter (fun i => Part.parent_id i = parentId) tree) as Hin'
    by (rewrite list_elem_of_filter; auto).
  destruct (Forall2_elem_of_l _ _ _ _ Hrun Hin') as (n & _ & Hn).
  rewrite (IH _ Hon') in Hn. discriminate.
Qed.

Lemma buildTree_overflows_on_a_parent_cycle_witness :
  buildTree self_parent_records 100 JsNull = None.
Proof.
  apply (buildTree_overflows_on_a_parent_cycle self_parent_records
           (fun p => p = JsNull \/ p = JsNumber 1)).
  - intros parentId [-> | ->].
    + exists (Part.mk 1 JsNull (Some "ASSY") None None true true).
      split; [left|]. split; [reflexivity | by right].
    + exists (Part.mk 1 (JsNumber 1) (Some "Loop") None None false false).
      split; [right; left|]. split; [reflexivity | by right].
  - by left.
Defined.

(** ** Search Filter as an operation on hierarchies *)

Lemma omap_id_on {A} (f : A -> option A) (l : list A) :
  Forall (fun x => f x = Some x) l -> omap f l = l.
Proof.
  induction 1 as [|x l Hx _ IH]; [done|].
  change (omap f (x :: l))
    with (match f x with Some y => y :: omap f l | None => omap f l end).
  by rewrite Hx, IH.
Qed.

Lemma filterNode_fixpoint test : forall node node',
  filterNode test node = Some node' -> filterNode test node' = Some node'.
Proof.
  induction node as [item children IH] using AssemblyNode_nested_ind.
  intros node' Hf. rewrite filterNode_unfold in Hf.
  destruct (test item || _)%bool eqn:Hkeep; [|discriminate].
  injection Hf as <-. rewrite filterNode_unfold.
  assert (omap (filterNode test) (omap (filterNode test) children)
          = omap (filterNode test) children) as ->.
  { apply omap_id_on. apply list.Forall_forall. intros c' Hc'.
    apply list_elem_of_omap in Hc' as (c & Hc & Hfc).
    rewrite list.Forall_forall in IH. by apply (IH c Hc). }
  by rewrite Hkeep.
Qed.

Lemma sublist_flat_map_omap {A B} (f : A -> option A) (g : A -> list B) l :
  Forall (fun x => forall y, f x = Some y -> sublist (g y) (g x)) l ->
  sublist (flat_map g (omap f l)) (flat_map g l).
Proof.
  induction 1 as [|x l Hx _ IH]; [constructor|].
  change (omap f (x :: l))
    with (match f x with Some y => y :: omap f l | None => omap f l end).
  destruct (f x) as [y|] eqn:Hfx; simpl.
  - apply sublist_app; [by apply Hx | exact IH].
  - by apply sublist_inserts_l.
Qed.

Lemma filterNode_sublist test : forall node node',
  filterNode test node = Some node' -> sublist (flatten node') (flatten node).
Proof.
  induction node as [item children IH] using AssemblyNode_nested_ind.
  intros node' Hf. rewrite filterNode_unfold in Hf.
  destruct (test item || _)%bool; [|discriminate]. injection Hf as <-.
  simpl. apply sublist_skip. by apply sublist_flat_map_omap.
Qed.

Lemma filterNode_all_match test : forall node,
  (forall r, r ∈ flatten node -> test r = true) ->
  filterNode test node = Some node.
Proof.
  induction node as [item children IH] using AssemblyNode_nested_ind.
  intros Hall. rewrite filterNode_unfold.
  rewrite (Hall item) by left. simpl. do 2 f_equal.
  apply omap_id_on. apply list.Forall_forall. intros c Hc.
  rewrite list.Forall_forall in IH. apply (IH c Hc).
  intros r Hr. apply Hall. simpl. right. apply elem_of_flat_map. eauto.
Qed.

(** X3: filtering is idempotent (the filtered hierarchy filtered again
    with the same query is itself); the records it keeps are a
    subsequence of the records of the hierarchy, in the same order and
    none added, so a hierarchy without repeated records stays so; and a
    query that every record matches gives the hierarchy back.  The
    statement is over the match test, so it covers both tree views. *)
Theorem searchFilter_is_idempotent_and_keeps_order
  (test : string -> PartRecord -> bool) (searchQuery : string)
  (hierarchy : option AssemblyNode) :
  filteredData test searchQuery (filteredData test searchQuery hierarchy)
    = filteredData test searchQuery hierarchy /\
  (forall root kept,
     hierarchy = Some root ->
     filteredData test searchQuery hierarchy = Some kept ->
     sublist (flatten kept) (flatten root) /\
     (NoDup (flatten root) -> NoDup (flatten kept)) /\
     (length (flatten kept) <= length (flatten root))%nat) /\
  (forall root,
     hierarchy = Some root ->
     (forall r, r ∈ flatten root -> test searchQuery r = true) ->
     filteredData test searchQuery hierarchy = hierarchy).
Proof.
  split; [|split].
  - unfold filteredData. destruct (String.eqb searchQuery ""); [reflexivity|].
    destruct hierarchy as [root|]; [|reflexivity].
    destruct (filterNode (test searchQuery) root) as [kept|] eqn:Hf; [|reflexivity].
    by apply filterNode_fixpoint with root.
  - intros root kept -> Hkept.
    assert (Hsub : sublist (flatten kept) (flatten root)).
    { unfold filteredData in Hkept.
      destruct (String.eqb searchQuery ""); [by injection Hkept as -> |].
      by apply (filterNode_sublist (test searchQuery)). }
    split; [exact Hsub|]. split.
    + intros Hnd. eapply sublist_NoDup; eauto.
    + by apply sublist_length.
  - intros root -> Hall. unfold filteredData.
    destruct (String.eqb searchQuery ""); [reflexivity|].
    by apply filterNode_all_match.
Qed.

(** ** Expansion of the tree views *)

Lemma find_by_id tree r :
  NoDup (Part.id <$> tree) -> r ∈ tree ->
  List.find (fun i => Z.eqb (Part.id i) (Part.id r)) tree = Some r.
Proof.
  intros Hnd Hr.
  destruct (List.find (fun i => Z.eqb (Part.id i) (Part.id r)) tree) as [x|] eqn:Hf.
  - apply find_first in Hf as (Hx & before & after & Heq & _).
    apply Z.eqb_eq in Hx. f_equal.
    apply (same_id_same_record tree Hnd); [|exact Hr|exact Hx].
    rewrite Heq. apply elem_of_app. right. left.
  - exfalso. rewrite find_None_iff in Hf. specialize (Hf r Hr).
    rewrite Z.eqb_refl in Hf. discriminate.
Qed.

Lemma flatten_path : forall n x,
  x ∈ flatten n -> exists p, path_in n p /\ list.last p = Some x.
Proof.
  induction n as [item children IH] using AssemblyNode_nested_ind.
  intros x Hx. simpl in Hx. apply elem_of_cons in Hx as [-> | Hx].
  - exists [item]. split; [constructor | reflexivity].
  - apply elem_of_flat_map in Hx as (c & Hc & Hx).
    rewrite list.Forall_forall in IH.
    destruct (IH c Hc x Hx) as (p & Hp & Hlast).
    exists (item :: p). split; [by apply path_down with c|].
    destruct p; [inversion Hp | exact Hlast].
Qed.

Lemma path_elem_flatten n p : path_in n p -> forall x, x ∈ p -> x ∈ flatten n.
Proof.
  induction 1 as [item children | item children c p Hc Hp IH]; intros x Hx.
  - apply list_elem_of_singleton in Hx as ->. left.
  - apply elem_of_cons in Hx as [-> | Hx]; [left|].
    simpl. right. apply elem_of_flat_map. eauto.
Qed.

Lemma filterNode_path_back test : forall node node' p,
  filterNode test node = Some node' -> path_in node' p -> path_in node p.
Proof.
  induction node as [item children IH] using AssemblyNode_nested_ind.
  intros node' p Hf Hp. rewrite filterNode_unfold in Hf.
  destruct (test item || _)%bool; [|discriminate]. injection Hf as <-.
  inversion Hp as [? ? | ? ? c' p' Hc' Hp']; subst; [constructor|].
  apply list_elem_of_omap in Hc' as (c & Hc & Hfc).
  rewrite list.Forall_forall in IH.
  apply path_down with c; [exact Hc|]. by apply (IH c Hc c').
Qed.

(** A path of a well linked hierarchy, read upwards, is a chain of
    ancestors. *)
Lemma path_ancestry tree n p :
  path_in n p -> forall ctx,
  well_linked (parentRef ctx) n ->
  ctx = [] \/ ancestry tree ctx ->
  (forall x, x ∈ p -> x ∈ tree) ->
  ancestry tree (rev p ++ ctx).
Proof.
  induction 1 as [item children | item children c p Hc Hp IH];
    intros ctx Hwl Hctx Hin.
  - simpl. apply ancestry_extend; [exact Hctx | apply Hin; left|].
    apply well_linked_node in Hwl. tauto.
  - apply well_linked_node in Hwl as [Hpar Hch].
    rewrite list.Forall_forall in Hch.
    simpl. rewrite <- app_assoc. simpl.
    apply (IH (item :: ctx)).
    + simpl. by apply Hch.
    + right. apply ancestry_extend; [exact Hctx | apply Hin; left | exact Hpar].
    + intros x Hx. apply Hin. by right.
Qed.

Lemma hierarchy_linked tree fuel forest :
  NoDup (Part.id <$> tree) ->
  buildTree tree fuel JsNull = Some forest ->
  forest_below tree [] forest.
Proof.
  intros Hnd Hrun.
  destruct (buildTree_below tree Hnd (S (length tree)) [])
    as (forest' & Hrun' & Hbelow); [by left | simpl; lia |].
  change (parentRef []) with JsNull in Hrun'.
  assert (forest = forest') as ->; [|exact Hbelow].
  pose proof (buildTree_fuel_mono tree fuel (fuel + S (length tree)) _ _ Hrun
                ltac:(lia)) as H1.
  pose proof (buildTree_fuel_mono tree _ (fuel + S (length tree)) _ _ Hrun'
                ltac:(lia)) as H2.
  congruence.
Qed.

Section ExpansionFacts.

Import gmap.

Local Open Scope Z_scope.

(** X4: [toggleExpanded] applied twice to the same node gives the set of
    expanded nodes back; one application changes the membership of that
    node and of no other. *)
Theorem toggleExpanded_involution (nodeId : Z) (expandedNodes : gset Z) :
  toggleExpanded nodeId (toggleExpanded nodeId expandedNodes) = expandedNodes /\
  (nodeId ∈ toggleExpanded nodeId expandedNodes <-> nodeId ∉ expandedNodes) /\
  (forall other, other <> nodeId ->
     (other ∈ toggleExpanded nodeId expandedNodes <-> other ∈ expandedNodes)).
Proof.
  unfold toggleExpanded. split; [|split].
  - destruct (decide (nodeId ∈ expandedNodes)) as [Hin|Hout].
    + rewrite decide_False by set_solver.
      apply set_eq. intros y. destruct (decide (y = nodeId)); set_solver.
    + rewrite decide_True by set_solver.
      apply set_eq. intros y. destruct (decide (y = nodeId)); set_solver.
  - destruct (decide (nodeId ∈ expandedNodes)); set_solver.
  - intros other Hne. destruct (decide (nodeId ∈ expandedNodes)); set_solver.
Qed.

(** The recursion along a chain of ancestors: it adds the ids of the
    ancestors up to the root, or up to the first ancestor whose id is 0. *)
Lemma expandParents_chain tree :
  NoDup (Part.id <$> tree) ->
  forall l1 l2 r fuel expandedNodes,
  ancestry tree (r :: l1 ++ l2) ->
  Forall (fun p => Part.id p <> 0) l1 ->
  (l2 = [] \/ exists p rest, l2 = p :: rest /\ Part.id p = 0) ->
  (length l1 < fuel)%nat ->
  expandParents tree fuel (Part.id r) expandedNodes
  = Some (list_to_set (Part.id <$> l1) ∪ expandedNodes).
Proof.
  intros Hnd. induction l1 as [|p l1 IH]; intros l2 r fuel e Hanc Hnz Hstop Hfuel.
  - destruct fuel as [|fuel]; [simpl in Hfuel; lia|]. simpl.
    rewrite (find_by_id tree r Hnd) by (eapply ancestry_elem; [exact Hanc | left]).
    simpl in Hanc. apply ancestry_head_parent in Hanc as [_ Hp].
    rewrite Hp. destruct Hstop as [-> | (p & rest & -> & Hzero)]; simpl.
    + f_equal. set_solver.
    + rewrite Hzero. simpl. f_equal. set_solver.
  - destruct fuel as [|fuel]; [simpl in Hfuel; lia|]. simpl.
    rewrite (find_by_id tree r Hnd) by (eapply ancestry_elem; [exact Hanc | left]).
    inversion Hanc as [| ? ? ? Hr Hp Hrest]; subst.
    rewrite Hp. inversion Hnz as [|? ? Hpz Hnz']; subst.
    destruct (Z.eqb (Part.id p) 0) eqn:He; [apply Z.eqb_eq in He; contradiction|].
    rewrite (IH l2 p fuel _ Hrest Hnz' Hstop) by (simpl in Hfuel; lia).
    f_equal. set_solver.
Qed.

(** A row is rendered when all nodes above it on its path are expanded. *)
Lemma TreeNode_path (expandedNodes : gset Z) n p :
  path_in n p -> forall r,
  list.last p = Some r ->
  (forall x, x ∈ removelast p -> Part.id x ∈ expandedNodes) ->
  r ∈ TreeNode expandedNodes n.
Proof.
  induction 1 as [item children | item children c p Hc Hp IH]; intros r Hlast Hexp.
  - simpl in Hlast. injection Hlast as <-. simpl. left.
  - assert (p <> []) as Hne by (intros ->; inversion Hp).
    assert (list.last p = Some r) as Hlast'.
    { destruct p; [done | exact Hlast]. }
    assert (removelast (item :: p) = item :: removelast p) as Hrm.
    { destruct p; [done | reflexivity]. }
    rewrite Hrm in Hexp.
    simpl. right.
    assert ((0 <? length children)%nat = true) as ->.
    { apply Nat.ltb_lt. destruct children; [inversion Hc | simpl; lia]. }
    rewrite bool_decide_eq_true_2 by (apply Hexp; left). simpl.
    apply elem_of_flat_map. exists c. split; [exact Hc|].
    apply IH; [exact Hlast'|]. intros x Hx. apply Hexp. by right.
Qed.

(** X5: for records with unique ids, when the record found for the
    selection has the chain of ancestors [l1 ++ l2] up to the root, no
    ancestor in [l1] has id 0 and [l2] is empty or starts with an ancestor
    of id 0, the auto-expand effect returns (with fuel beyond the length
    of [l1]) and leaves expanded exactly what was expanded, the record
    found and the ancestors in [l1]: an ancestor with id 0 stops the walk,
    since its id is falsy as a [parent_id]. *)
Theorem autoExpand_adds_ancestor_chain
  (bom : BomData) (tree : list PartRecord) (sp : SelectedPart)
  (r : PartRecord) (l1 l2 : list PartRecord) (expandedNodes : gset Z) :
  assembly_tree bom = Some tree ->
  NoDup (Part.id <$> tree) ->
  selectedItem sp tree = Some r ->
  ancestry tree (r :: l1 ++ l2) ->
  Forall (fun p => Part.id p <> 0) l1 ->
  (l2 = [] \/ exists p rest, l2 = p :: rest /\ Part.id p = 0) ->
  forall fuel, (length l1 < fuel)%nat ->
    autoExpand fuel (Some sp) (Some bom) expandedNodes
    = Some ({[ Part.id r ]} ∪ list_to_set (Part.id <$> l1) ∪ expandedNodes).
Proof.
  intros Hbom Hnd Hfind Hanc Hnz Hstop fuel Hfuel.
  unfold autoExpand. simpl. rewrite Hbom, Hfind.
  rewrite (expandParents_chain tree Hnd l1 l2 r fuel _ Hanc Hnz Hstop Hfuel).
  simpl. f_equal. set_solver.
Qed.

(** X6: for records with unique ids, when the record found for the
    selection is the one with the id of the selected part, its ancestors
    up to the root have ids other than 0 and the record is in the
    hierarchy that the tree view shows (the hierarchy of [buildTree],
    filtered by the search query), then after the auto-expand effect the
    row of that record is rendered, and nothing that was expanded has
    been collapsed. *)
Theorem autoExpand_reveals_selected_row
  (bom : BomData) (tree : list PartRecord) (sp : SelectedPart)
  (r : PartRecord) (l : list PartRecord) (treeFuel : nat)
  (hierarchy shown : AssemblyNode)
  (test : string -> PartRecord -> bool) (searchQuery : string)
  (expandedNodes : gset Z) :
  assembly_tree bom = Some tree ->
  NoDup (Part.id <$> tree) ->
  selectedItem sp tree = Some r ->
  Sel.id sp = IdNum (Part.id r) ->
  ancestry tree (r :: l) ->
  Forall (fun p => Part.id p <> 0) l ->
  hierarchicalData treeFuel (Some bom) = Some (Some hierarchy) ->
  filteredData test searchQuery (Some hierarchy) = Some shown ->
  r ∈ flatten shown ->
  forall fuel, (length l < fuel)%nat ->
  exists expanded',
    autoExpand fuel (Some sp) (Some bom) expandedNodes = Some expanded' /\
    expandedNodes ⊆ expanded' /\
    r ∈ TreeNode expanded' shown.
Proof.
  intros Hbom Hnd Hfind Hid Hanc Hnz Hhier Hshown Hr fuel Hfuel.
  assert (Hrun : autoExpand fuel (Some sp) (Some bom) expandedNodes
                 = Some ({[ Part.id r ]} ∪ list_to_set (Part.id <$> l)
                         ∪ expandedNodes)).
  { unfold autoExpand. simpl. rewrite Hbom, Hfind.
    rewrite (expandParents_chain tree Hnd l [] r fuel expandedNodes);
      [simpl; f_equal; set_solver | by rewrite app_nil_r | exact Hnz
       | by left | exact Hfuel]. }
  eexists. split; [exact Hrun|]. split; [set_solver|].
  (* the hierarchy is the one of the tree builder *)
  unfold hierarchicalData in Hhier. rewrite Hbom in Hhier.
  destruct (buildTree tree treeFuel JsNull) as [forest|] eqn:Hbuild; [|discriminate].
  simpl in Hhier. injection Hhier as Hhead.
  destruct (hierarchy_linked tree treeFuel forest Hnd Hbuild)
    as (_ & Hmem & _ & Hlinks).
  destruct forest as [|t forest]; [discriminate|]. injection Hhead as ->.
  apply list.Forall_cons in Hlinks as [Hlinked _].
  (* a path to the record in the tree shown is a path of the hierarchy *)
  destruct (flatten_path shown r Hr) as (p & Hp & Hlast).
  assert (path_in hierarchy p) as Hp'.
  { unfold filteredData in Hshown.
    destruct (String.eqb searchQuery ""); [by injection Hshown as -> |].
    by apply (filterNode_path_back (test searchQuery) hierarchy shown). }
  assert (ancestry tree (rev p ++ [])) as Hchain.
  { apply (path_ancestry tree hierarchy p Hp' []); [exact Hlinked | by left |].
    intros x Hx. pose proof (path_elem_flatten _ _ Hp' x Hx) as Hx'.
    destruct (proj1 (Hmem x)) as (l' & Hl').
    { simpl. apply elem_of_app. by left. }
    eapply ancestry_elem; [exact Hl' | left]. }
  rewrite app_nil_r in Hchain.
  (* so its proper part is the chain of ancestors *)
  assert (exists q, p = q ++ [r]) as (q & ->).
  { destruct p as [|x p] using rev_ind; [inversion Hp|].
    rewrite last_snoc in Hlast. injection Hlast as ->. eauto. }
  rewrite rev_app_distr in Hchain. simpl in Hchain.
  pose proof (ancestry_deterministic tree Hnd _ _ _ Hchain Hanc) as Hq.
  apply (TreeNode_path _ shown (q ++ [r]) Hp r Hlast).
  intros x Hx. rewrite removelast_last in Hx.
  assert (x ∈ l) as Hxl.
  { rewrite <- Hq. rewrite list_elem_of_In, <- in_rev, <- list_elem_of_In. exact Hx. }
  assert (Part.id x ∈ Part.id <$> l) by (apply list_elem_of_fmap; eauto).
  set_solver.
Qed.

(** The recursion on parent links that lead back into themselves. *)
Lemma expandParents_cycle (tree : list PartRecord) (onCycle : Z -> Prop) :
  (forall id, onCycle id ->
     exists item p,
       List.find (fun i => Z.eqb (Part.id i) id) tree = Some item /\
       Part.parent_id item = JsNumber p /\ p <> 0 /\ onCycle p) ->
  forall fuel itemId expandedNodes, onCycle itemId ->
    expandParents tree fuel itemId expandedNodes = None.
Proof.
  intros Hclosed. induction fuel as [|fuel IH]; intros itemId e Hon; [reflexivity|].
  destruct (Hclosed itemId Hon) as (item & p & Hfind & Hp & Hnz & Hon').
  simpl. rewrite Hfind, Hp.
  destruct (Z.eqb p 0) eqn:He; [apply Z.eqb_eq in He; contradiction|].
  by apply IH.
Qed.

(** X7: the auto-expand effect never returns when the parent links of
    the record found lead back into themselves (a record that is its own
    parent, or a longer cycle): [expandParents] runs out of every fuel,
    which is the overflow of the call stack. *)
Theorem autoExpand_overflows_on_a_parent_cycle
  (bom : BomData) (tree : list PartRecord) (sp : SelectedPart)
  (r : PartRecord) (onCycle : Z -> Prop) :
  assembly_tree bom = Some tree ->
  selectedItem sp tree = Some r ->
  (forall id, onCycle id ->
     exists item p,
       List.find (fun i => Z.eqb (Part.id i) id) tree = Some item /\
       Part.parent_id item = JsNumber p /\ p <> 0 /\ onCycle p) ->
  onCycle (Part.id r) ->
  forall fuel expandedNodes,
    autoExpand fuel (Some sp) (Some bom) expandedNodes = None.
Proof.
  intros Hbom Hfind Hclosed Hon fuel e.
  unfold autoExpand. simpl. rewrite Hbom, Hfind.
  by rewrite (expandParents_cycle tree onCycle Hclosed fuel).
Qed.

End ExpansionFacts.

Lemma sample_ancestry_of_shaft :
  ancestry sample_records
    [ Part.mk 2 (JsNumber 1) (Some "Shaft") (Some "Shaft-01") None false false;
      Part.mk 1 JsNull (Some "ASSY") None None true true ].
Proof.
  apply ancestry_child; [right; left | reflexivity|].
  apply ancestry_root; [left | reflexivity].
Qed.

Lemma autoExpand_adds_ancestor_chain_witness :
  autoExpand 2 (Some shaft_part) (Some sample_bom) initialExpandedNodes
  = Some ({[ 2%Z ]} ∪ list_to_set [1%Z] ∪ initialExpandedNodes).
Proof.
  apply (autoExpand_adds_ancestor_chain sample_bom sample_records shaft_part
           (Part.mk 2 (JsNumber 1) (Some "Shaft") (Some "Shaft-01") None false false)
           [Part.mk 1 JsNull (Some "ASSY") None None true true] []).
  - reflexivity.
  - apply (bool_decide_unpack _). vm_compute. exact I.
  - reflexivity.
  - exact sample_ancestry_of_shaft.
  - repeat constructor. discriminate.
  - by left.
  - simpl. lia.
Defined.

Lemma autoExpand_reveals_selected_row_witness :
  exists expanded',
    autoExpand 2 (Some shaft_part) (Some sample_bom) initialExpandedNodes
      = Some expanded' /\
    initialExpandedNodes ⊆ expanded' /\
    Part.mk 2 (JsNumber 1) (Some "Shaft") (Some "Shaft-01") None false false
      ∈ TreeNode expanded' sample_hierarchy.
Proof.
  apply (autoExpand_reveals_selected_row sample_bom sample_records shaft_part
           (Part.mk 2 (JsNumber 1) (Some "Shaft") (Some "Shaft-01") None false false)
           [Part.mk 1 JsNull (Some "ASSY") None None true true]
           5 sample_hierarchy sample_hierarchy matches "").
  - reflexivity.
  - apply (bool_decide_unpack _). vm_compute. exact I.
  - reflexivity.
  - reflexivity.
  - exact sample_ancestry_of_shaft.
  - repeat constructor. discriminate.
  - vm_compute. reflexivity.
  - reflexivity.
  - simpl. right. left.
  - simpl. lia.
Defined.

Lemma autoExpand_overflows_on_a_parent_cycle_witness :
  autoExpand 1000 (Some (treeNodeClick looping_part))
    (Some (bom_of [looping_part])) initialExpandedNodes = None.
Proof.
  apply (autoExpand_overflows_on_a_parent_cycle (bom_of [looping_part])
           [looping_part] (treeNodeClick looping_part) looping_part
           (fun id => id = 5%Z)).
  - reflexivity.
  - reflexivity.
  - intros id ->. exists looping_part, 5%Z. repeat split. discriminate.
  - reflexivity.
Defined.

(** ** Click listener of [setupInteractions] *)

Section ClickFacts.

Context {Ref : Type} `{EqDecision Ref}.

Implicit Types (s : ClickState Ref) (evs : list (PointerEvent Ref)).

Lemma clearTimeout_single (timer : nat) (intersects : list Ref) :
  clearTimeout (Some timer) [(timer, intersects)] = [].
Proof.
  unfold clearTimeout. rewrite filter_cons_False; [reflexivity|].
  simpl. intros Hne. by apply Hne.
Qed.

Lemma clearTimeout_other (timer other : nat) (intersects : list Ref) :
  other <> timer ->
  List.find (fun t : nat * list Ref => Nat.eqb (fst t) other) [(timer, intersects)]
  = None.
Proof.
  intros Hne. simpl. destruct (Nat.eqb timer other) eqn:He; [|reflexivity].
  apply Nat.eqb_eq in He. congruence.
Qed.

(** One event in a state that is idle or awaits a second click. *)
Lemma handleEvent_cases ev s :
  idle s \/ awaiting s ->
  let calls := fst (handleEvent ev s) in
  let s' := snd (handleEvent ev s) in
  (idle s' \/ awaiting s') /\
  (length calls + length (scheduled s')
   <= length (clicks [ev]) + length (scheduled s))%nat /\
  (length (clicks [ev]) + length (scheduled s)
   <= 2 * length calls + length (scheduled s'))%nat /\
  (forall x, x ∈ (call_intersects <$> calls) ++ (snd <$> scheduled s') ->
     x ∈ clicks [ev] ++ (snd <$> scheduled s)).
Proof.
  intros [(Hc & Hs & Hl) | (a & timer & Hc & Hs & Ht & Hl)];
    destruct ev as [i | t]; simpl.
  - (* a click while idle *)
    unfold handleClick. rewrite Hc, Hs. simpl.
    split; [right; exists i, (nextTimerId s); auto|].
    split; [lia|]. split; [lia|]. auto.
  - (* a timer while idle: none is scheduled *)
    unfold timerCallback. rewrite Hs. simpl.
    split; [left; done|]. rewrite ?Hs. simpl.
    split; [lia|]. split; [lia|]. auto.
  - (* the second click *)
    unfold handleClick. rewrite Hc, Hs, Ht. simpl.
    rewrite clearTimeout_single.
    destruct (bool_decide (head i = lastClickedObject s)); simpl;
      (split; [left; done|]); (split; [lia|]); (split; [lia|]);
      intros x Hin; apply list_elem_of_singleton in Hin as ->; left.
  - (* a timer while a click is awaited *)
    unfold timerCallback. rewrite Hs.
    destruct (decide (t = timer)) as [-> | Hne].
    + simpl. rewrite Nat.eqb_refl. simpl. rewrite ?Hs, clearTimeout_single.
      split; [left; done|]. simpl. split; [lia|]. split; [lia|]. auto.
    + rewrite clearTimeout_other by exact Hne. simpl. rewrite ?Hs. simpl.
      split; [right; exists a, timer; auto|].
      split; [lia|]. split; [lia|]. auto.
Qed.

Lemma clicks_cons ev evs : clicks (ev :: evs) = clicks [ev] ++ clicks evs.
Proof. unfold clicks. simpl. destruct ev; reflexivity. Qed.

Lemma handleEvents_invariant evs : forall s,
  idle s \/ awaiting s ->
  let calls := fst (handleEvents evs s) in
  let s' := snd (handleEvents evs s) in
  (idle s' \/ awaiting s') /\
  (length calls + length (scheduled s')
   <= length (clicks evs) + length (scheduled s))%nat /\
  (length (clicks evs) + length (scheduled s)
   <= 2 * length calls + length (scheduled s'))%nat /\
  (forall x, x ∈ (call_intersects <$> calls) ++ (snd <$> scheduled s') ->
     x ∈ clicks evs ++ (snd <$> scheduled s)).
Proof.
  induction evs as [|ev evs IH]; intros s Hinv.
  - simpl. split; [exact Hinv|]. split; [lia|]. split; [lia|]. auto.
  - destruct (handleEvent_cases ev s Hinv) as (Hinv1 & Hle1 & Hge1 & Hin1).
    cbn [handleEvents]. destruct (handleEvent ev s) as [calls1 s1] eqn:Hstep.
    cbn [fst snd] in Hinv1, Hle1, Hge1, Hin1.
    destruct (IH s1 Hinv1) as (Hinv2 & Hle2 & Hge2 & Hin2).
    destruct (handleEvents evs s1) as [calls2 s2] eqn:Hrun.
    cbn [fst snd] in Hinv2, Hle2, Hge2, Hin2. cbn [fst snd].
    rewrite clicks_cons. rewrite !length_app.
    split; [exact Hinv2|]. split; [lia|]. split; [lia|].
    intros x Hin. rewrite fmap_app, <- app_assoc in Hin.
    rewrite <- app_assoc.
    apply elem_of_app in Hin as [Hin | Hin].
    + assert (x ∈ clicks [ev] ++ (snd <$> scheduled s)) as Hx
        by (apply Hin1, elem_of_app; by left).
      rewrite !elem_of_app in *. tauto.
    + apply Hin2 in Hin. apply elem_of_app in Hin as [Hin | Hin].
      * rewrite !elem_of_app. tauto.
      * assert (x ∈ clicks [ev] ++ (snd <$> scheduled s)) as Hx
          by (apply Hin1, elem_of_app; by right).
        rewrite !elem_of_app in *. tauto.
Qed.


Lemma handleEvents_app evs1 evs2 s :
  handleEvents (evs1 ++ evs2) s
  = (fst (handleEvents evs1 s)
       ++ fst (handleEvents evs2 (snd (handleEvents evs1 s))),
     snd (handleEvents evs2 (snd (handleEvents evs1 s)))).
Proof.
  revert s. induction evs1 as [|ev evs1 IH]; intros s.
  - simpl. by destruct (handleEvents evs2 s).
  - cbn [app handleEvents]. destruct (handleEvent ev s) as [c1 s1].
    rewrite IH. destruct (handleEvents evs1 s1) as [c2 s2]. cbn [fst snd].
    by rewrite app_assoc.
Qed.

Lemma two_clicks a b s :
  idle s ->
  fst (handleEvents [Click a; Click b] s)
    = [if bool_decide (head b = head a) then DoubleClick b else SingleClick b] /\
  idle (snd (handleEvents [Click a; Click b] s)).
Proof.
  intros (Hc & Hs & Hl). cbn [handleEvents handleEvent].
  unfold handleClick. rewrite Hc, Hs. cbn -[clearTimeout].
  rewrite clearTimeout_single.
  destruct (bool_decide (head b = head a)); cbn; split; done.
Qed.

(** X8: from the initial state of the listener and for every sequence
    of clicks and timer expiries, the listener is idle or waits for one
    second click with exactly one timer scheduled; every click is either
    pending or was used up by a handler call, a call uses up one click or
    two, and each call hands over the intersection list of one of the
    clicks. *)
Theorem click_listener_accounting evs :
  let calls := fst (handleEvents evs initialClickState) in
  let s := snd (handleEvents evs initialClickState) in
  (idle s \/ awaiting s) /\
  (length (scheduled s) <= 1)%nat /\
  (length calls + length (scheduled s) <= length (clicks evs))%nat /\
  (length (clicks evs) <= 2 * length calls + length (scheduled s))%nat /\
  (forall c, c ∈ calls -> call_intersects c ∈ clicks evs) /\
  (forall t, t ∈ scheduled s -> snd t ∈ clicks evs).
Proof.
  destruct (handleEvents_invariant evs initialClickState)
    as (Hinv & Hle & Hge & Hin); [left; done|].
  cbn zeta. simpl in Hle, Hge, Hin. rewrite app_nil_r in Hin.
  split; [exact Hinv|]. split.
  { destruct Hinv as [(_ & -> & _) | (a & t & _ & -> & _)]; simpl; lia. }
  split; [lia|]. split; [lia|]. split.
  - intros c Hc. apply Hin, elem_of_app. left. apply list_elem_of_fmap. eauto.
  - intros t Ht. apply Hin, elem_of_app. right. apply list_elem_of_fmap. eauto.
Qed.

(** X9: from an idle state, clicks on the same object that follow each
    other before the timer expires are taken in pairs: [2k] clicks make
    [k] calls of [handleDoubleClick] and none of [handleSingleClick], one
    more click is left waiting for its timer; two quick clicks on
    different objects make one call of [handleSingleClick] for the second
    one, and the first click is never handled; a click whose timer
    expires makes one call of [handleSingleClick]. *)
Theorem rapid_clicks_pair_up (s : ClickState Ref) (a b : list Ref) (k : nat) :
  idle s ->
  (fst (handleEvents (repeat (Click a) (2 * k)) s) = repeat (DoubleClick a) k /\
   idle (snd (handleEvents (repeat (Click a) (2 * k)) s))) /\
  (fst (handleEvents (repeat (Click a) (2 * k + 1)) s) = repeat (DoubleClick a) k /\
   awaiting (snd (handleEvents (repeat (Click a) (2 * k + 1)) s)) /\
   (snd <$> scheduled (snd (handleEvents (repeat (Click a) (2 * k + 1)) s))) = [a]) /\
  (head b <> head a ->
   fst (handleEvents [Click a; Click b] s) = [SingleClick b] /\
   idle (snd (handleEvents [Click a; Click b] s))) /\
  fst (handleEvents [Click a; TimerExpires (nextTimerId s)] s) = [SingleClick a].
Proof.
  intros Hidle.
  assert (Heven : forall n s0, idle s0 ->
            fst (handleEvents (repeat (Click a) (2 * n)) s0)
              = repeat (DoubleClick a) n /\
            idle (snd (handleEvents (repeat (Click a) (2 * n)) s0))).
  { induction n as [|n IH]; intros s0 H0; [split; [reflexivity | exact H0]|].
    replace (2 * S n)%nat with (2 + 2 * n)%nat by lia.
    rewrite repeat_app, handleEvents_app. cbn [fst snd].
    change (repeat (Click a) 2) with [Click a; Click a].
    destruct (two_clicks a a s0 H0) as [Hcalls Hidle'].
    rewrite bool_decide_eq_true_2 in Hcalls by reflexivity.
    rewrite Hcalls. destruct (IH _ Hidle') as [-> Hidle'']. split; done. }
  split; [by apply Heven|]. split; [|split].
  - rewrite repeat_app, handleEvents_app. cbn [fst snd].
    destruct (Heven k s Hidle) as [-> (Hc & Hs & Hl)].
    change (repeat (Click a) 1) with [Click a].
    cbn [handleEvents handleEvent]. unfold handleClick. rewrite Hc, Hs. cbn.
    rewrite app_nil_r. split; [reflexivity|]. split; [|reflexivity].
    eexists a, _. cbn. done.
  - intros Hne. destruct (two_clicks a b s Hidle) as [Hcalls Hidle'].
    rewrite bool_decide_eq_false_2 in Hcalls by exact Hne. done.
  - destruct Hidle as (Hc & Hs & Hl). cbn [handleEvents handleEvent].
    unfold handleClick. rewrite Hc, Hs. cbn. unfold timerCallback. cbn.
    by rewrite Nat.eqb_refl.
Qed.

Variable object : Ref -> Object3D.

(** X10: the listeners are set up once, with the selection and the
    [onPartSelect] of that render.  When nothing was selected then, a
    double click is handled as a single click, a click on any object hands
    a part (never [null]) to [onPartSelect], and the part handed over
    becomes the selection whatever is selected at that moment: a click
    from the scene on the part that is selected leaves it selected, where
    [handlePartSelect] with the current selection (as the tree view
    calls it) would clear it. *)
Theorem scene_listeners_keep_load_time_selection
  (bomData : option BomData) (call : HandlerCall Ref) (app : AppState) :
  let part := dispatch object None bomData call in
  part = handleSingleClick bomData (object <$> call_intersects call) /\
  (call_intersects call <> [] -> is_Some part) /\
  selectedPart (handlePartSelect_closure None part app) = part /\
  (forall current p,
     selectedPart app = Some current -> part = Some p ->
     Sel.id p = Sel.id current ->
     selectedPart (handlePartSelect_closure None part app) = Some p /\
     selectedPart (handlePartSelect part app) = None) /\
  (forall closed, closed = selectedPart app ->
     handlePartSelect_closure closed part app = handlePartSelect part app).
Proof.
  cbn zeta. split; [|split; [|split; [|split]]].
  - destruct call as [i | i]; [reflexivity|]. simpl.
    unfold handleDoubleClick. destruct (object <$> i); reflexivity.
  - intros Hne. destruct call as [i | i]; simpl in *;
      (destruct i as [|x i]; [done|]); simpl.
    + destruct (resolvePartData _ _) as [[? ?]|]; eauto.
    + destruct (resolvePartData _ _) as [[? ?]|]; eauto.
  - reflexivity.
  - intros current p Hcur Hp Hid. rewrite Hp. split; [reflexivity|].
    unfold handlePartSelect. rewrite Hcur. simpl.
    by rewrite bool_decide_eq_true_2.
  - intros closed ->. reflexivity.
Qed.

End ClickFacts.

Lemma rapid_clicks_pair_up_witness :
  fst (handleEvents (repeat (Click [3%nat]) (2 * 2)) initialClickState)
  = repeat (DoubleClick [3%nat]) 2.
Proof.
  apply (rapid_clicks_pair_up (@initialClickState nat) [3%nat] [3%nat] 2).
  repeat split.
Defined.

(** ** Identity Resolver of the older InteractiveGLBModel *)

Lemma find_orb_Some {A} (f g : A -> bool) (l : list A) :
  is_Some (List.find (fun x => f x || g x) l) <->
  is_Some (List.find f l) \/ is_Some (List.find g l).
Proof.
  induction l as [|a l IH]; simpl.
  - split; [intros [? ?]; discriminate | intros [[? ?]|[? ?]]; discriminate].
  - destruct (f a), (g a); simpl; try (split; eauto; fail). exact IH.
Qed.

Lemma find_orb_same {A} (f g : A -> bool) (l : list A) x :
  List.find g l = None -> List.find (fun x => f x || g x) l = Some x ->
  List.find f l = Some x.
Proof.
  induction l as [|a l IH]; simpl; [discriminate|].
  destruct (g a) eqn:Hg; [discriminate|]. rewrite orb_false_r.
  destruct (f a); [done | exact IH].
Qed.

Lemma is_Some_None {A} : is_Some (@None A) <-> False.
Proof. split; [intros [? ?]; discriminate | done]. Qed.

(** X11: the resolver of the older InteractiveGLBModel finds a record
    exactly when one of the first four strategies of
    DynamicInteractiveGLBModel does, so whenever it finds one the newer
    resolver finds one too; the record it returns is a record of the
    list that passes the exact or the containment test; when no record
    has the mesh name as its name both resolvers return the first record
    whose reference name is the mesh name; and they differ when a record
    that has the mesh name as its name stands before the record that has
    it as its reference name: the older one takes the former, the newer
    one the latter. *)
Theorem legacy_resolver_finds_when_the_first_four_strategies_do
  (bom : BomData) (tree : list PartRecord) (clickedName : string) :
  assembly_tree bom = Some tree ->
  (is_Some (resolvePartData_legacy (Some bom) clickedName) <->
   is_Some (firstStrategyMatch
              (exact_strategies clickedName ++ contains_strategies clickedName)
              tree)) /\
  (is_Some (resolvePartData_legacy (Some bom) clickedName) ->
   is_Some (resolvePartData (Some bom) clickedName)) /\
  (forall r,
     resolvePartData_legacy (Some bom) clickedName = Some r ->
     r ∈ tree /\ (exact_either clickedName r = true \/
                  contains_any clickedName r = true)) /\
  (forall r,
     List.find (name_exact clickedName) tree = None ->
     List.find (reference_name_exact clickedName) tree = Some r ->
     resolvePartData_legacy (Some bom) clickedName = Some r /\
     resolvePartData (Some bom) clickedName = Some (r, "reference_name_exact")) /\
  (forall a b,
     Part.name a = Some clickedName -> Part.reference_name a = None ->
     Part.reference_name b = Some clickedName ->
     resolvePartData_legacy (Some (bom_of [a; b])) clickedName = Some a /\
     resolvePartData (Some (bom_of [a; b])) clickedName
       = Some (b, "reference_name_exact")).
Proof.
  intros Hbom.
  assert (Hleg : resolvePartData_legacy (Some bom) clickedName
                 = match List.find (exact_either clickedName) tree with
                   | Some p => Some p
                   | None => List.find (contains_any clickedName) tree
                   end).
  { unfold resolvePartData_legacy. simpl. by rewrite Hbom. }
  assert (Hiff : is_Some (resolvePartData_legacy (Some bom) clickedName) <->
                 is_Some (firstStrategyMatch
                            (exact_strategies clickedName
                             ++ contains_strategies clickedName) tree)).
  { rewrite Hleg. simpl.
    pose proof (find_orb_Some (reference_name_exact clickedName)
                  (name_exact clickedName) tree) as He.
    pose proof (find_orb_Some (reference_name_contains clickedName)
                  (name_contains clickedName) tree) as Hc.
    fold (exact_either clickedName) in He. fold (contains_any clickedName) in Hc.
    destruct (List.find (exact_either clickedName) tree) as [p|].
    - destruct (List.find (reference_name_exact clickedName) tree); [split; eauto|].
      destruct (List.find (name_exact clickedName) tree); [split; eauto|].
      exfalso. destruct (proj1 He) as [H|H]; [eauto | |];
        by apply is_Some_None in H.
    - destruct (List.find (reference_name_exact clickedName) tree);
        [exfalso; apply (@is_Some_None PartRecord), He; eauto|].
      destruct (List.find (name_exact clickedName) tree);
        [exfalso; apply (@is_Some_None PartRecord), He; eauto|].
      rewrite Hc.
      destruct (List.find (reference_name_contains clickedName) tree);
        [split; eauto|].
      destruct (List.find (name_contains clickedName) tree); [split; eauto|].
      split; [intros [H|H]; by apply is_Some_None in H|].
      intros H; by apply is_Some_None in H. }
  split; [exact Hiff|]. split; [|split; [|split]].
  - intros Hsome. apply Hiff in Hsome. unfold resolvePartData. rewrite Hbom.
    revert Hsome. simpl.
    destruct (List.find (reference_name_exact clickedName) tree); [eauto|].
    destruct (List.find (name_exact clickedName) tree); [eauto|].
    destruct (List.find (reference_name_contains clickedName) tree); [eauto|].
    destruct (List.find (name_contains clickedName) tree); [eauto|].
    intros H. by apply is_Some_None in H.
  - intros r. rewrite Hleg.
    destruct (List.find (exact_either clickedName) tree) as [p|] eqn:He.
    + intros [= ->]. apply find_first in He as (Hp & before & after & -> & _).
      split; [|by left]. apply elem_of_app. right. left.
    + intros Hc. apply find_first in Hc as (Hp & before & after & -> & _).
      split; [|by right]. apply elem_of_app. right. left.
  - intros r Hname Href. split.
    + rewrite Hleg.
      destruct (List.find (exact_either clickedName) tree) as [p|] eqn:He.
      * f_equal. symmetry.
        pose proof (find_orb_same (reference_name_exact clickedName)
                      (name_exact clickedName) tree p Hname He) as Hp.
        congruence.
      * exfalso. rewrite find_None_iff in He.
        apply find_first in Href as (Hr & before & after & -> & _).
        specialize (He r). unfold exact_either in He. rewrite Hr in He.
        discriminate He. apply elem_of_app. right. left.
    + unfold resolvePartData. rewrite Hbom. simpl. by rewrite Href.
  - intros a b Ha Hra Hb. unfold resolvePartData_legacy, resolvePartData. simpl.
    unfold exact_either, reference_name_exact, name_exact.
    rewrite Ha, Hra, Hb. simpl. rewrite String.eqb_refl. simpl. done.
Qed.

Lemma legacy_resolver_finds_when_the_first_four_strategies_do_witness :
  resolvePartData_legacy (Some sample_bom) "Shaft-01"
    = Some (Part.mk 2 (JsNumber 1) (Some "Shaft") (Some "Shaft-01") None false false) /\
  resolvePartData (Some sample_bom) "Shaft-01"
    = Some (Part.mk 2 (JsNumber 1) (Some "Shaft") (Some "Shaft-01") None false false,
            "reference_name_exact").
Proof.
  apply (legacy_resolver_finds_when_the_first_four_strategies_do
           sample_bom sample_records "Shaft-01"); reflexivity.
Defined.

(** ** Identity Resolver, from the selected part to a scene mesh *)

Lemma getObjectByName_Some objects name : forall k i,
  getObjectByName objects k name = Some i ->
  (k <= i)%nat /\
  exists o, objects !! (i - k)%nat = Some o /\ Obj.name o = name /\
    forall j o', (j < i - k)%nat -> objects !! j = Some o' -> Obj.name o' <> name.
Proof.
  induction objects as [|a objects IH]; intros k i Hget; [discriminate|].
  simpl in Hget. destruct (String.eqb (Obj.name a) name) eqn:He.
  - injection Hget as <-. apply String.eqb_eq in He. split; [lia|].
    replace (k - k)%nat with 0%nat by lia. exists a. split; [reflexivity|].
    split; [exact He|]. intros j o' Hj. lia.
  - apply String.eqb_neq in He.
    destruct (IH _ _ Hget) as (Hle & o & Ho & Hname & Hfirst). split; [lia|].
    exists o. replace (i - k)%nat with (S (i - S k)) by lia.
    split; [exact Ho|]. split; [exact Hname|].
    intros [|j] o' Hj Ho'; [simpl in Ho'; congruence|].
    simpl in Ho'. apply (Hfirst j o'); [lia | exact Ho'].
Qed.

Lemma getObjectByName_first objects name i o : forall k,
  objects !! i = Some o -> Obj.name o = name ->
  (forall j o', (j < i)%nat -> objects !! j = Some o' -> Obj.name o' <> name) ->
  getObjectByName objects k name = Some (k + i)%nat.
Proof.
  revert i. induction objects as [|a objects IH]; intros i k Hi Hname Hfirst;
    [discriminate|].
  simpl. destruct i as [|i].
  - simpl in Hi. injection Hi as ->. rewrite <- Hname, String.eqb_refl.
    f_equal. lia.
  - destruct (String.eqb (Obj.name a) name) eqn:He.
    + apply String.eqb_eq in He. exfalso. apply (Hfirst 0%nat a); [lia|done|done].
    + rewrite (IH i (S k)); [f_equal; lia | exact Hi | exact Hname |].
      intros j o' Hj Ho'. apply (Hfirst (S j) o'); [lia | exact Ho'].
Qed.

Lemma traverseSelect_Some test objects : forall k acc i,
  traverseSelect test objects k acc = Some i ->
  acc = Some i \/
  ((k <= i)%nat /\ exists o, objects !! (i - k)%nat = Some o /\ test o = true).
Proof.
  induction objects as [|a objects IH]; intros k acc i Hrun; [by left|].
  simpl in Hrun. apply IH in Hrun as [Hacc | (Hle & o & Ho & Ht)].
  - destruct (test a) eqn:Ha; [|by left].
    injection Hacc as <-. right. split; [lia|].
    replace (k - k)%nat with 0%nat by lia. eauto.
  - right. split; [lia|]. exists o.
    replace (i - k)%nat with (S (i - S k)) by lia. auto.
Qed.

Lemma getObjectByName_fmap (f : Object3D -> Object3D) objects name :
  (forall o, Obj.name (f o) = Obj.name o) ->
  forall k, getObjectByName (f <$> objects) k name = getObjectByName objects k name.
Proof.
  intros Hf. induction objects as [|a objects IH]; intros k; [reflexivity|].
  simpl. rewrite Hf. destruct (String.eqb _ _); [reflexivity | apply IH].
Qed.

Lemma traverseSelect_fmap (f : Object3D -> Object3D) test objects :
  (forall o, test (f o) = test o) ->
  forall k acc, traverseSelect test (f <$> objects) k acc
                = traverseSelect test objects k acc.
Proof.
  intros Hf. induction objects as [|a objects IH]; intros k acc; [reflexivity|].
  simpl. rewrite Hf. apply IH.
Qed.

Lemma findSelectedMesh_fmap (f : Object3D -> Object3D) sp objects :
  (forall o, Obj.name (f o) = Obj.name o) ->
  (forall o, Obj.isMesh (f o) = Obj.isMesh o) ->
  findSelectedMesh sp (f <$> objects) = findSelectedMesh sp objects.
Proof.
  intros Hname Hmesh. unfold findSelectedMesh.
  rewrite (getObjectByName_fmap f) by exact Hname.
  rewrite !(traverseSelect_fmap f); first reflexivity;
    intros o; unfold meshPartial, meshNamed; by rewrite ?Hname, ?Hmesh.
Qed.

Lemma resetObject_name o : Obj.name (resetObject o) = Obj.name o.
Proof.
  unfold resetObject. destruct (Obj.isMesh o); [|reflexivity].
  by destruct (originalMaterial (Obj.userData o)).
Qed.

Lemma tryStrategy_Some guard method search found r :
  tryStrategy guard method search found = Some r ->
  found = Some r \/
  (found = None /\ guard = true /\ exists i, search = Some i /\ r = (i, method)).
Proof.
  unfold tryStrategy. destruct found as [x|]; [by left|].
  destruct guard; [|discriminate]. destruct search as [i|]; [|discriminate].
  simpl. intros [= <-]. right. eauto.
Qed.

Lemma traverseSelect_hit test objects i :
  traverseSelect test objects 0 None = Some i ->
  exists o, objects !! i = Some o /\ test o = true.
Proof.
  intros H. apply traverseSelect_Some in H as [? | (_ & o & Ho & Ht)]; [done|].
  rewrite Nat.sub_0_r in Ho. eauto.
Qed.

Lemma meshNamed_true name o :
  meshNamed name o = true <-> Obj.isMesh o = true /\ Obj.name o = name.
Proof. unfold meshNamed. rewrite andb_true_iff, String.eqb_eq. tauto. Qed.

Lemma truthy_default field : truthy field = true -> field = Some (default "" field).
Proof. destruct field; [reflexivity | discriminate]. Qed.

(** X12: what the six strategies of the selection effect return is an
    object of the scene; when the strategy is the lookup by mesh name it is
    the first object so named, a mesh or not; with every other strategy it
    is a mesh, whose name is the reference name, the name or the decimal
    id of the selected part, or holds or is held by one of the two
    names. *)
Theorem findSelectedMesh_result_is_a_named_match
  (sp : SelectedPart) (objects : list Object3D) (i : nat) (method : string) :
  findSelectedMesh sp objects = Some (i, method) ->
  exists o, objects !! i = Some o /\
    ((method = "meshName" /\ truthy (Sel.meshName sp) = true /\
      Obj.name o = default "" (Sel.meshName sp) /\
      forall j o', (j < i)%nat -> objects !! j = Some o' ->
        Obj.name o' <> default "" (Sel.meshName sp)) \/
     (Obj.isMesh o = true /\
      ((method = "reference_name" /\
        Sel.reference_name sp = Some (Obj.name o)) \/
       (method = "name" /\ Sel.name sp = Some (Obj.name o)) \/
       (method = "id_string" /\ Obj.name o = JsId_toString (Sel.id sp)) \/
       (method = "partial_reference" /\
        meshPartial (default "" (Sel.reference_name sp)) o = true) \/
       (method = "partial_name" /\
        meshPartial (default "" (Sel.name sp)) o = true)))).
Proof.
  unfold findSelectedMesh. cbv zeta. intros Hfind.
  apply tryStrategy_Some in Hfind as [Hfind | (_ & Hg & j & Hs & [= -> ->])].
  2:{ apply traverseSelect_hit in Hs as (o & Ho & Ht). exists o.
      split; [exact Ho|]. right.
      split; [unfold meshPartial in Ht; by destruct (Obj.isMesh o)|]. auto 10. }
  apply tryStrategy_Some in Hfind as [Hfind | (_ & Hg & j & Hs & [= -> ->])].
  2:{ apply traverseSelect_hit in Hs as (o & Ho & Ht). exists o.
      split; [exact Ho|]. right.
      split; [unfold meshPartial in Ht; by destruct (Obj.isMesh o)|]. auto 10. }
  apply tryStrategy_Some in Hfind as [Hfind | (_ & Hg & j & Hs & [= -> ->])].
  2:{ apply traverseSelect_hit in Hs as (o & Ho & Ht). exists o.
      split; [exact Ho|]. right. apply meshNamed_true in Ht as [Hmesh Hn].
      split; [exact Hmesh|]. auto 10. }
  apply tryStrategy_Some in Hfind as [Hfind | (_ & Hg & j & Hs & [= -> ->])].
  2:{ apply traverseSelect_hit in Hs as (o & Ho & Ht). exists o.
      split; [exact Ho|]. right. apply meshNamed_true in Ht as [Hmesh Hn].
      split; [exact Hmesh|]. right. left. split; [reflexivity|].
      rewrite (truthy_default _ Hg). by rewrite Hn. }
  apply tryStrategy_Some in Hfind as [Hfind | (_ & Hg & j & Hs & [= -> ->])].
  2:{ apply traverseSelect_hit in Hs as (o & Ho & Ht). exists o.
      split; [exact Ho|]. right. apply meshNamed_true in Ht as [Hmesh Hn].
      split; [exact Hmesh|]. left. split; [reflexivity|].
      rewrite (truthy_default _ Hg). by rewrite Hn. }
  apply tryStrategy_Some in Hfind as [Hfind | (_ & Hg & j & Hs & [= -> ->])];
    [discriminate|].
  apply getObjectByName_Some in Hs as (_ & o & Ho & Hname & Hfirst).
  rewrite Nat.sub_0_r in *. exists o. split; [exact Ho|]. left. auto.
Qed.

Lemma findSelectedMesh_result_is_a_named_match_witness :
  exists o, id_named_scene !! 2%nat = Some o /\ Obj.isMesh o = true /\
            Obj.name o = JsId_toString (Sel.id housing_part).
Proof.
  destruct (findSelectedMesh_result_is_a_named_match housing_part id_named_scene
              2 "id_string" eq_refl) as (o & Ho & Hcases).
  exists o. split; [exact Ho|].
  destruct Hcases as [(Hm & _) | (Hmesh & Hm)]; [discriminate Hm|].
  split; [exact Hmesh|].
  destruct Hm as [(Hm & _) | [(Hm & _) | [(_ & Hn) | [(Hm & _) | (Hm & _)]]]];
    first [discriminate Hm | exact Hn].
Defined.

(** ** Camera: animation and fit *)

Section AnimationFacts.
Local Open Scope R_scope.

Lemma easeInOutQuad_range t : 0 <= t <= 1 -> 0 <= easeInOutQuad t <= 1.
Proof.
  intros [H0 H1]. unfold easeInOutQuad. destruct (Rlt_dec t 0.5); split; nra.
Qed.

(** X13: the easing of the camera animation starts at 0, ends at 1, stays
    between the two, never decreases on the unit interval, and is
    symmetric about its middle; so an animation never overshoots its end
    and never moves back. *)
Theorem easeInOutQuad_is_a_monotone_ramp :
  easeInOutQuad 0 = 0 /\ easeInOutQuad 1 = 1 /\
  (forall t, 0 <= t <= 1 -> 0 <= easeInOutQuad t <= 1) /\
  (forall s t, 0 <= s -> s <= t -> t <= 1 -> easeInOutQuad s <= easeInOutQuad t) /\
  (forall t, 0 <= t <= 1 -> easeInOutQuad (1 - t) = 1 - easeInOutQuad t).
Proof.
  unfold easeInOutQuad. split; [|split; [|split; [|split]]].
  - destruct (Rlt_dec 0 0.5); lra.
  - destruct (Rlt_dec 1 0.5); lra.
  - intros t [H0 H1]. destruct (Rlt_dec t 0.5); split; nra.
  - intros s t H0 Hst H1.
    destruct (Rlt_dec s 0.5), (Rlt_dec t 0.5); nra.
  - intros t [H0 H1].
    destruct (Rlt_dec (1 - t) 0.5), (Rlt_dec t 0.5); nra.
Qed.

Lemma lerpVectors_end v1 v2 : lerpVectors v1 v2 1 = v2.
Proof. destruct v1, v2. unfold lerpVectors. simpl. f_equal; lra. Qed.

Lemma easeInOutQuad_one : easeInOutQuad 1 = 1.
Proof. unfold easeInOutQuad. destruct (Rlt_dec 1 0.5); lra. Qed.

Lemma runFrames_no_animation deltas : forall st,
  cameraAnimation st = None -> runFrames deltas st = st.
Proof.
  induction deltas as [|d deltas IH]; intros st Hnone; [reflexivity|].
  unfold runFrames in *. simpl.
  replace (useFrame d st) with st; [by apply IH|].
  unfold useFrame. by rewrite Hnone.
Qed.


(** One frame of a running animation: the pose that the frame writes is
    handed to [update()]. *)
Lemma useFrame_step delta st anim c :
  cameraAnimation st = Some anim -> controls st = Some c ->
  0 < duration anim -> 0 <= delta -> 0 <= progress anim ->
  let total := progress anim + delta * 1000 / duration anim in
  let st' := useFrame delta st in
  scene st' = scene st /\ materials st' = materials st /\
  nextMaterial st' = nextMaterial st /\ fov (camera st') = fov (camera st) /\
  isInitialLoad st' = isInitialLoad st /\ loadError st' = loadError st /\
  modelRef st' = modelRef st /\
  (1 <= total ->
   cameraAnimation st' = None /\
   position (camera st') = update c (endTarget anim) (endPosition anim) /\
   controls st' = Some (set_target (endTarget anim) c)) /\
  (total < 1 ->
   cameraAnimation st'
     = Some (mkCameraAnimation (startPosition anim) (endPosition anim)
               (startTarget anim) (endTarget anim) total (duration anim)) /\
   position (camera st')
     = update c
         (lerpVectors (startTarget anim) (endTarget anim) (easeInOutQuad total))
         (lerpVectors (startPosition anim) (endPosition anim)
            (easeInOutQuad total)) /\
   controls st'
     = Some (set_target
               (lerpVectors (startTarget anim) (endTarget anim)
                  (easeInOutQuad total)) c)).
Proof.
  intros Hanim Hctl Hdur Hdelta Hprog total st'.
  unfold st', useFrame. rewrite Hanim, Hctl. fold total. cbn.
  do 7 (split; [reflexivity|]). split.
  - intros Hge. rewrite Rmin_right by lra.
    destruct (Rge_dec 1 1) as [_ | Hn]; [|lra].
    by rewrite easeInOutQuad_one, !lerpVectors_end.
  - intros Hlt. rewrite Rmin_left by lra.
    destruct (Rge_dec total 1) as [Hge | _]; [lra|]. done.
Qed.

Lemma sum_R_nonneg deltas : Forall (fun d => 0 <= d) deltas -> 0 <= sum_R deltas.
Proof. induction 1; simpl; lra. Qed.

Lemma runFrames_running deltas : forall st anim c,
  cameraAnimation st = Some anim -> controls st = Some c ->
  0 < duration anim -> 0 <= progress anim < 1 ->
  Forall (fun d => 0 <= d) deltas ->
  let total := progress anim + sum_R deltas * 1000 / duration anim in
  let st' := runFrames deltas st in
  scene st' = scene st /\ materials st' = materials st /\
  nextMaterial st' = nextMaterial st /\ fov (camera st') = fov (camera st) /\
  isInitialLoad st' = isInitialLoad st /\ loadError st' = loadError st /\
  modelRef st' = modelRef st /\
  (1 <= total ->
   cameraAnimation st' = None /\
   position (camera st') = update c (endTarget anim) (endPosition anim) /\
   controls st' = Some (set_target (endTarget anim) c)) /\
  (total < 1 ->
   cameraAnimation st'
     = Some (mkCameraAnimation (startPosition anim) (endPosition anim)
               (startTarget anim) (endTarget anim) total (duration anim)) /\
   (deltas <> [] ->
    position (camera st')
      = update c
          (lerpVectors (startTarget anim) (endTarget anim) (easeInOutQuad total))
          (lerpVectors (startPosition anim) (endPosition anim)
             (easeInOutQuad total)) /\
    controls st'
      = Some (set_target
                (lerpVectors (startTarget anim) (endTarget anim)
                   (easeInOutQuad total)) c))).
Proof.
  induction deltas as [|d deltas IH]; intros st anim c Hanim Hctl Hdur Hprog Hpos.
  - cbn zeta. unfold runFrames. simpl.
    replace (progress anim + 0 * 1000 / duration anim) with (progress anim)
      by (unfold Rdiv; lra).
    do 7 (split; [reflexivity|]). split; [lra|].
    intros _. split; [|done]. rewrite Hanim. by destruct anim.
  - apply list.Forall_cons in Hpos as [Hd Hpos].
    destruct (useFrame_step d st anim c Hanim Hctl Hdur Hd (proj1 Hprog))
      as (H1 & H2 & H3 & H4 & H5 & H6 & H7 & Hdone & Hrun).
    assert (Hsum : 0 <= sum_R deltas * 1000 / duration anim).
    { apply Rmult_le_pos; [|left; by apply Rinv_0_lt_compat].
      pose proof (sum_R_nonneg deltas Hpos). lra. }
    assert (Hd' : 0 <= d * 1000 / duration anim).
    { apply Rmult_le_pos; [lra | left; by apply Rinv_0_lt_compat]. }
    assert (Hsplit : progress anim + sum_R (d :: deltas) * 1000 / duration anim
                     = progress anim + d * 1000 / duration anim
                       + sum_R deltas * 1000 / duration anim).
    { simpl. unfold Rdiv. lra. }
    cbn zeta. rewrite Hsplit.
    change (runFrames (d :: deltas) st) with (runFrames deltas (useFrame d st)).
    destruct (Rlt_dec (progress anim + d * 1000 / duration anim) 1) as [Hlt | Hge].
    + destruct (Hrun Hlt) as (Hanim' & Hp' & Hctl').
      destruct (IH (useFrame d st) _ _ Hanim' Hctl')
        as (I1 & I2 & I3 & I4 & I5 & I6 & I7 & Idone & Irun);
        [exact Hdur | simpl; lra | exact Hpos |].
      simpl in Idone, Irun.
      do 7 (split; [congruence|]). split; [exact Idone|].
      intros Htot. destruct (Irun Htot) as [Ia Ipose]. split; [exact Ia|].
      intros _. destruct deltas as [|d' deltas]; [|apply Ipose; discriminate].
      unfold runFrames. simpl.
      replace (progress anim + d * 1000 / duration anim + 0 * 1000 / duration anim)
        with (progress anim + d * 1000 / duration anim) by (unfold Rdiv; lra).
      split; assumption.
    + destruct Hdone as (Hnone & Hp & Ht); [lra|].
      rewrite (runFrames_no_animation deltas _ Hnone).
      do 7 (split; [assumption|]). split; [auto | intros; lra].
Qed.


Lemma sqrt_of_square x : 0 <= x -> sqrt (x * x) = x.
Proof. intros Hx. by apply sqrt_square. Qed.

Lemma focus_direction_length :
  vector_length (mkVector3 1 0.5 1) = 1.5.
Proof.
  unfold vector_length. cbn [vx vy vz].
  replace (1 * 1 + 0.5 * 0.5 + 1 * 1) with (1.5 * 1.5) by lra.
  apply sqrt_square. lra.
Qed.

Lemma focus_direction_normalized :
  normalize (mkVector3 1 0.5 1) = mkVector3 (2 / 3) (1 / 3) (2 / 3).
Proof.
  unfold normalize. rewrite focus_direction_length.
  destruct (Req_dec_T 1.5 0) as [H | _]; [lra|].
  unfold multiplyScalar. cbn [vx vy vz]. f_equal; lra.
Qed.

Lemma distance_along_focus_direction center d :
  0 <= d ->
  distanceTo
    (vector_add center (multiplyScalar (normalize (mkVector3 1 0.5 1)) d))
    center = d.
Proof.
  intros Hd. rewrite focus_direction_normalized.
  unfold distanceTo, vector_length, vector_sub, vector_add, multiplyScalar.
  cbn [vx vy vz].
  replace ((vx center + 2 / 3 * d - vx center) * (vx center + 2 / 3 * d - vx center)
           + (vy center + 1 / 3 * d - vy center) * (vy center + 1 / 3 * d - vy center)
           + (vz center + 2 / 3 * d - vz center) * (vz center + 2 / 3 * d - vz center))
    with (d * d) by lra.
  by apply sqrt_square.
Qed.

Lemma framingDistance_nonneg size cameraFov factor :
  0 <= factor -> 0 <= framingDistance size cameraFov factor.
Proof.
  intros Hf. unfold framingDistance. apply Rmult_le_pos; [apply Rabs_pos | exact Hf].
Qed.

(** X14: with the orbit controls mounted, an animation of positive
    duration advances by the time of each frame (numbers taken as real
    numbers).  As soon as the frames since its start add up to its
    duration it is over: the orbit target is the end target and the
    camera is where [update()] of the controls leaves it from the end
    position, so at the end position itself when [update()] leaves that
    position alone.  Before that its progress is the elapsed share of the
    duration, the target is on the segment from its start to its end and
    the camera is where [update()] leaves it from the point of its own
    segment.  The scene, the materials and the field of view are not
    touched. *)
Theorem camera_animation_runs_to_its_end
  (st : ModelState) (anim : CameraAnimation) (c : OrbitControls)
  (deltas : list R) :
  cameraAnimation st = Some anim -> controls st = Some c ->
  0 < duration anim -> 0 <= progress anim < 1 ->
  Forall (fun d => 0 <= d) deltas ->
  let total := progress anim + sum_R deltas * 1000 / duration anim in
  let st' := runFrames deltas st in
  (1 <= total ->
   cameraAnimation st' = None /\
   controls st' = Some (set_target (endTarget anim) c) /\
   position (camera st') = update c (endTarget anim) (endPosition anim) /\
   (update c (endTarget anim) (endPosition anim) = endPosition anim ->
    position (camera st') = endPosition anim)) /\
  (total < 1 ->
   (progress <$> cameraAnimation st') = Some total /\
   (deltas <> [] ->
    exists alpha, 0 <= alpha <= 1 /\
      controls st'
        = Some (set_target
                  (lerpVectors (startTarget anim) (endTarget anim) alpha) c) /\
      position (camera st')
        = update c (lerpVectors (startTarget anim) (endTarget anim) alpha)
            (lerpVectors (startPosition anim) (endPosition anim) alpha))) /\
  scene st' = scene st /\ materials st' = materials st /\
  fov (camera st') = fov (camera st).
Proof.
  intros Hanim Hctl Hdur Hprog Hpos total st'.
  destruct (runFrames_running deltas st anim c Hanim Hctl Hdur Hprog Hpos)
    as (H1 & H2 & _ & H4 & _ & _ & _ & Hdone & Hrun).
  fold total in Hdone, Hrun. fold st' in H1, H2, H4, Hdone, Hrun.
  split; [|split; [|auto]].
  - intros Hge. destruct (Hdone Hge) as (Hnone & Hp & Ht).
    split; [exact Hnone|]. split; [exact Ht|]. split; [exact Hp|].
    intros Hleft. by rewrite Hp.
  - intros Hlt. destruct (Hrun Hlt) as [Ha Hpose]. split; [by rewrite Ha|].
    intros Hne. exists (easeInOutQuad total).
    destruct (Hpose Hne) as [Hp Ht]. split; [|split; assumption].
    apply easeInOutQuad_range.
    assert (0 <= sum_R deltas * 1000 / duration anim).
    { apply Rmult_le_pos; [|left; by apply Rinv_0_lt_compat].
      pose proof (sum_R_nonneg deltas Hpos). lra. }
    unfold total in *. lra.
Qed.


(** X15: after [focusCameraOnMesh] on a mesh and frames that add up to
    one second or more, with the orbit controls mounted (numbers taken as
    real numbers), the animation is over and the orbit target is the
    centre of the box of the mesh.  The position written to the camera
    lies on the ray from that centre along the normalised direction
    (1, 0.5, 1), at the framing distance [|maxDim / sin(fov / 2)| * 2.5]
    from the centre; the camera is where [update()] of the controls leaves
    it from there, so at that position when [update()] leaves it alone. *)
Theorem focused_camera_ends_at_framing_distance
  (st : ModelState) (i : nat) (mesh : Object3D) (c : OrbitControls)
  (deltas : list R) :
  scene st !! i = Some mesh -> controls st = Some c ->
  sin (fov (camera st) * (PI / 180) / 2) <> 0 ->
  Forall (fun d => 0 <= d) deltas -> 1 <= sum_R deltas ->
  let center := getCenter (Obj.boundingBox mesh) in
  let distance :=
    framingDistance (getSize (Obj.boundingBox mesh)) (fov (camera st)) 2.5 in
  let framed :=
    vector_add center (multiplyScalar (normalize (mkVector3 1 0.5 1)) distance) in
  let st' := runFrames deltas (snd (focusCameraOnMesh i st)) in
  fst (focusCameraOnMesh i st) = Some tt /\
  cameraAnimation st' = None /\
  controls st' = Some (set_target center c) /\
  position (camera st') = update c center framed /\
  (update c center framed = framed -> position (camera st') = framed) /\
  distanceTo framed center = distance /\
  scene st' = scene st.
Proof.
  intros Hmesh Hctl _ Hpos Hsum center distance framed st'.
  assert (Hfocus : focusCameraOnMesh i st = startAnimationTo mesh st).
  { unfold focusCameraOnMesh, getObject, mbind, Eff_bind. by rewrite Hmesh. }
  unfold st'. rewrite Hfocus. unfold startAnimationTo. cbn [fst snd].
  fold center. fold distance. fold framed.
  set (anim := mkCameraAnimation _ _ _ _ _ _).
  set (st1 := mkModelState _ _ _ _ _ _ _ _ _).
  destruct (runFrames_running deltas st1 anim c)
    as (H1 & _ & _ & _ & _ & _ & _ & Hdone & _);
    [reflexivity | exact Hctl | simpl; lra | simpl; lra | exact Hpos |].
  destruct Hdone as (Hnone & Hp & Ht).
  { simpl. unfold Rdiv. lra. }
  split; [reflexivity|]. split; [exact Hnone|]. split; [exact Ht|].
  split; [exact Hp|]. split; [intros Hleft; by rewrite Hp|]. split; [|exact H1].
  apply distance_along_focus_direction.
  apply framingDistance_nonneg. lra.
Qed.

Lemma loadObject_boundingBox store o :
  Obj.boundingBox (loadObject store o) = Obj.boundingBox o.
Proof. unfold loadObject. by destruct (Obj.isMesh o). Qed.

Lemma traverse_setup st :
  exists st',
    traverse setupCallback st = (Some tt, st') /\
    scene st' = loadObject (materials st) <$> scene st /\
    (forall m, appearance (materials st' m) = appearance (materials st m)) /\
    nextMaterial st' = nextMaterial st /\
    cameraPose st' = cameraPose st /\
    modelRef st' = modelRef st /\ loadError st' = loadError st /\
    isInitialLoad st' = isInitialLoad st.
Proof.
  destruct (setup_range (length (scene st)) 0%nat st)
    as (st' & Hrun & Hscene & Hrest); [lia|].
  exists st'. split; [exact Hrun|]. split; [|exact Hrest].
  apply list_eq. intros j. rewrite Hscene, list_lookup_fmap.
  destruct (decide _) as [_|H]; [reflexivity|].
  rewrite lookup_ge_None_2 by lia. reflexivity.
Qed.

(** X16: the effect that handles a loaded model succeeds once (numbers
    taken as real numbers).  The position it writes to the camera is the
    centre of the box of the scene plus [cameraDistance * (1, 0.5, 1)],
    where [cameraDistance] is [|maxDim / sin(fov / 2)| * 1.5]: that is
    1.5 times that distance from the centre, since the offset is not
    normalised.  Without orbit controls the camera stays there; with them
    they are aimed at the centre and the camera is where their
    [update()] leaves it from there.  No animation is started, and
    [isInitialLoad] is cleared, so that a second run does nothing. *)
Theorem load_fits_camera_to_scene (st0 : ModelState) :
  modelRef st0 = true -> isInitialLoad st0 = true ->
  truthy (loadError st0) = false ->
  sin (fov (camera st0) * (PI / 180) / 2) <> 0 ->
  let box := default (mkBox3 (mkVector3 0 0 0) (mkVector3 0 0 0))
               (Obj.boundingBox <$> head (scene st0)) in
  let center := getCenter box in
  let cameraDistance := framingDistance (getSize box) (fov (camera st0)) 1.5 in
  let fitted :=
    mkVector3 (vx center + cameraDistance) (vy center + cameraDistance * 0.5)
              (vz center + cameraDistance) in
  let st := snd (setupModel st0) in
  fst (setupModel st0) = Some tt /\
  (controls st0 = None ->
   controls st = None /\ position (camera st) = fitted) /\
  (forall c, controls st0 = Some c ->
     controls st = Some (set_target center c) /\
     position (camera st) = update c center fitted /\
     (update c center fitted = fitted -> position (camera st) = fitted)) /\
  distanceTo fitted center = 1.5 * cameraDistance /\
  fov (camera st) = fov (camera st0) /\
  cameraAnimation st = cameraAnimation st0 /\
  isInitialLoad st = false /\
  setupModel st = (Some tt, st).
Proof.
  intros Href Hinit Herr _ box center cameraDistance fitted st.
  destruct (traverse_setup st0)
    as (st1 & Hrun & Hscene & _ & _ & Hpose & Href1 & Herr1 & _).
  unfold cameraPose in Hpose. injection Hpose as Hcam Hctl Hanim.
  assert (Hbox : default (mkBox3 (mkVector3 0 0 0) (mkVector3 0 0 0))
                   (Obj.boundingBox <$> head (scene st1)) = box).
  { unfold box. rewrite Hscene. destruct (scene st0) as [|o l]; [reflexivity|].
    simpl. apply loadObject_boundingBox. }
  assert (Hsetup : setupModel st0 = fitCameraToScene st1).
  { unfold setupModel. rewrite Href, Hinit, Herr. cbn [andb negb].
    unfold mbind, Eff_bind. by rewrite Hrun. }
  unfold st. rewrite Hsetup. unfold fitCameraToScene.
  rewrite Hbox, Hcam, Hctl, Hanim. fold center. fold cameraDistance. fold fitted.
  cbn [fst snd camera position fov controls cameraAnimation isInitialLoad].
  split; [reflexivity|]. split; [|split; [|split; [|split; [|split; [|split]]]]];
    try reflexivity.
  - intros Hnone. by rewrite Hnone.
  - intros c Hc. rewrite Hc. cbn [fmap option_fmap option_map].
    split; [reflexivity|]. split; [reflexivity|]. by intros ->.
  - unfold fitted, distanceTo, vector_sub, vector_length. cbn [vx vy vz].
    assert (0 <= cameraDistance) as Hd
      by (apply framingDistance_nonneg; lra).
    replace ((vx center + cameraDistance - vx center)
             * (vx center + cameraDistance - vx center)
             + (vy center + cameraDistance * 0.5 - vy center)
               * (vy center + cameraDistance * 0.5 - vy center)
             + (vz center + cameraDistance - vz center)
               * (vz center + cameraDistance - vz center))
      with ((1.5 * cameraDistance) * (1.5 * cameraDistance)) by lra.
    apply sqrt_square. lra.
  - unfold setupModel. cbn [isInitialLoad modelRef]. by rewrite andb_false_r.
Qed.

(** The sample controls leave alone a camera that is between 1 and 500
    from the target. *)
Lemma clampDistance_within around position :
  1 <= distanceTo position around <= 500 ->
  clampDistance around position = position.
Proof.
  intros [Hlo Hhi]. unfold clampDistance, normalize.
  fold (distanceTo position around).
  set (r := distanceTo position around) in *.
  rewrite Rmin_right by lra. rewrite Rmax_right by lra.
  destruct (Req_dec_T r 0) as [H0 | Hne]; [lra|].
  destruct position as [px py pz], around as [ax ay az].
  unfold vector_add, multiplyScalar, vector_sub. cbn [vx vy vz].
  f_equal; field; exact Hne.
Qed.

End AnimationFacts.

Section CameraWitnesses.

Local Open Scope R_scope.

Lemma sqrt_between lo hi x :
  0 <= lo -> lo * lo <= x -> x <= hi * hi -> 0 <= hi -> lo <= sqrt x <= hi.
Proof.
  intros Hlo Hx1 Hx2 Hhi. split.
  - rewrite <- (sqrt_square lo) by exact Hlo. by apply sqrt_le_1_alt.
  - rewrite <- (sqrt_square hi) by exact Hhi. by apply sqrt_le_1_alt.
Qed.

Lemma camera_animation_runs_to_its_end_witness :
  position (camera (runFrames [0.5; 0.5] moving_state)) = mkVector3 30 15 30.
Proof.
  destruct (camera_animation_runs_to_its_end moving_state moving_animation
              controls_at_origin [0.5; 0.5]) as [Hdone _].
  - reflexivity.
  - reflexivity.
  - unfold moving_animation. cbn [duration]. lra.
  - unfold moving_animation. cbn [progress]. lra.
  - repeat constructor; lra.
  - destruct Hdone as (_ & _ & _ & Hleft).
    { unfold moving_animation, sum_R. cbn [progress duration fold_right]. lra. }
    apply Hleft.
    change (clampDistance (mkVector3 5 5 5) (mkVector3 30 15 30)
            = mkVector3 30 15 30).
    apply clampDistance_within.
    unfold distanceTo, vector_length, vector_sub. cbn [vx vy vz].
    apply sqrt_between; lra.
Defined.

Lemma focused_camera_ends_at_framing_distance_witness :
  position (camera (runFrames [1] (snd (focusCameraOnMesh 1 fresh_state))))
  = vector_add (getCenter unit_box)
      (multiplyScalar (normalize (mkVector3 1 0.5 1)) 50).
Proof.
  destruct (focused_camera_ends_at_framing_distance fresh_state 1
              (plain_object "Shaft-01" true (Some 0%nat)) controls_at_origin [1])
    as (_ & _ & _ & _ & Hleft & Hdist & _).
  - reflexivity.
  - reflexivity.
  - change (fov (camera fresh_state)) with 60.
    rewrite sin_half_of_60_degrees. lra.
  - repeat constructor; lra.
  - unfold sum_R. cbn [fold_right]. lra.
  - change (Obj.boundingBox (plain_object "Shaft-01" true (Some 0%nat)))
      with unit_box in *.
    change (fov (camera fresh_state)) with 60 in *.
    rewrite getSize_unit_box, framingDistance_cube_60 in Hleft, Hdist.
    replace (20 * 2.5) with 50 in Hleft, Hdist by lra.
    apply Hleft. change (update controls_at_origin) with clampDistance.
    apply clampDistance_within. rewrite Hdist. lra.
Defined.

Lemma load_fits_camera_to_scene_witness :
  position (camera (snd (setupModel fresh_state)))
  = mkVector3 (vx (getCenter unit_box) + 30)
              (vy (getCenter unit_box) + 30 * 0.5)
              (vz (getCenter unit_box) + 30).
Proof.
  destruct (load_fits_camera_to_scene fresh_state)
    as (_ & _ & Hmounted & Hdist & _); try reflexivity.
  { change (fov (camera fresh_state)) with 60.
    rewrite sin_half_of_60_degrees. lra. }
  destruct (Hmounted controls_at_origin eq_refl) as (_ & _ & Hleft).
  change (default (mkBox3 (mkVector3 0 0 0) (mkVector3 0 0 0))
            (Obj.boundingBox <$> head (scene fresh_state)))
    with unit_box in *.
  change (fov (camera fresh_state)) with 60 in *.
  rewrite getSize_unit_box, framingDistance_cube_60 in Hleft, Hdist.
  replace (20 * 1.5) with 30 in Hleft, Hdist by lra.
  apply Hleft. change (update controls_at_origin) with clampDistance.
  apply clampDistance_within. rewrite Hdist. lra.
Defined.

End CameraWitnesses.

(** ** Outcomes of the selection effect *)

Section SelectionOutcomes.

Local Open Scope R_scope.

Variable setHex : Z -> Color.

Create Rewrite HintDb state_fields.

Create Rewrite HintDb look_fields.

#[local] Hint Rewrite scene_with_scene materials_with_scene nextMaterial_with_scene camera_with_scene controls_with_scene cameraAnimation_with_scene isInitialLoad_with_scene loadError_with_scene modelRef_with_scene scene_with_materials materials_with_materials nextMaterial_with_materials camera_with_materials controls_with_materials cameraAnimation_with_materials isInitialLoad_with_materials loadError_with_materials modelRef_with_materials : state_fields.

#[local] Hint Rewrite color_set_color emissive_set_color emissiveIntensity_set_color color_set_emissive emissive_set_emissive emissiveIntensity_set_emissive color_set_emissiveIntensity emissive_set_emissiveIntensity emissiveIntensity_set_emissiveIntensity color_needsUpdate emissive_needsUpdate emissiveIntensity_needsUpdate : look_fields.

Ltac run_effect :=
  repeat first
    [ progress (lazy beta iota zeta)
    | progress (autorewrite with state_fields)
    | rewrite store_update_same
    | progress (autorewrite with look_fields)
    | progress (cbn [scene materials nextMaterial camera controls
                     cameraAnimation isInitialLoad loadError modelRef
                     color emissive emissiveIntensity fst snd]) ].

(** The highlight of a mesh whose original material has a colour and an
    emissive colour. *)
Lemma highlightFound_mesh st i o m c e :
  scene st !! i = Some o -> Obj.isMesh o = true ->
  originalMaterial (Obj.userData o) = Some m -> (m < nextMaterial st)%nat ->
  color (materials st m) = Some c -> emissive (materials st m) = Some e ->
  exists st',
    highlightFound setHex (Some i) st = (Some tt, st') /\
    scene st' = alter (set_material (Some (nextMaterial st))) i (scene st) /\
    appearance (materials st' (nextMaterial st)) = highlightAppearance setHex /\
    (forall k, (k < nextMaterial st)%nat -> materials st' k = materials st k) /\
    nextMaterial st' = S (nextMaterial st) /\
    camera st' = camera st /\ controls st' = controls st /\
    modelRef st' = modelRef st /\ loadError st' = loadError st /\
    cameraAnimation st'
    = Some (mkCameraAnimation (position (camera st))
              (vector_add (getCenter (Obj.boundingBox o))
                 (multiplyScalar (normalize (mkVector3 1 0.5 1))
                    (framingDistance (getSize (Obj.boundingBox o))
                       (fov (camera st)) 2.5)))
              (default (getCenter (Obj.boundingBox o)) (target <$> controls st))
              (getCenter (Obj.boundingBox o)) 0 1000).
Proof.
  intros Hi Hmesh Horig Hlt Hcol Hem.
  unfold highlightFound, mbind, Eff_bind, getObject. rewrite Hi, Hmesh.
  unfold highlightMesh, mbind, Eff_bind, getObject. rewrite Hi, Horig.
  unfold cloneMaterial, getMaterial, updateMaterial, updateObject, throwTypeError,
    focusCameraOnMesh, startAnimationTo, getObject, mbind, Eff_bind.
  eexists. split.
  { run_effect. rewrite ?Hcol, ?Hem. run_effect. rewrite ?Hcol, ?Hem. run_effect.
    rewrite list_lookup_alter_eq, Hi. cbn [fmap option_fmap option_map].
    run_effect. reflexivity. }
  cbn [nextMaterial materials scene camera controls cameraAnimation modelRef loadError].
  autorewrite with state_fields.
  cbn [nextMaterial materials scene camera controls cameraAnimation modelRef loadError].
  split; [reflexivity|]. split.
  { rewrite !store_update_same, appearance_fields.
    autorewrite with look_fields. reflexivity. }
  split; [intros k Hk; rewrite !store_update_other by lia; reflexivity|].
  repeat (split; [reflexivity|]). reflexivity.
Qed.


(** The highlight of a mesh that has no original material, or whose
    original material lacks a colour or an emissive colour, throws before
    the mesh gets a new material. *)
Lemma highlightFound_throws st i o :
  scene st !! i = Some o -> Obj.isMesh o = true ->
  match originalMaterial (Obj.userData o) with
  | None => True
  | Some m => color (materials st m) = None \/ emissive (materials st m) = None
  end ->
  exists st',
    highlightFound setHex (Some i) st = (None, st') /\
    scene st' = scene st /\ cameraPose st' = cameraPose st /\
    modelRef st' = modelRef st /\ loadError st' = loadError st /\
    (forall k, (k < nextMaterial st)%nat -> materials st' k = materials st k) /\
    (nextMaterial st <= nextMaterial st')%nat.
Proof.
  intros Hi Hmesh Hlack.
  unfold highlightFound, mbind, Eff_bind, getObject. rewrite Hi, Hmesh.
  unfold highlightMesh, mbind, Eff_bind, getObject. rewrite Hi.
  destruct (originalMaterial (Obj.userData o)) as [m|] eqn:Horig;
    [|exists st; repeat split; first [reflexivity | lia]].
  unfold cloneMaterial, getMaterial, updateMaterial, updateObject, throwTypeError,
    focusCameraOnMesh, startAnimationTo, getObject, mbind, Eff_bind.
  destruct (color (materials st m)) as [c|] eqn:Hcol.
  2:{ eexists. split; [run_effect; rewrite ?Hcol; run_effect; reflexivity|].
      cbn [nextMaterial materials scene].
      do 4 (split; [reflexivity|]). split; [|lia].
      intros k Hk. apply store_update_other. lia. }
  destruct Hlack as [Hlack | Hem]; [discriminate|].
  eexists.
  split; [run_effect; rewrite ?Hcol, ?Hem; run_effect; rewrite ?Hcol, ?Hem;
          run_effect; reflexivity|].
  autorewrite with state_fields. cbn [nextMaterial materials scene].
  do 4 (split; [reflexivity|]). split; [|lia].
  intros k Hk. rewrite !store_update_other by lia. reflexivity.
Qed.

(** The selection effect on a loaded scene: the reset, then the highlight
    of what the resolver finds in the scene. *)
Lemma selectionEffect_steps sp st :
  loaded st -> ready st ->
  exists st1,
    selectionEffect setHex (Some sp) st
    = highlightFound setHex (fst <$> findSelectedMesh sp (scene st)) st1 /\
    scene st1 = resetObject <$> scene st /\
    (forall m, appearance (materials st1 m) = appearance (materials st m)) /\
    nextMaterial st1 = nextMaterial st /\
    cameraPose st1 = cameraPose st /\
    modelRef st1 = modelRef st /\ loadError st1 = loadError st /\
    loaded st1.
Proof.
  intros Hloaded [Href Herr].
  destruct (traverse_reset st Hloaded) as (st1 & Hrun & Hscene & Hrest).
  exists st1. split; [|split; [exact Hscene | exact Hrest]].
  unfold selectionEffect. rewrite Href, Herr. cbn [negb orb].
  unfold mbind at 1. unfold Eff_bind at 1. rewrite Hrun.
  unfold mbind, Eff_bind, getState. rewrite Hscene.
  rewrite (findSelectedMesh_fmap resetObject);
    [reflexivity | apply resetObject_name | apply resetObject_isMesh].
Qed.

Lemma reset_lookup st i o :
  scene st !! i = Some o ->
  (resetObject <$> scene st) !! i = Some (resetObject o).
Proof. intros Hi. by rewrite list_lookup_fmap, Hi. Qed.

Lemma resetObject_boundingBox o :
  Obj.boundingBox (resetObject o) = Obj.boundingBox o.
Proof.
  unfold resetObject. destruct (Obj.isMesh o); [|reflexivity].
  by destruct (originalMaterial (Obj.userData o)).
Qed.

(** X17: in a loaded scene, when the mesh name of the selection is the
    non-empty name of a mesh that is the first object so named and whose
    original material has a colour and an emissive colour, the selection
    effect succeeds, finds that mesh by the lookup by mesh name and
    highlights it and no other mesh, with the look of the highlight, and
    sends the camera to the centre of its box.  A click on that mesh
    makes such a selection whatever the BOM data are, and so does a click
    on a tree node whose reference name is the name of the mesh. *)
Theorem selected_mesh_is_highlighted
  (st : ModelState) (sp : SelectedPart) (i : nat) (o : Object3D)
  (m : MaterialRef) (c e : Color) :
  loaded st -> ready st ->
  scene st !! i = Some o -> Obj.isMesh o = true -> Obj.name o <> "" ->
  (forall j o', (j < i)%nat -> scene st !! j = Some o' ->
     Obj.name o' <> Obj.name o) ->
  originalMaterial (Obj.userData o) = Some m ->
  originalColor (Obj.userData o) = Some c ->
  originalEmissive (Obj.userData o) = Some e ->
  Sel.meshName sp = Some (Obj.name o) ->
  (exists st',
     findSelectedMesh sp (scene st) = Some (i, "meshName") /\
     selectionEffect setHex (Some sp) st = (Some tt, st') /\
     highlighted st' i /\
     meshAppearance st' i = Some (highlightAppearance setHex) /\
     (forall j, highlighted st' j -> j = i) /\
     (endTarget <$> cameraAnimation st') = Some (getCenter (Obj.boundingBox o))) /\
  (forall bomData rest,
     exists clicked, handleSingleClick bomData (o :: rest) = Some clicked /\
                     Sel.meshName clicked = Some (Obj.name o)) /\
  (forall node, Part.reference_name node = Some (Obj.name o) ->
     Sel.meshName (treeNodeClick node) = Some (Obj.name o)).
Proof.
  intros Hloaded Hready Hi Hmesh Hname Hfirst Horig Hcol Hem Hmn.
  split; [|split].
  2:{ intros bomData rest. unfold handleSingleClick.
      destruct (resolvePartData bomData (Obj.name o)) as [[partData method]|];
        eexists; split; reflexivity. }
  2:{ intros node Href. unfold treeNodeClick. cbn [Sel.meshName]. rewrite Href.
      cbn [truthy from_option].
      destruct (String.eqb (Obj.name o) "") eqn:He;
        [apply String.eqb_eq in He; contradiction | reflexivity]. }
  assert (Hfound : findSelectedMesh sp (scene st) = Some (i, "meshName")).
  { unfold findSelectedMesh. rewrite Hmn. cbn [from_option truthy].
    change (Datatypes.id (Obj.name o)) with (Obj.name o).
    destruct (String.eqb (Obj.name o) "") eqn:He;
      [apply String.eqb_eq in He; contradiction|].
    rewrite (getObjectByName_first (scene st) (Obj.name o) i o 0)
      by (assumption || reflexivity).
    cbn [negb tryStrategy fmap option_fmap option_map Nat.add].
    by destruct (truthy (Sel.reference_name sp)), (truthy (Sel.name sp)). }
  destruct (selectionEffect_steps sp st Hloaded Hready)
    as (st1 & Hrun & Hscene & Happ & Hnext & Hpose & Href & Herr & Hloaded1).
  rewrite Hfound in Hrun. cbn [fmap option_fmap option_map fst] in Hrun.
  assert (o ∈ scene st) as Hin by (eapply list_elem_of_lookup_2; exact Hi).
  pose proof (Hloaded o Hin Hmesh) as Hl. rewrite Horig in Hl.
  destruct Hl as [Hlt Hlook].
  assert (Hi1 : scene st1 !! i = Some (set_material (Some m) o)).
  { rewrite Hscene, (reset_lookup st i o Hi). unfold resetObject.
    by rewrite Hmesh, Horig. }
  assert (Hlook1 : appearance (materials st1 m) = snapshot (Obj.userData o))
    by (rewrite Happ; exact Hlook).
  unfold appearance, snapshot in Hlook1. rewrite Hcol, Hem in Hlook1.
  injection Hlook1 as Hc1 He1 _.
  destruct (highlightFound_mesh st1 i (set_material (Some m) o) m c e)
    as (st' & Hhl & Hsc' & Happ' & Hold & Hnext' & Hcam' & Hctl' & Href' & Herr'
        & Hanim'); try assumption; [lia|].
  exists st'. split; [exact Hfound|]. split; [congruence|].
  assert (Hi' : scene st' !! i
                = Some (set_material (Some (nextMaterial st1))
                          (set_material (Some m) o))).
  { rewrite Hsc', list_lookup_alter_eq, Hi1. reflexivity. }
  assert (Hhigh : highlighted st' i).
  { eexists. split; [exact Hi'|]. split; [exact Hmesh|].
    cbn. rewrite Horig. intros [= Heq]. lia. }
  split; [exact Hhigh|]. split.
  { unfold meshAppearance. rewrite Hi'. cbn. by rewrite Happ'. }
  split.
  { destruct (selectionEffect_spec setHex (Some sp) st Hloaded Hready)
      as (res & st'' & Hrun' & Hout).
    assert (st'' = st') as -> by congruence.
    destruct (outcome_at_most_one setHex _ _ _ _ Hloaded Hout) as [Hone _].
    intros j Hj. by apply Hone. }
  rewrite Hanim'. reflexivity.
Qed.

(** X18: in a loaded scene, when the first object that carries the mesh
    name of the selection is not a mesh (a group named like the mesh below
    it), the selection effect stops at it: no other strategy runs, no mesh
    is highlighted, every mesh wears its original material and the camera
    stays where it is. *)
Theorem group_named_like_the_mesh_blocks_the_highlight
  (st : ModelState) (sp : SelectedPart) (j : nat) (group : Object3D) :
  loaded st -> ready st ->
  truthy (Sel.meshName sp) = true ->
  getObjectByName (scene st) 0 (default "" (Sel.meshName sp)) = Some j ->
  scene st !! j = Some group -> Obj.isMesh group = false ->
  exists st',
    findSelectedMesh sp (scene st) = Some (j, "meshName") /\
    selectionEffect setHex (Some sp) st = (Some tt, st') /\
    scene st' = resetObject <$> scene st /\
    unhighlighted st' /\
    cameraPose st' = cameraPose st.
Proof.
  intros Hloaded Hready Hmn Hget Hj Hmesh.
  assert (Hfound : findSelectedMesh sp (scene st) = Some (j, "meshName")).
  { unfold findSelectedMesh. rewrite Hmn, Hget.
    cbn [tryStrategy fmap option_fmap option_map].
    by destruct (truthy (Sel.reference_name sp)), (truthy (Sel.name sp)). }
  destruct (selectionEffect_steps sp st Hloaded Hready)
    as (st1 & Hrun & Hscene & Happ & Hnext & Hpose & Href & Herr & Hloaded1).
  rewrite Hfound in Hrun. cbn [fmap option_fmap option_map fst] in Hrun.
  exists st1. split; [exact Hfound|]. split.
  { rewrite Hrun. unfold highlightFound, mbind, Eff_bind, getObject.
    rewrite Hscene, (reset_lookup st j group Hj), resetObject_isMesh, Hmesh.
    reflexivity. }
  split; [exact Hscene|]. split; [|exact Hpose].
  by apply (reset_unhighlighted st st1).
Qed.

(** X19: in a loaded scene, when the mesh found for the selection has
    no original material, or an original material without colour or
    without emissive colour (a basic material), the selection effect
    throws; the scene is left as the reset made it, with no mesh
    highlighted, and the camera is not moved. *)
Theorem highlight_of_material_without_emissive_throws
  (st : ModelState) (sp : SelectedPart) (i : nat) (method : string)
  (o : Object3D) :
  loaded st -> ready st ->
  findSelectedMesh sp (scene st) = Some (i, method) ->
  scene st !! i = Some o -> Obj.isMesh o = true ->
  originalMaterial (Obj.userData o) = None \/
  originalColor (Obj.userData o) = None \/
  originalEmissive (Obj.userData o) = None ->
  exists st',
    selectionEffect setHex (Some sp) st = (None, st') /\
    scene st' = resetObject <$> scene st /\
    unhighlighted st' /\
    cameraPose st' = cameraPose st.
Proof.
  intros Hloaded Hready Hfound Hi Hmesh Hlack.
  destruct (selectionEffect_steps sp st Hloaded Hready)
    as (st1 & Hrun & Hscene & Happ & Hnext & Hpose & Href & Herr & Hloaded1).
  rewrite Hfound in Hrun. cbn [fmap option_fmap option_map fst] in Hrun.
  assert (o ∈ scene st) as Hin by (eapply list_elem_of_lookup_2; exact Hi).
  pose proof (Hloaded o Hin Hmesh) as Hl.
  destruct (highlightFound_throws st1 i (resetObject o))
    as (st' & Hthrow & Hsc' & Hpose' & Href' & Herr' & Hold & Hnext').
  { rewrite Hscene. by apply reset_lookup. }
  { by rewrite resetObject_isMesh. }
  { rewrite resetObject_userData.
    destruct (originalMaterial (Obj.userData o)) as [m|] eqn:Horig; [|exact I].
    destruct Hl as [_ Hlook]. rewrite <- Happ in Hlook.
    unfold appearance, snapshot in Hlook. injection Hlook as Hc He _.
    destruct Hlack as [Hlack | [Hlack | Hlack]]; [discriminate | left | right];
      congruence. }
  exists st'. split; [congruence|]. split; [congruence|].
  split; [|congruence].
  apply (reset_unhighlighted st st'); [|congruence].
  apply (loaded_transfer st1 st' Hloaded1).
  - intros o' Ho'. rewrite Hsc' in Ho'. exists o'. auto.
  - intros k Hk. by rewrite Hold.
  - exact Hnext'.
Qed.

End SelectionOutcomes.

(** The load of a fresh scene leaves it loaded and ready. *)
Lemma loaded_after_setup st0 :
  fresh_scene st0 ->
  modelRef st0 = true -> isInitialLoad st0 = true ->
  truthy (loadError st0) = false ->
  loaded (snd (setupModel st0)) /\ ready (snd (setupModel st0)).
Proof.
  intros Hfresh Href Hinit Herr.
  destruct (setupModel_spec st0 Hfresh Href Hinit Herr)
    as (st & Hrun & Hloaded & Hready & _).
  rewrite Hrun. auto.
Qed.

Lemma grouped_state_is_fresh : fresh_scene grouped_state.
Proof.
  intros o Ho. unfold grouped_state in Ho. cbn [scene] in Ho.
  repeat (apply elem_of_cons in Ho as [-> | Ho];
          [repeat split; intros m [= <-]; cbn; lia|]).
  inversion Ho.
Qed.

Lemma lamp_state_is_fresh : fresh_scene lamp_state.
Proof.
  intros o Ho. unfold lamp_state in Ho. cbn [scene] in Ho.
  repeat (apply elem_of_cons in Ho as [-> | Ho];
          [repeat split; intros m [= <-]; cbn; lia|]).
  inversion Ho.
Qed.

Lemma selected_mesh_is_highlighted_witness :
  exists st',
    selectionEffect sample_setHex (Some shaft_part) (snd (setupModel fresh_state))
      = (Some tt, st') /\
    highlighted st' 1.
Proof.
  destruct (loaded_after_setup fresh_state fresh_state_is_fresh
              eq_refl eq_refl eq_refl) as [Hloaded Hready].
  destruct (selected_mesh_is_highlighted sample_setHex
              (snd (setupModel fresh_state)) shaft_part 1 loaded_shaft
              0%nat grey black Hloaded Hready)
    as [(st' & _ & Hrun & Hhigh & _) _].
  - lazy. reflexivity.
  - reflexivity.
  - discriminate.
  - intros j o' Hj Ho'. assert (j = 0%nat) as -> by lia.
    assert (o' = plain_object "Scene" false None) as ->.
    { lazy in Ho'. by injection Ho' as <-. }
    discriminate.
  - reflexivity.
  - reflexivity.
  - reflexivity.
  - reflexivity.
  - exists st'. split; [exact Hrun | exact Hhigh].
Defined.

Lemma group_named_like_the_mesh_blocks_the_highlight_witness :
  exists st',
    selectionEffect sample_setHex (Some shaft_part) (snd (setupModel grouped_state))
      = (Some tt, st') /\
    unhighlighted st'.
Proof.
  destruct (loaded_after_setup grouped_state grouped_state_is_fresh
              eq_refl eq_refl eq_refl) as [Hloaded Hready].
  destruct (group_named_like_the_mesh_blocks_the_highlight sample_setHex
              (snd (setupModel grouped_state)) shaft_part 1
              (plain_object "Shaft-01" false None) Hloaded Hready)
    as (st' & _ & Hrun & _ & Hun & _).
  - reflexivity.
  - lazy. reflexivity.
  - lazy. reflexivity.
  - reflexivity.
  - exists st'. split; [exact Hrun | exact Hun].
Defined.

Lemma highlight_of_material_without_emissive_throws_witness :
  exists st',
    selectionEffect sample_setHex (Some lamp_part) (snd (setupModel lamp_state))
      = (None, st') /\
    unhighlighted st'.
Proof.
  destruct (loaded_after_setup lamp_state lamp_state_is_fresh
              eq_refl eq_refl eq_refl) as [Hloaded Hready].
  destruct (highlight_of_material_without_emissive_throws sample_setHex
              (snd (setupModel lamp_state)) lamp_part 1 "meshName"
              (Obj.mk "0a1b2c3d-0000" "Lamp" true (Some 0%nat) true true
                 (mkUserData (Some 0%nat) (Some grey) None None None) unit_box)
              Hloaded Hready)
    as (st' & Hrun & _ & Hun & _).
  - lazy. reflexivity.
  - lazy. reflexivity.
  - reflexivity.
  - right. right. reflexivity.
  - exists st'. split; [exact Hrun | exact Hun].
Defined.

(** ** Materials at load *)

Section LoadEnhancement.

Local Open Scope R_scope.

Lemma strict_eq_number_tenth : strict_eq_number (Some 0.1) 0 = false.
Proof. unfold strict_eq_number. destruct (Req_dec_T 0.1 0); [lra | reflexivity]. Qed.

Ltac project_material :=
  cbn [isMeshStandardMaterial isMeshPhysicalMaterial metalness roughness
       envMapIntensity color emissive emissiveIntensity version].

Lemma enhanceMaterial_idempotent mat :
  enhanceMaterial (enhanceMaterial mat) = enhanceMaterial mat.
Proof.
  destruct mat as [std phys met rough env col em ei ver].
  unfold enhanceMaterial, set_roughness, set_envMapIntensity. project_material.
  destruct (std || phys) eqn:Hkind; project_material; [|by rewrite Hkind].
  destruct (gt_number met 0.5) eqn:Hmet;
    destruct (strict_eq_number rough 0) eqn:Hrough; project_material;
    rewrite ?Hkind, ?Hmet, ?Hrough, ?strict_eq_number_tenth; reflexivity.
Qed.

Lemma enhanceMaterial_needsUpdate mat :
  enhanceMaterial (needsUpdate mat) = needsUpdate (enhanceMaterial mat).
Proof.
  destruct mat as [std phys met rough env col em ei ver].
  unfold enhanceMaterial, needsUpdate, set_roughness, set_envMapIntensity.
  project_material.
  destruct (std || phys); [|reflexivity].
  destruct (gt_number met 0.5), (strict_eq_number rough 0); reflexivity.
Qed.

Lemma enhanceMaterial_iter n mat :
  enhanceMaterial (Nat.iter n needsUpdate (enhanceMaterial mat))
  = Nat.iter n needsUpdate (enhanceMaterial mat).
Proof.
  induction n as [|n IH].
  - apply enhanceMaterial_idempotent.
  - by rewrite Nat.iter_succ, enhanceMaterial_needsUpdate, IH.
Qed.

(** The traversal at load, run [n] times over a material. *)
Lemma visits_closed_form n mat :
  Nat.iter n (fun x => needsUpdate (enhanceMaterial x)) mat
  = match n with
    | O => mat
    | S _ => Nat.iter n needsUpdate (enhanceMaterial mat)
    end.
Proof.
  induction n as [|n IH]; [reflexivity|].
  rewrite Nat.iter_succ, IH. destruct n as [|n]; [reflexivity|].
  by rewrite enhanceMaterial_iter.
Qed.

Lemma wears_loadObject store m o : wears m (loadObject store o) = wears m o.
Proof.
  unfold wears, loadObject. destruct (Obj.isMesh o) eqn:Hmesh; [|by rewrite Hmesh].
  cbn. by rewrite Hmesh.
Qed.

(** One step of the traversal at load, on the store of materials. *)
Lemma setupCallback_materials st i o :
  scene st !! i = Some o ->
  forall k, materials (snd (setupCallback i st)) k
            = if wears k o then needsUpdate (enhanceMaterial (materials st k))
              else materials st k.
Proof.
  intros Hi k.
  unfold setupCallback, mbind, Eff_bind, getObject, updateObject, getMaterial,
    updateMaterial, mret, Eff_ret.
  rewrite Hi. unfold wears.
  destruct (Obj.isMesh o) eqn:Hmesh; [|reflexivity].
  destruct (Obj.material o) as [m|] eqn:Hmat; [|reflexivity].
  cbn [andb].
  lazy beta iota zeta. cbn [fst snd].
  rewrite ?materials_with_scene.
  unfold enhanceMaterial.
  destruct (isMeshStandardMaterial (materials st m)
            || isMeshPhysicalMaterial (materials st m)) eqn:Hkind;
    [destruct (gt_number (metalness (materials st m)) 0.5) eqn:Hmet;
     destruct (strict_eq_number (roughness (materials st m)) 0) eqn:Hrough|];
    lazy beta iota zeta; cbn [fst snd];
    destruct (color (materials st m)) as [c|];
    destruct (emissive (materials st m)) as [e|];
    destruct (emissiveIntensity (materials st m)) as [x|];
    lazy beta iota zeta; cbn [fst snd];
    (case_bool_decide as Hk;
     [ injection Hk as <-;
       repeat first [ rewrite materials_with_scene
                    | rewrite materials_with_materials
                    | rewrite store_update_same ];
       rewrite ?Hkind, ?Hmet, ?Hrough; reflexivity
     | repeat first [ rewrite materials_with_scene
                    | rewrite materials_with_materials
                    | rewrite store_update_other by congruence ];
       reflexivity ]).
Qed.

Lemma setup_range_materials k : forall a st,
  (a + k <= length (scene st))%nat ->
  forall m,
    materials (snd (forEachIndex setupCallback (seq a k) st)) m
    = Nat.iter (wearers (take k (drop a (scene st))) m)
        (fun x => needsUpdate (enhanceMaterial x)) (materials st m).
Proof.
  induction k as [|k IH]; intros a st Hlen m; [reflexivity|].
  destruct (lookup_lt_is_Some_2 (scene st) a) as [o Ho]; [lia|].
  destruct (setupCallback_step st a o Ho) as (st1 & Hrun1 & Hscene1 & _).
  pose proof (setupCallback_materials st a o Ho m) as Hm.
  rewrite Hrun1 in Hm. cbn [snd] in Hm.
  cbn [seq forEachIndex]. unfold mbind, Eff_bind. rewrite Hrun1.
  rewrite IH by (rewrite Hscene1, length_alter; lia).
  rewrite Hscene1, drop_alter.
  destruct (decide (S a <= a)%nat) as [Hle|_]; [lia|]. rewrite Hm.
  rewrite (drop_S _ _ _ Ho). cbn [take]. unfold wearers. cbn [List.filter].
  destruct (wears m o); cbn [length]; [rewrite Nat.iter_succ_r|]; reflexivity.
Qed.

Lemma needsUpdate_iter n mat :
  Nat.iter n needsUpdate mat
  = mkMaterial (isMeshStandardMaterial mat) (isMeshPhysicalMaterial mat)
      (metalness mat) (roughness mat) (envMapIntensity mat) (color mat)
      (emissive mat) (emissiveIntensity mat) (version mat + n).
Proof.
  induction n as [|n IH].
  - destruct mat. project_material. cbn [Nat.iter nat_rect]. f_equal. lia.
  - rewrite Nat.iter_succ, IH. unfold needsUpdate. project_material.
    f_equal. lia.
Qed.

(** The store of materials after the load effect has run. *)
Lemma setupModel_materials st0 m :
  modelRef st0 = true -> isInitialLoad st0 = true ->
  truthy (loadError st0) = false ->
  materials (snd (setupModel st0)) m
  = Nat.iter (wearers (scene st0) m)
      (fun x => needsUpdate (enhanceMaterial x)) (materials st0 m).
Proof.
  intros Href Hini Herr. unfold setupModel. rewrite Href, Hini, Herr.
  cbn [andb negb]. unfold mbind, Eff_bind.
  destruct (traverse_setup st0) as (st1 & Hrun & _).
  rewrite Hrun. unfold fitCameraToScene. cbn [snd materials].
  replace st1 with (snd (traverse setupCallback st0)) by (by rewrite Hrun).
  unfold traverse. rewrite setup_range_materials by (cbn; lia).
  by rewrite drop_0, firstn_all.
Qed.

(** X20: the load effect leaves a material that no mesh wears as it is.
    Of a material that meshes wear it keeps the kind, the metalness, the
    colour, the emissive colour and the emissive intensity; when the
    material is a standard or a physical one it raises a roughness of 0
    to 0.1, so that no such material is left without roughness, and sets
    the intensity of the environment map to 1 when the metalness is above
    0.5; the material of any other kind keeps both; and the material is
    marked for update once for every mesh that wears it. *)
Theorem load_enhances_worn_materials (st0 : ModelState) (m : MaterialRef) :
  modelRef st0 = true -> isInitialLoad st0 = true ->
  truthy (loadError st0) = false ->
  let before := materials st0 m in
  let after := materials (snd (setupModel st0)) m in
  let visits := wearers (scene st0) m in
  (visits = 0%nat -> after = before) /\
  ((0 < visits)%nat ->
   isMeshStandardMaterial after = isMeshStandardMaterial before /\
   isMeshPhysicalMaterial after = isMeshPhysicalMaterial before /\
   metalness after = metalness before /\
   appearance after = appearance before /\
   version after = (version before + visits)%nat /\
   (isMeshStandardMaterial before || isMeshPhysicalMaterial before = true ->
    roughness after
      = (if strict_eq_number (roughness before) 0 then Some 0.1
         else roughness before) /\
    envMapIntensity after
      = (if gt_number (metalness before) 0.5 then Some 1
         else envMapIntensity before) /\
    strict_eq_number (roughness after) 0 = false) /\
   (isMeshStandardMaterial before || isMeshPhysicalMaterial before = false ->
    roughness after = roughness before /\
    envMapIntensity after = envMapIntensity before)).
Proof.
  intros Href Hini Herr before after visits.
  assert (Hafter : after = Nat.iter visits
            (fun x => needsUpdate (enhanceMaterial x)) before)
    by (by apply setupModel_materials).
  rewrite visits_closed_form in Hafter. split.
  - intros Hnone. by rewrite Hnone in Hafter.
  - intros Hsome. destruct visits as [|n] eqn:Hvisits; [lia|].
    rewrite needsUpdate_iter in Hafter. rewrite Hafter. clear Hafter.
    destruct before as [std phys met rough env col em ei ver].
    unfold enhanceMaterial, appearance, set_roughness, set_envMapIntensity.
    project_material.
    destruct (std || phys) eqn:Hkind; project_material.
    + destruct (gt_number met 0.5) eqn:Hmet;
        destruct (strict_eq_number rough 0) eqn:Hrough; project_material;
        (do 5 (split; [reflexivity|]));
        (split; [intros _ | intros [=]]);
        (split; [reflexivity|]); (split; [reflexivity|]);
        first [ apply strict_eq_number_tenth | exact Hrough ].
    + do 5 (split; [reflexivity|]).
      split; [intros [=] | intros _; split; reflexivity].
Qed.

End LoadEnhancement.

Lemma load_enhances_worn_materials_witness :
  roughness (materials (snd (setupModel polished_state)) 0%nat) = Some 0.1%R /\
  envMapIntensity (materials (snd (setupModel polished_state)) 0%nat) = Some 1%R /\
  version (materials (snd (setupModel polished_state)) 0%nat) = 2%nat.
Proof.
  destruct (load_enhances_worn_materials polished_state 0%nat
              eq_refl eq_refl eq_refl) as [_ Hworn].
  destruct Hworn as (_ & _ & _ & _ & Hversion & Hstandard & _).
  { lazy. lia. }
  destruct (Hstandard eq_refl) as (Hrough & Henv & _).
  split; [|split].
  - rewrite Hrough.
    change (roughness (materials polished_state 0%nat)) with (Some 0%R).
    unfold strict_eq_number. destruct (Req_dec_T 0 0) as [_|Hne]; [reflexivity|].
    exfalso. apply Hne. reflexivity.
  - rewrite Henv.
    change (metalness (materials polished_state 0%nat)) with (Some 0.9%R).
    unfold gt_number. destruct (Rgt_dec 0.9 0.5) as [_|Hle]; [reflexivity|].
    exfalso. apply Hle. lra.
  - exact Hversion.
Defined.
